(** * License discovery of grayskull: a shallow embedding of
      [grayskull/license/discovery.py] and the properties of its functions.

    Python [str] values are modelled as [string]; a character stands for the
    Unicode code point of the same number, so the model covers the code
    points 0..255.  Python exceptions are values of [exn]; a call that can
    raise returns a [result]. *)

From Stdlib Require Import Bool Arith ZArith Lia List Ascii String.
Import ListNotations.
Set Warnings "-register-all".
Local Open Scope list_scope.
Local Open Scope string_scope.

(** ** Python values the module handles *)

Inductive exn : Type :=
| TypeError | KeyError | AttributeError | IndexError | ValueError
| UnicodeDecodeError | BinasciiError | JSONDecodeError
| FileNotFoundError | NotADirectoryError | IsADirectoryError
| CalledProcessError (returncode : Z)
| ConnectionError | Timeout
| KeyboardInterrupt.

(** [except Exception] catches every class above but [KeyboardInterrupt],
    which derives from [BaseException] only. *)
Definition is_Exception (e : exn) : bool :=
  match e with KeyboardInterrupt => false | _ => true end.

Inductive result (A : Type) : Type :=
| Return (a : A)
| Raise (e : exn).
Arguments Return {A} a.
Arguments Raise {A} e.

(** Truth value of an [Optional[str]]: [None] and the empty string are false. *)
Definition truthy (o : option string) : bool :=
  match o with
  | Some (String _ _) => true
  | _ => false
  end.

(** ** Characters *)

Definition code (c : ascii) : nat := nat_of_ascii c.

Definition in_range (lo hi : nat) (c : ascii) : bool :=
  ((lo <=? code c) && (code c <=? hi))%nat.

(** [str.isspace] on one character, which is also what [\s] matches in a
    [str] pattern. *)
Definition is_space (c : ascii) : bool :=
  in_range 9 13 c || in_range 28 32 c
  || (code c =? 133)%nat || (code c =? 160)%nat.

(** [\w] in a [str] pattern: alphanumeric characters and the underscore. *)
Definition is_word (c : ascii) : bool :=
  in_range 48 57 c || in_range 65 90 c || (code c =? 95)%nat
  || in_range 97 122 c
  || (code c =? 170)%nat || in_range 178 179 c || (code c =? 181)%nat
  || in_range 185 186 c || in_range 188 190 c
  || in_range 192 214 c || in_range 216 246 c || in_range 248 255 c.

(** [str.lower] on one character. *)
Definition lower (c : ascii) : ascii :=
  if in_range 65 90 c || in_range 192 214 c || in_range 216 222 c
  then ascii_of_nat (code c + 32) else c.

(** Comparison of a pattern character with a character of the subject;
    [ic] is the [re.IGNORECASE] flag. *)
Definition chr_eq (ic : bool) (p x : ascii) : bool :=
  if ic then Ascii.eqb (lower p) (lower x) else Ascii.eqb p x.

Definition newline : ascii := ascii_of_nat 10.

(** ** The fragment of [re] the module uses

    A backtracking matcher in continuation style: alternatives are tried left
    to right and a starred class is greedy, as in Python. *)

Inductive regex : Type :=
| Lit (c : ascii)                  (* a literal character *)
| Cls (p : ascii -> bool)          (* a one-character class, [.] included *)
| StarCls (p : ascii -> bool)      (* [c*] for a one-character class [c] *)
| Bnd                              (* [\b] *)
| Eos                              (* [$] without [re.MULTILINE] *)
| Seq (r1 r2 : regex)
| Alt (r1 r2 : regex).

(** The literal string [w] followed by [r]. *)
Fixpoint lits (w : string) (r : regex) : regex :=
  match w with
  | EmptyString => r
  | String c w' => Seq (Lit c) (lits w' r)
  end.

Definition is_word_opt (o : option ascii) : bool :=
  match o with Some c => is_word c | None => false end.

Definition head (s : string) : option ascii :=
  match s with String c _ => Some c | EmptyString => None end.

(** [$] holds at the end of the subject and just before a final line feed. *)
Definition at_end (s : string) : bool :=
  match s with
  | EmptyString => true
  | String c EmptyString => Ascii.eqb c newline
  | _ => false
  end.

Section Matcher.
Context {R : Type}.

(** A continuation receives the character before the current position and
    the rest of the subject. *)
Definition cont : Type := option ascii -> string -> option R.

Fixpoint star_cls (p : ascii -> bool) (prev : option ascii) (s : string)
         (k : cont) : option R :=
  match s with
  | String c s' =>
      if p c then
        match star_cls p (Some c) s' k with
        | Some r => Some r
        | None => k prev s
        end
      else k prev s
  | EmptyString => k prev s
  end.

Fixpoint exec (ic : bool) (r : regex) (prev : option ascii) (s : string)
         (k : cont) : option R :=
  match r with
  | Lit c =>
      match s with
      | String x s' => if chr_eq ic c x then k (Some x) s' else None
      | EmptyString => None
      end
  | Cls p =>
      match s with
      | String x s' => if p x then k (Some x) s' else None
      | EmptyString => None
      end
  | StarCls p => star_cls p prev s k
  | Bnd =>
      if xorb (is_word_opt prev) (is_word_opt (head s)) then k prev s
      else None
  | Eos => if at_end s then k prev s else None
  | Seq r1 r2 => exec ic r1 prev s (fun p' s' => exec ic r2 p' s' k)
  | Alt r1 r2 =>
      match exec ic r1 prev s k with
      | Some v => Some v
      | None => exec ic r2 prev s k
      end
  end.
End Matcher.

(** [pattern.match(s)] at position [prev|s]: the character before the end of
    the match and the rest of the subject after it. *)
Definition match_at (ic : bool) (r : regex) (prev : option ascii) (s : string)
  : option (option ascii * string) :=
  exec ic r prev s (fun p rest => Some (p, rest)).

(** [bool(pattern.match(s))]: the match is anchored at the start of [s]. *)
Definition re_match (ic : bool) (r : regex) (s : string) : bool :=
  match match_at ic r None s with Some _ => true | None => false end.

(** [re.sub(pattern, repl, s, count)] for a literal replacement.  [left] is
    the number of replacements still allowed, [None] for no limit.  An empty
    match is replaced and the scan moves one character on. *)
Fixpoint sub_loop (fuel : nat) (ic : bool) (r : regex) (repl : string)
         (left : option nat) (prev : option ascii) (s : string) : string :=
  match fuel with
  | O => s
  | S fuel' =>
      match left with
      | Some O => s
      | _ =>
          let left' := option_map Nat.pred left in
          match match_at ic r prev s with
          | Some (prev', rest) =>
              if (String.length rest <? String.length s)%nat then
                repl ++ sub_loop fuel' ic r repl left' prev' rest
              else
                match s with
                | EmptyString => repl
                | String c s' =>
                    repl ++ String c (sub_loop fuel' ic r repl left' (Some c) s')
                end
          | None =>
              match s with
              | EmptyString => EmptyString
              | String c s' =>
                  String c (sub_loop fuel' ic r repl left (Some c) s')
              end
          end
      end
  end.

(** [count = 0] means that every occurrence is replaced. *)
Definition re_sub (ic : bool) (r : regex) (repl : string) (count : nat)
           (s : string) : string :=
  sub_loop (S (String.length s)) ic r repl
           (match count with O => None | _ => Some count end) None s.

(** ** [str] methods *)

Fixpoint lstrip (s : string) : string :=
  match s with
  | String c s' => if is_space c then lstrip s' else s
  | EmptyString => EmptyString
  end.

Fixpoint rstrip (s : string) : string :=
  match s with
  | EmptyString => EmptyString
  | String c s' =>
      match rstrip s' with
      | EmptyString => if is_space c then EmptyString else String c EmptyString
      | t => String c t
      end
  end.

(** [s.strip()] *)
Definition strip (s : string) : string := rstrip (lstrip s).

Fixpoint endswith (s suffix : string) : bool :=
  (String.eqb s suffix)
  || match s with
     | String _ s' => endswith s' suffix
     | EmptyString => false
     end.

(** [s[-1]] *)
Fixpoint last_char (s : string) : option ascii :=
  match s with
  | EmptyString => None
  | String c EmptyString => Some c
  | String _ s' => last_char s'
  end.

(** [s.replace(old, new)] for a one-character [old]. *)
Fixpoint replace_char (old : ascii) (new : string) (s : string) : string :=
  match s with
  | EmptyString => EmptyString
  | String c s' =>
      if Ascii.eqb c old then new ++ replace_char old new s'
      else String c (replace_char old new s')
  end.

(** [s.split(sep)] for a one-character [sep]: never the empty list. *)
Fixpoint split (sep : ascii) (s : string) : list string :=
  match s with
  | EmptyString => [EmptyString]
  | String c s' =>
      if Ascii.eqb c sep then EmptyString :: split sep s'
      else
        match split sep s' with
        | w :: ws => String c w :: ws
        | [] => [String c EmptyString]
        end
  end.

(** [sep.join(l)] *)
Definition join (sep : string) (l : list string) : string :=
  String.concat sep l.

(** [s.startswith(p)] *)
Fixpoint startswith (s p : string) {struct p} : bool :=
  match p with
  | EmptyString => true
  | String c p' =>
      match s with
      | String x s' => Ascii.eqb x c && startswith s' p'
      | EmptyString => false
      end
  end.

Definition slash : ascii := "/"%char.
Definition backslash : ascii := ascii_of_nat 92.

Definition nonempty (x : string) : bool := negb (String.eqb x "").

(** ** [os.path] on POSIX *)

(** [os.path.join(a, b)] *)
Definition os_path_join (a b : string) : string :=
  if startswith b "/" then b
  else if String.eqb a "" || endswith a "/" then a ++ b
  else a ++ "/" ++ b.

(** [os.path.join] applied to the elements of a non-empty [l]. *)
Definition os_path_join_all (l : list string) : string :=
  match l with
  | [] => EmptyString
  | a :: p => fold_left os_path_join p a
  end.

(** The loop of [normpath] over the components; [new_comps] grows at its
    end. *)
Fixpoint norm_comps (initial_slashes : bool) (new_comps comps : list string)
  : list string :=
  match comps with
  | [] => new_comps
  | comp :: rest =>
      if String.eqb comp "" || String.eqb comp "." then
        norm_comps initial_slashes new_comps rest
      else if negb (String.eqb comp "..")
              || (negb initial_slashes
                  && match new_comps with [] => true | _ => false end)
              || match List.last (map Some new_comps) None with
                 | Some l => String.eqb l ".."
                 | None => false
                 end
      then norm_comps initial_slashes (new_comps ++ [comp])%list rest
      else norm_comps initial_slashes (removelast new_comps) rest
  end.

(** [os.path.normpath(path)] *)
Definition normpath (path : string) : string :=
  if String.eqb path "" then "."
  else
    let initial_slashes : nat :=
      if startswith path "/" then
        if startswith path "//" && negb (startswith path "///") then 2 else 1
      else 0 in
    let comps :=
      norm_comps (negb (Nat.eqb initial_slashes 0)) [] (split slash path) in
    let p := join "/" comps in
    let p := match initial_slashes with
             | 0 => p
             | 1 => "/" ++ p
             | _ => "//" ++ p
             end in
    if String.eqb p "" then "." else p.

Section WorkingDirectory.
(** [os.getcwd()] *)
Variable cwd : string.

(** [os.path.abspath(path)] *)
Definition abspath (path : string) : string :=
  normpath (if startswith path "/" then path else os_path_join cwd path).

(** [[x for x in abspath(p).split("/") if x]] *)
Definition path_list (p : string) : list string :=
  filter nonempty (split slash (abspath p)).

(** Length of [os.path.commonprefix] of two lists of components. *)
Fixpoint common_len (a b : list string) : nat :=
  match a, b with
  | x :: a', y :: b' => if String.eqb x y then S (common_len a' b') else 0
  | _, _ => 0
  end.

(** [os.path.relpath(path, start)] *)
Definition relpath (path start : string) : result string :=
  if String.eqb path "" then Raise ValueError
  else
    let start_list := path_list start in
    let path_l := path_list path in
    let i := common_len start_list path_l in
    let rel_list :=
      (repeat ".." (List.length start_list - i) ++ skipn i path_l)%list in
    match rel_list with
    | [] => Return "."
    | _ => Return (os_path_join_all rel_list)
    end.
End WorkingDirectory.

(** ** Data *)

(** Values decoded from a JSON document; [JNull] is Python's [None]. *)
Inductive json : Type :=
| JNull
| JBool (b : bool)
| JNum (z : Z)
| JStr (s : string)
| JArr (l : list json)
| JObj (fields : list (string * json)).

Definition of_opt_str (o : option string) : json :=
  match o with Some s => JStr s | None => JNull end.

(** The dataclass [ShortLicense].  [name] is whatever the caller stored: a
    [str] on the folder path, any JSON value on the API path. *)
Record ShortLicense : Type := mkShortLicense {
  name : json;
  path : string;
  is_packaged : bool
}.

(** [opensource.licenses.wrapper.License], with the fields the module reads:
    [other_names] holds the ["name"] of each entry and [identifiers] the pairs
    (["scheme"], ["identifier"]). *)
Record License : Type := mkLicense {
  license_id : option string;
  license_name : option string;
  other_names : list string;
  identifiers : list (string * string)
}.

(** ** The file system *)

Inductive node : Type :=
| File (content : string)
| Dir (entries : list (string * node)).

Fixpoint assoc {A : Type} (k : string) (l : list (string * A)) : option A :=
  match l with
  | [] => None
  | (k', v) :: l' => if String.eqb k k' then Some v else assoc k l'
  end.

(** Replaces the first binding of [k], or adds one at the end. *)
Fixpoint assoc_set {A : Type} (k : string) (v : A) (l : list (string * A))
  : list (string * A) :=
  match l with
  | [] => [(k, v)]
  | (k', v') :: l' =>
      if String.eqb k k' then (k, v) :: l' else (k', v') :: assoc_set k v l'
  end.

Fixpoint lookup_path (comps : list string) (n : node) : option node :=
  match comps with
  | [] => Some n
  | c :: rest =>
      match n with
      | Dir entries =>
          match assoc c entries with
          | Some child => lookup_path rest child
          | None => None
          end
      | File _ => None
      end
  end.

(** Puts [new] at [comps]; the parent directory has to exist. *)
Fixpoint set_node (comps : list string) (new : node) (n : node) : node :=
  match comps with
  | [] => new
  | c :: rest =>
      match n with
      | Dir entries =>
          match assoc c entries with
          | Some child => Dir (assoc_set c (set_node rest new child) entries)
          | None =>
              match rest with
              | [] => Dir (assoc_set c new entries)
              | _ => n
              end
          end
      | File _ => n
      end
  end.

Definition is_dir_node (o : option node) : bool :=
  match o with Some (Dir _) => true | _ => false end.

Definition dirnames (entries : list (string * node)) : list string :=
  map fst (filter (fun e => is_dir_node (Some (snd e))) entries).

Definition filenames (entries : list (string * node)) : list string :=
  map fst (filter (fun e => negb (is_dir_node (Some (snd e)))) entries).

(** The triples [os.walk] yields below a node, top down. *)
Fixpoint walk (top : string) (n : node)
  : list (string * list string * list string) :=
  match n with
  | File _ => []
  | Dir entries =>
      (top, dirnames entries, filenames entries)
      :: flat_map (fun e => walk (os_path_join top (fst e)) (snd e)) entries
  end.

(** ** The world the module acts on *)

(** The arguments of one call of [search_license_api_github], the key under
    which [functools.lru_cache] files its result. *)
Definition Key : Type := (string * option string * option string)%type.

Definition opt_eqb (a b : option string) : bool :=
  match a, b with
  | Some x, Some y => String.eqb x y
  | None, None => true
  | _, _ => false
  end.

Definition key_eqb (a b : Key) : bool :=
  let '(u1, v1, d1) := a in
  let '(u2, v2, d2) := b in
  String.eqb u1 u2 && opt_eqb v1 v2 && opt_eqb d1 d2.

(** [root] is the directory tree at [/]; [requests] lists the URLs fetched so
    far, oldest first; [cache] is the store of the [lru_cache] wrapper, most
    recently used entry first. *)
Record World : Type := mkWorld {
  root : node;
  requests : list string;
  cache : list (Key * option ShortLicense)
}.

Definition set_root (w : World) (r : node) : World :=
  mkWorld r (requests w) (cache w).

Definition set_cache (w : World) (c : list (Key * option ShortLicense))
  : World :=
  mkWorld (root w) (requests w) c.

(** A computation changes the world and returns or raises; the changes made
    before a raise stay. *)
Definition M (A : Type) : Type := World -> result A * World.

Definition ret {A : Type} (a : A) : M A := fun w => (Return a, w).

Definition raise {A : Type} (e : exn) : M A := fun w => (Raise e, w).

Definition bind {A B : Type} (m : M A) (f : A -> M B) : M B :=
  fun w =>
    match m w with
    | (Return a, w') => f a w'
    | (Raise e, w') => (Raise e, w')
    end.

Definition lift {A : Type} (r : result A) : M A := fun w => (r, w).

Declare Scope py_scope.
Delimit Scope py_scope with py.
Notation "x <- m ;; k" := (bind m (fun x => k))
  (at level 61, m at next level, right associativity) : py_scope.
Notation "m ;;; k" := (bind m (fun _ => k))
  (at level 61, right associativity) : py_scope.

(** HTTP responses as [requests] shows them: [json_body] is the result of
    [response.json()]. *)
Record Response : Type := mkResponse {
  status_code : Z;
  json_body : result json
}.

Fixpoint repeat_char (c : ascii) (n : nat) : string :=
  match n with
  | O => EmptyString
  | S n' => String c (repeat_char c n')
  end.

(** A name that no entry of a directory bears: it is longer than all of
    them.  [tempfile] draws random names until one is free. *)
Definition fresh_name (prefix : string) (used : list string) : string :=
  prefix ++ repeat_char "x" (S (list_max (map String.length used))).

(** ** [fuzzywuzzy.process.extractOne]

    [scorer query choice] is the score (0 to 100) of a choice, the processing
    of both strings included.  With the default cut-off 0 every choice is
    kept, and [max] returns the first of the best. *)
Section ExtractOne.
Variable scorer : string -> string -> nat.

Fixpoint best_of (query : string) (best : string * nat)
         (choices : list string) : string * nat :=
  match choices with
  | [] => best
  | c :: rest =>
      let sc := scorer query c in
      if (snd best <? sc)%nat then best_of query (c, sc) rest
      else best_of query best rest
  end.

Definition extractOne (query : string) (choices : list string)
  : option (string * nat) :=
  match choices with
  | [] => None
  | c :: rest => Some (best_of query (c, scorer query c) rest)
  end.
End ExtractOne.

(** [l.index(x)] *)
Fixpoint index (x : string) (l : list string) : result nat :=
  match l with
  | [] => Raise ValueError
  | y :: l' =>
      if String.eqb y x then Return 0
      else match index x l' with
           | Return i => Return (S i)
           | Raise e => Raise e
           end
  end.

(** [s.lower()] *)
Fixpoint str_lower (s : string) : string :=
  match s with
  | EmptyString => EmptyString
  | String c s' => String (lower c) (str_lower s')
  end.

(** ** The patterns of the module *)

(** [r"\s*License\s*"] *)
Definition re_license_word : regex :=
  Seq (StarCls is_space) (lits "License" (StarCls is_space)).

(** The value of the flag [re.IGNORECASE]. *)
Definition re_IGNORECASE : nat := 2.

(** [r"github.com"] *)
Definition re_github_com : regex :=
  lits "github" (Seq (Cls (fun c => negb (Ascii.eqb c newline))) (lits "co" (Lit "m"))).

(** [r"/$"] *)
Definition re_trailing_slash : regex := Seq (Lit "/") Eos.

(** [r"(\bcopyright\b|\blicense[s]*\b|\bcopying\b|\bcopyleft\b)"], compiled
    with [re.IGNORECASE]. *)
Definition re_search : regex :=
  Alt (Seq Bnd (lits "copyright" Bnd))
   (Alt (Seq Bnd (lits "license" (Seq (StarCls (chr_eq true "s")) Bnd)))
    (Alt (Seq Bnd (lits "copying" Bnd))
         (Seq Bnd (lits "copyleft" Bnd)))).

(** [re_search.match(one_file)] as a truth value. *)
Definition is_license_filename (one_file : string) : bool :=
  re_match true re_search one_file.

(** The first two statements of [match_license]: [re.IGNORECASE] is the
    fourth positional argument of [re.sub], which is [count]. *)
Definition clean_license_name (name : string) : string :=
  let name := strip name in
  re_sub false re_license_word "" re_IGNORECASE name.

(** ** [functools.lru_cache(maxsize=13)] *)

Definition maxsize : nat := 13.

Section Cache.
Context {V : Type}.

Fixpoint cache_get (k : Key) (c : list (Key * V)) : option V :=
  match c with
  | [] => None
  | (k', v) :: c' => if key_eqb k k' then Some v else cache_get k c'
  end.

Fixpoint cache_remove (k : Key) (c : list (Key * V)) : list (Key * V) :=
  match c with
  | [] => []
  | (k', v) :: c' =>
      if key_eqb k k' then c' else (k', v) :: cache_remove k c'
  end.

(** A hit moves the entry to the front. *)
Definition cache_touch (k : Key) (v : V) (c : list (Key * V))
  : list (Key * V) :=
  (k, v) :: cache_remove k c.

(** A miss stores the new result; a full cache first drops its least
    recently used entry, the last one. *)
Definition cache_store (k : Key) (v : V) (c : list (Key * V))
  : list (Key * V) :=
  match cache_get k c with
  | Some _ => c
  | None =>
      if (maxsize <=? List.length c)%nat then (k, v) :: removelast c
      else (k, v) :: c
  end.
End Cache.

(** The wrapper [lru_cache] builds around [f]: a raise stores nothing. *)
Definition lru_cache (f : Key -> M (option ShortLicense)) (k : Key)
  : M (option ShortLicense) :=
  fun w =>
    match cache_get k (cache w) with
    | Some v => (Return v, set_cache w (cache_touch k v (cache w)))
    | None =>
        match f k w with
        | (Return v, w') => (Return v, set_cache w' (cache_store k v (cache w')))
        | (Raise e, w') => (Raise e, w')
        end
    end.

(** ** The functions of [discovery.py] *)

Section Discovery.
Local Open Scope py_scope.

(** What the module finds around it: the working directory and the
    directory of temporary files; the scorer [token_sort_ratio]; the corpus
    [get_all_licenses()] of pairs (identifier, text); the two calls of
    [OpenSourceAPI], [get] failing with [ValueError] where it is [None];
    the answer of the network to the n-th request of the process;
    [base64.b64decode(s).decode("utf-8")]; and what [git clone] leaves in
    its destination, the last word of the command. *)
Variable cwd : string.
Variable tempdir : string.
Variable scorer : string -> string -> nat.
Variable all_licenses : list (string * string).
Variable os_api_get : string -> option License.
Variable os_api_all : list License.
Variable network : nat -> string -> result Response.
Variable b64decode_utf8 : string -> result string.
Variable git : list string -> result (list (string * node)).

(** *** Effects *)

Definition resolve (w : World) (p : string) : option node :=
  if String.eqb p "" then None else lookup_path (path_list cwd p) (root w).

(** [open(p, "r").read()] *)
Definition read_text (p : string) : M string :=
  fun w =>
    match resolve w p with
    | Some (File content) => (Return content, w)
    | Some (Dir _) => (Raise IsADirectoryError, w)
    | None => (Raise FileNotFoundError, w)
    end.

(** [open(p, "w")] followed by [write(content)] *)
Definition write_text (p content : string) : M unit :=
  fun w =>
    let comps := path_list cwd p in
    if String.eqb p "" then (Raise FileNotFoundError, w)
    else
      match lookup_path (removelast comps) (root w) with
      | Some (Dir _) =>
          match comps, lookup_path comps (root w) with
          | [], _ | _, Some (Dir _) => (Raise IsADirectoryError, w)
          | _, _ =>
              (Return tt, set_root w (set_node comps (File content) (root w)))
          end
      | Some (File _) => (Raise NotADirectoryError, w)
      | None => (Raise FileNotFoundError, w)
      end.

(** [tempfile.mkdtemp(prefix=prefix)] *)
Definition mkdtemp (prefix : string) : M string :=
  fun w =>
    match resolve w tempdir with
    | Some (Dir entries) =>
        let file :=
          os_path_join tempdir (fresh_name prefix (map fst entries)) in
        (Return file,
         set_root w (set_node (path_list cwd file) (Dir []) (root w)))
    | Some (File _) => (Raise NotADirectoryError, w)
    | None => (Raise FileNotFoundError, w)
    end.

(** [os.walk(top)]: nothing when [top] is not a directory. *)
Definition os_walk (w : World) (top : string)
  : list (string * list string * list string) :=
  match resolve w top with
  | Some (Dir entries) => walk top (Dir entries)
  | _ => []
  end.

(** [requests.get(url=url)] *)
Definition requests_get (url : string) : M Response :=
  fun w =>
    (network (List.length (requests w)) url,
     mkWorld (root w) (requests w ++ [url])%list (cache w)).

(** [subprocess.check_output(cmd)] for a [git clone] command. *)
Definition check_output (cmd : list string) : M unit :=
  fun w =>
    match git cmd with
    | Return tree =>
        (Return tt,
         set_root w (set_node (path_list cwd (List.last cmd ""))
                              (Dir tree) (root w)))
    | Raise e => (Raise e, w)
    end.

(** *** Names *)

Definition _get_all_names_from_api (api_license : License) : list string :=
  let result := [] in
  let result :=
    if truthy (license_name api_license)
    then (result ++ [match license_name api_license with
                     | Some n => n | None => "" end])%list
    else result in
  let result :=
    if truthy (license_id api_license)
    then (result ++ [match license_id api_license with
                     | Some n => n | None => "" end])%list
    else result in
  (result ++ other_names api_license)%list.

Definition _get_all_license_choice : list string :=
  flat_map _get_all_names_from_api os_api_all.

Definition _get_license (name : string) : option License :=
  match os_api_get name with
  | Some l => Some l
  | None =>
      find (fun api_license =>
              existsb (String.eqb name) (_get_all_names_from_api api_license))
           os_api_all
  end.

(** A [None] result of [_get_license] is returned as it is, hence the
    option. *)
Definition match_license (name : string) : result (option License) :=
  let name := clean_license_name name in
  match os_api_get name with
  | Some l => Return (Some l)
  | None =>
      match extractOne scorer name _get_all_license_choice with
      | Some (choice, _) => Return (_get_license choice)
      | None => Raise TypeError
      end
  end.

Definition get_short_license_id (name : string) : result (option string) :=
  match match_license name with
  | Raise e => Raise e
  | Return None => Raise AttributeError
  | Return (Some obj_license) =>
      match find (fun identifier =>
                    String.eqb (str_lower (fst identifier)) "spdx")
                 (identifiers obj_license) with
      | Some identifier => Return (Some (snd identifier))
      | None => Return (license_id obj_license)
      end
  end.

(** *** Classification of a text *)

Definition get_license_type (path_license : string)
           (default : option string) : M (option string) :=
  license_content <- read_text path_license ;;
  let licenses_text := map snd all_licenses in
  let best_match := extractOne scorer license_content licenses_text in
  low <- lift (if truthy default then
                 match best_match with
                 | Some (_, score) => Return (score <? 76)%nat
                 | None => Raise TypeError
                 end
               else Return false) ;;
  if low : bool then ret default
  else
    match best_match with
    | None => raise TypeError
    | Some (text, _) =>
        index_license <- lift (index text licenses_text) ;;
        match nth_error all_licenses index_license with
        | Some entry => ret (Some (fst entry))
        | None => raise IndexError
        end
    end.

(** *** The folder *)

Fixpoint first_license_file
         (walked : list (string * list string * list string))
  : option (string * string) :=
  match walked with
  | [] => None
  | (folder_path, _, files) :: rest =>
      match find is_license_filename files with
      | Some one_file => Some (folder_path, one_file)
      | None => first_license_file rest
      end
  end.

Definition search_license_folder (p : string) (default : option string)
  : M (option ShortLicense) :=
  fun w =>
    match first_license_file (os_walk w p) with
    | Some (folder_path, one_file) =>
        let lc_path := os_path_join folder_path one_file in
        (license_type <- get_license_type lc_path default ;;
         ret (Some (mkShortLicense (of_opt_str license_type) lc_path false)))
          w
    | None => (Return None, w)
    end.

(** *** The API of the host *)

Definition _get_api_github_url (github_url : string)
           (version : option string) : result string :=
  let github_url :=
    re_sub false re_github_com "api.github.com/repos" 0 github_url in
  match last_char github_url with
  | None => Raise IndexError
  | Some c =>
      let github_url :=
        if negb (Ascii.eqb c "/") then github_url ++ "/" else github_url in
      let github_url := github_url ++ "license" in
      Return (match version with
              | Some (String _ _ as v) => github_url ++ "?ref=" ++ v
              | _ => github_url
              end)
  end.

(** [d[key]] *)
Definition getitem (d : json) (key : string) : result json :=
  match d with
  | JObj fields =>
      match assoc key fields with
      | Some v => Return v
      | None => Raise KeyError
      end
  | _ => Raise TypeError
  end.

(** [d.get(key, default)]: only a [dict] has the method. *)
Definition dict_get (d : json) (key : string) (default : json)
  : result json :=
  match d with
  | JObj fields =>
      match assoc key fields with
      | Some v => Return v
      | None => Return default
      end
  | _ => Raise AttributeError
  end.

(** [base64.b64decode(v).decode("utf-8")] *)
Definition decode_content (v : json) : result string :=
  match v with
  | JStr s => b64decode_utf8 s
  | _ => Raise TypeError
  end.

(** The function under the decorator. *)
Definition search_license_api_github_wrapped (k : Key)
  : M (option ShortLicense) :=
  let '(github_url, version, default) := k in
  github_url <- lift (_get_api_github_url github_url version) ;;
  response <- requests_get github_url ;;
  if negb (Z.eqb (status_code response) 200) then ret None
  else
    json_content <- lift (json_body response) ;;
    content <- lift (getitem json_content "content") ;;
    license_content <- lift (decode_content content) ;;
    tmp <- mkdtemp "github-license-" ;;
    let file_path := os_path_join tmp "LICENSE" in
    write_text file_path license_content ;;;
    license <- lift (dict_get json_content "license" (JObj [])) ;;
    spdx_id <- lift (dict_get license "spdx_id" (of_opt_str default)) ;;
    ret (Some (mkShortLicense spdx_id file_path false)).

Definition search_license_api_github (github_url : string)
           (version default : option string) : M (option ShortLicense) :=
  lru_cache search_license_api_github_wrapped (github_url, version, default).

(** *** The clone *)

Definition _get_git_cmd (git_url : string) (version : option string)
           (dest : string) : list string :=
  let git_cmd := ["git"; "clone"] in
  let git_cmd :=
    match version with
    | Some (String _ _ as v) => (git_cmd ++ ["-b"; v])%list
    | _ => git_cmd
    end in
  (git_cmd ++ [git_url; dest])%list.

(** The URL handed to [git clone]. *)
Definition clone_url (git_url : string) : string :=
  let git_url := re_sub false re_trailing_slash ".git" 0 git_url in
  if endswith git_url ".git" then git_url else git_url ++ ".git".

Definition search_license_repo (git_url : string) (version : option string)
           (default : option string) : M (option ShortLicense) :=
  let git_url := clone_url git_url in
  tmp_dir <- mkdtemp "gs-clone-repo-" ;;
  fun w =>
    match check_output (_get_git_cmd git_url version tmp_dir) w with
    | (Raise err, w') =>
        if is_Exception err then (Return None, w') else (Raise err, w')
    | (Return _, w') => search_license_folder tmp_dir default w'
    end.

(** *** The entry point *)

(** The rewriting of the path of a license found in the folder. *)
Definition packaged_path (p folder_path : string) : result string :=
  match relpath cwd p folder_path with
  | Raise e => Raise e
  | Return p =>
      let p := replace_char backslash "/" p in
      let splited := split slash p in
      Return (if (1 <? List.length splited)%nat then join "/" (tl splited)
              else p)
  end.

Definition search_license_file (folder_path : string)
           (git_url version license_name_metadata : option string)
  : M (option ShortLicense) :=
  license_name_metadata <-
    lift (match license_name_metadata with
          | Some (String _ _ as n) => get_short_license_id n
          | _ => Return license_name_metadata
          end) ;;
  license_sdist <- search_license_folder folder_path license_name_metadata ;;
  match license_sdist with
  | Some license_sdist =>
      p <- lift (packaged_path (path license_sdist) folder_path) ;;
      ret (Some (mkShortLicense (name license_sdist) p true))
  | None =>
      match git_url with
      | Some (String _ _ as git_url) =>
          github_license <-
            search_license_api_github git_url version license_name_metadata ;;
          match github_license with
          | Some l => ret (Some l)
          | None =>
              repo_license <-
                search_license_repo git_url version license_name_metadata ;;
              match repo_license with
              | Some l => ret (Some l)
              | None => ret None
              end
          end
      | _ => ret None
      end
  end.
End Discovery.

(** ** Auxiliary notions for the statements *)

(** What [lits w] consumes: the rest of the subject and the character before
    it, when [s] starts with [w]. *)
Fixpoint eat (ic : bool) (w : string) (prev : option ascii) (s : string)
  : option (option ascii * string) :=
  match w with
  | EmptyString => Some (prev, s)
  | String c w' =>
      match s with
      | String x s' => if chr_eq ic c x then eat ic w' (Some x) s' else None
      | EmptyString => None
      end
  end.

Fixpoint str_all (p : ascii -> bool) (s : string) : bool :=
  match s with
  | EmptyString => true
  | String c s' => p c && str_all p s'
  end.

Definition last_or (s : string) (prev : option ascii) : option ascii :=
  match last_char s with Some c => Some c | None => prev end.

(** The words the file name pattern looks for, in lower case: [license] may
    be followed by any number of [s]. *)
Definition is_keyword (k : string) : Prop :=
  k = "copyright" \/ (exists n, k = "license" ++ repeat_char "s" n)
  \/ k = "copying" \/ k = "copyleft".

(** [f] starts with a keyword, in any case, that ends where [f] ends or
    where a character that is not a word character follows. *)
Definition starts_with_keyword (f : string) : Prop :=
  exists w rest,
    f = w ++ rest /\ is_keyword (str_lower w)
    /\ is_word_opt (head rest) = false.

(** What [re.sub(r"/$", ".git", s)] returns: the slash that ends [s], or
    that stands before the line feed ending [s], becomes [.git]. *)
Fixpoint trailing_slash_to_git (s : string) : string :=
  match s with
  | EmptyString => EmptyString
  | String c s' =>
      if Ascii.eqb c "/" && at_end s' then ".git" ++ s'
      else String c (trailing_slash_to_git s')
  end.

Definition line_feed : string := String newline EmptyString.

(** ** Names and paths *)

Definition no_slash (s : string) : bool :=
  str_all (fun c => negb (Ascii.eqb c slash)) s.

(** A name that an entry of a directory can bear. *)
Definition plain_name (n : string) : bool :=
  negb (String.eqb n "") && negb (String.eqb n ".")
  && negb (String.eqb n "..") && no_slash n.

(** A component of a normal path. *)
Definition is_comp (s : string) : bool :=
  negb (String.eqb s "") && no_slash s.

(** The path [abspath] normalises. *)
Definition full_path (cwd p : string) : string :=
  if startswith p "/" then p else os_path_join cwd p.

(** The components of the normal form of an absolute path. *)
Definition ncomps (p : string) : list string :=
  norm_comps true [] (split slash p).

(** The default that [search_license_file] hands to the classification:
    the identifier that the declared name resolves to, when a name is
    declared. *)
Definition declared_default (scorer : string -> string -> nat)
           (os_api_get : string -> option License) (os_api_all : list License)
           (license_name_metadata : option string) : result (option string) :=
  match license_name_metadata with
  | Some (String _ _ as n) =>
      get_short_license_id scorer os_api_get os_api_all n
  | _ => Return license_name_metadata
  end.

(** ** Notions for the walk *)

(** The entries of a directory bear plain names, at every depth. *)
Fixpoint wf_node (n : node) : bool :=
  match n with
  | File _ => true
  | Dir entries =>
      forallb (fun e => plain_name (fst e) && wf_node (snd e)) entries
  end.

(** Induction on a tree with the property at hand for every entry. *)
Fixpoint node_tree_ind (P : node -> Prop)
         (HFile : forall content, P (File content))
         (HDir : forall entries,
             Forall (fun e => P (snd e)) entries -> P (Dir entries))
         (n : node) : P n :=
  match n with
  | File content => HFile content
  | Dir entries =>
      HDir entries
           ((fix go (l : list (string * node))
               : Forall (fun e => P (snd e)) l :=
               match l with
               | [] => Forall_nil _
               | e :: l' =>
                   Forall_cons e (node_tree_ind P HFile HDir (snd e)) (go l')
               end) entries)
  end.

(** What is left of the segments of a path when the first goes, unless it
    is the only one. *)
Definition drop_root (segments : list string) : list string :=
  if (1 <? List.length segments)%nat then tl segments else segments.

(** The path [search_license_file] reports for the file with the names
    [names] below the folder: a backslash separates like a slash. *)
Definition packaged_location (names : list string) : string :=
  join "/" (drop_root (flat_map (split backslash) names)).

(** ** Notions for the cache *)

Section CacheNotions.
Context {V : Type}.

(** The keys used more recently than [k]. *)
Fixpoint before (k : Key) (c : list (Key * V)) : list Key :=
  match c with
  | [] => []
  | (k', _) :: c' => if key_eqb k k' then [] else k' :: before k c'
  end.

(** A cache that [lru_cache] has built: no key twice, at most [maxsize]
    entries. *)
Definition cache_wf (c : list (Key * V)) : Prop :=
  NoDup (map fst c) /\ List.length c <= maxsize.

(** [k] is cached with [v], and every key used more recently is one of
    [others]. *)
Definition cached_behind (k : Key) (v : V) (others : list Key)
           (c : list (Key * V)) : Prop :=
  cache_get k c = Some v /\ cache_wf c /\ incl (before k c) others.
End CacheNotions.

(** The world after a sequence of calls of a function wrapped by
    [lru_cache], whatever they return. *)
Definition run_calls (f : Key -> M (option ShortLicense)) (ks : list Key)
           (w : World) : World :=
  fold_left (fun w k => snd (lru_cache f k w)) ks w.


(** ** A small world for the examples *)

Module Demo.
Definition cwd : string := "/home/user".
Definition tempdir : string := "/tmp".

Definition mit_text : string :=
  "Permission is hereby granted, free of charge, to any person".
Definition apache_text : string :=
  "Licensed under the Apache License, Version 2.0".

Definition corpus : list (string * string) :=
  [("Apache-2.0", apache_text); ("MIT", mit_text)].

(** A stand-in for [token_sort_ratio]: equal strings score 100, others 0. *)
Definition scorer (query choice : string) : nat :=
  if String.eqb query choice then 100 else 0.

Definition mit_license : License :=
  mkLicense (Some "MIT") (Some "MIT License") ["Expat"]
            [("DEP5", "Expat"); ("SPDX", "MIT")].

Definition os_api_all : list License := [mit_license].

Definition os_api_get (name : string) : option License :=
  if String.eqb name "MIT" then Some mit_license else None.

(** A host that answers every request with 404. *)
Definition not_found (n : nat) (url : string) : result Response :=
  Return (mkResponse 404 (Raise JSONDecodeError)).

(** A host that knows the license of every repository; the document has
    no [spdx_id]. *)
Definition found (n : nat) (url : string) : result Response :=
  Return (mkResponse 200
            (Return (JObj [("content", JStr "TUlU");
                           ("license", JObj [("key", JStr "mit")])]))).

Definition b64decode_utf8 (s : string) : result string :=
  if String.eqb s "TUlU" then Return "MIT" else Raise BinasciiError.

(** [git] fails with exit status 128. *)
Definition git_fails (cmd : list string)
  : result (list (string * node)) :=
  Raise (CalledProcessError 128).

(** [/home/user/project] holds the file [LICENSE.txt] only. *)
Definition tree : node :=
  Dir [("tmp", Dir []);
       ("home",
        Dir [("user",
              Dir [("project", Dir [("LICENSE.txt", File mit_text)]);
                   ("sdist",
                    Dir [("pkg-1.0",
                          Dir [("docs", Dir [("index.rst", File "")]);
                               ("COPYING", File apache_text)])])])])].

Definition world : World := mkWorld tree [] [].

(** [search_license_api_github] before a host that answers 404. *)
Definition api (github_url : string) (version default : option string)
  : M (option ShortLicense) :=
  search_license_api_github cwd tempdir not_found b64decode_utf8
                            github_url version default.

Definition repo : string := "https://github.com/org/repo".
Definition repo_api : string := "https://api.github.com/repos/org/repo/license".

(** Thirteen other repositories. *)
Definition other_keys : list Key :=
  map (fun n => ("https://github.com/org/" ++ n, None, Some "MIT"))
      ["a"; "b"; "c"; "d"; "e"; "f"; "g"; "h"; "i"; "j"; "k"; "l"; "m"].

Definition other_calls : World -> World :=
  run_calls (search_license_api_github_wrapped
               cwd tempdir not_found b64decode_utf8) other_keys.
End Demo.

(** The name [search_license_api_github] reports for a document with
    the given fields: the default stands in where the key [license] is
    absent and where its object has no [spdx_id]. *)
Definition reported_name (fields : list (string * json))
           (default : option string) : result json :=
  match assoc "license" fields with
  | None => Return (of_opt_str default)
  | Some (JObj license) =>
      match assoc "spdx_id" license with
      | Some spdx_id => Return spdx_id
      | None => Return (of_opt_str default)
      end
  | Some _ => Raise AttributeError
  end.

(** ** Notions for the further properties *)

(** [w in s] for strings: [w] occurs in [s]. *)
Fixpoint occurs (w s : string) : bool :=
  startswith s w
  || match s with
     | String _ s' => occurs w s'
     | EmptyString => false
     end.

(** No cached result is marked as packaged. *)
Definition cache_unpackaged (c : list (Key * option ShortLicense)) : Prop :=
  Forall (fun e => match snd e with
                   | Some l => is_packaged l = false
                   | None => True
                   end) c.


(** A list of licenses in which two share the name [BSD]; the exact lookup
    knows the identifiers only. *)
Module Registry.
Definition bsd2 : License :=
  mkLicense (Some "BSD-2-Clause") (Some "BSD 2-Clause License") ["BSD"]
            [("SPDX", "BSD-2-Clause")].

Definition bsd3 : License :=
  mkLicense (Some "BSD-3-Clause") (Some "BSD 3-Clause License")
            ["BSD"; "New BSD"] [("spdx", "BSD-3-Clause")].

Definition os_api_all : list License := [Demo.mit_license; bsd2; bsd3].

Definition os_api_get (name : string) : option License :=
  find (fun l => opt_eqb (license_id l) (Some name)) os_api_all.
End Registry.


(** The text of the license in an answer of the host: the steps of
    [search_license_api_github] between the test of the status and the
    making of the temporary directory. *)
Definition license_text (b64decode_utf8 : string -> result string)
           (response : Response) : result string :=
  match json_body response with
  | Raise e => Raise e
  | Return json_content =>
      match getitem json_content "content" with
      | Raise e => Raise e
      | Return content => decode_content b64decode_utf8 content
      end
  end.


(** Every call of the sequence returns. *)
Fixpoint all_return (f : Key -> M (option ShortLicense)) (ks : list Key)
         (w : World) : bool :=
  match ks with
  | [] => true
  | k :: ks' =>
      match lru_cache f k w with
      | (Return _, w') => all_return f ks' w'
      | (Raise _, _) => false
      end
  end.


(** * Properties *)

(** ** Strings *)

Lemma str_app_assoc (a b c : string) : (a ++ b) ++ c = a ++ (b ++ c).
Proof.
  induction a as [|x a IH]; simpl; [reflexivity | now rewrite IH].
Qed.

Lemma str_app_nil_r (a : string) : a ++ "" = a.
Proof.
  induction a as [|x a IH]; simpl; [reflexivity | now rewrite IH].
Qed.

Lemma str_length_app (a b : string) :
  String.length (a ++ b) = String.length a + String.length b.
Proof.
  induction a as [|x a IH]; simpl; [reflexivity | now rewrite IH].
Qed.

(** ** The matcher *)

Lemma exec_lits {R : Type} (ic : bool) (w : string) (r : regex) :
  forall prev s (k : @cont R),
    exec ic (lits w r) prev s k =
    match eat ic w prev s with
    | Some (p, rest) => exec ic r p rest k
    | None => None
    end.
Proof.
  induction w as [|c w IH]; intros prev s k; simpl.
  - reflexivity.
  - destruct s as [|x s]; [reflexivity|].
    destruct (chr_eq ic c x); [apply IH | reflexivity].
Qed.

Lemma last_char_cons (s : string) :
  forall x, exists c, last_char (String x s) = Some c.
Proof.
  induction s as [|y s IH]; intro x.
  - exists x. reflexivity.
  - destruct (IH y) as [c E]. exists c. rewrite <- E. reflexivity.
Qed.

Lemma last_or_cons (x : ascii) (s : string) (prev : option ascii) :
  last_or (String x s) prev = last_or s (Some x).
Proof.
  unfold last_or. destruct s as [|y s]; [reflexivity|].
  change (last_char (String x (String y s))) with (last_char (String y s)).
  destruct (last_char_cons s y) as [c ->]. reflexivity.
Qed.

Lemma eat_true_inv (w : string) :
  forall prev s p rest,
    eat true w prev s = Some (p, rest) ->
    exists w', s = w' ++ rest /\ str_lower w' = str_lower w
               /\ p = last_or w' prev.
Proof.
  induction w as [|c w IH]; intros prev s p rest H; simpl in H.
  - injection H as <- <-. exists EmptyString. repeat split.
  - destruct s as [|x s]; [discriminate|].
    unfold chr_eq in H.
    destruct (Ascii.eqb (lower c) (lower x)) eqn:E; [|discriminate].
    apply Ascii.eqb_eq in E.
    destruct (IH _ _ _ _ H) as (w' & -> & Hl & ->).
    exists (String x w'). simpl. rewrite Hl, E, last_or_cons. repeat split.
Qed.

Lemma eat_true_intro (w : string) :
  forall w' prev rest,
    str_lower w' = str_lower w ->
    eat true w prev (w' ++ rest) = Some (last_or w' prev, rest).
Proof.
  induction w as [|c w IH]; intros w' prev rest H.
  - destruct w'; [reflexivity | discriminate].
  - destruct w' as [|x w']; [discriminate|].
    simpl in H. injection H as Hc Hw.
    simpl. unfold chr_eq. rewrite Hc, Ascii.eqb_refl.
    rewrite last_or_cons. apply IH, Hw.
Qed.

Lemma star_cls_inv {R : Type} (p : ascii -> bool) :
  forall s prev (k : @cont R) v,
    star_cls p prev s k = Some v ->
    exists a b, s = a ++ b /\ str_all p a = true
                /\ k (last_or a prev) b = Some v.
Proof.
  induction s as [|c s IH]; intros prev k v H; simpl in H.
  - exists EmptyString, EmptyString. auto.
  - destruct (p c) eqn:Hp.
    + destruct (star_cls p (Some c) s k) eqn:E.
      * injection H as <-.
        destruct (IH _ _ _ E) as (a & b & -> & Ha & Hk).
        exists (String c a), b. simpl. rewrite Hp, Ha, last_or_cons. auto.
      * exists EmptyString, (String c s). auto.
    + exists EmptyString, (String c s). auto.
Qed.

Lemma star_cls_intro {R : Type} (p : ascii -> bool) :
  forall a b prev (k : @cont R) v,
    str_all p a = true ->
    k (last_or a prev) b = Some v ->
    exists v', star_cls p prev (a ++ b) k = Some v'.
Proof.
  induction a as [|c a IH]; intros b prev k v Ha Hk.
  - simpl. unfold last_or in Hk. simpl in Hk.
    destruct b as [|x b]; simpl.
    + eauto.
    + destruct (p x); [|eauto].
      destruct (star_cls p (Some x) b k); eauto.
  - simpl in Ha. apply andb_prop in Ha as [Hc Ha].
    rewrite last_or_cons in Hk.
    destruct (IH b (Some c) k v Ha Hk) as [v' E].
    simpl. rewrite Hc, E. eauto.
Qed.

(** ** Characters and words *)

Lemma is_word_lower (c : ascii) : is_word (lower c) = is_word c.
Proof.
  destruct c as [[] [] [] [] [] [] [] []]; reflexivity.
Qed.

Lemma str_lower_app (a b : string) :
  str_lower (a ++ b) = str_lower a ++ str_lower b.
Proof.
  induction a as [|c a IH]; simpl; [reflexivity | now rewrite IH].
Qed.

Lemma str_all_lower_word (s : string) :
  str_all is_word (str_lower s) = str_all is_word s.
Proof.
  induction s as [|c s IH]; simpl; [reflexivity|].
  now rewrite is_word_lower, IH.
Qed.

Lemma str_all_app (p : ascii -> bool) (a b : string) :
  str_all p (a ++ b) = str_all p a && str_all p b.
Proof.
  induction a as [|c a IH]; simpl; [reflexivity|].
  now rewrite IH, andb_assoc.
Qed.

Lemma str_all_head (p : ascii -> bool) (s : string) :
  str_all p s = true -> s <> "" ->
  exists c, head s = Some c /\ p c = true.
Proof.
  destruct s as [|c s]; simpl; intros H Hne; [congruence|].
  apply andb_prop in H as [H _]. eauto.
Qed.

Lemma str_all_last (p : ascii -> bool) (s : string) :
  str_all p s = true -> s <> "" ->
  exists c, last_char s = Some c /\ p c = true.
Proof.
  induction s as [|c s IH]; intros H Hne; [congruence|].
  simpl in H. apply andb_prop in H as [Hc Hs].
  destruct s as [|y s].
  - exists c. auto.
  - destruct IH as (z & Hz & Hp); [assumption | discriminate |].
    exists z. split; [exact Hz | exact Hp].
Qed.

Lemma str_all_s_lower (a : string) :
  str_all (chr_eq true "s") a = true ->
  str_lower a = repeat_char "s" (String.length a).
Proof.
  induction a as [|c a IH];
    cbn [str_all str_lower String.length repeat_char]; intro H;
    [reflexivity|].
  apply andb_prop in H as [Hc Ha]. rewrite (IH Ha).
  unfold chr_eq in Hc. apply Ascii.eqb_eq in Hc.
  change (lower "s") with "s"%char in Hc. now rewrite <- Hc.
Qed.

Lemma repeat_s_lower (n : nat) :
  forall a, str_lower a = repeat_char "s" n ->
            str_all (chr_eq true "s") a = true.
Proof.
  induction n as [|n IH]; intros [|c a] H;
    cbn [str_all str_lower repeat_char] in *; try discriminate.
  - reflexivity.
  - injection H as Hc Ha. rewrite (IH _ Ha), andb_true_r.
    unfold chr_eq. rewrite Hc. reflexivity.
Qed.

Lemma repeat_s_word (n : nat) : str_all is_word (repeat_char "s" n) = true.
Proof.
  induction n as [|n IH]; simpl; [reflexivity | now rewrite IH].
Qed.

Lemma keyword_word (k : string) :
  is_keyword k -> str_all is_word k = true /\ k <> "".
Proof.
  intros [-> | [[n ->] | [-> | ->]]]; try (split; [reflexivity | discriminate]).
  split; [|discriminate].
  rewrite str_all_app, repeat_s_word. reflexivity.
Qed.

Lemma last_or_app (a b : string) (prev : option ascii) :
  last_or b (last_or a prev) = last_or (a ++ b) prev.
Proof.
  revert prev. induction a as [|c a IH]; intro prev.
  - reflexivity.
  - simpl. rewrite !last_or_cons. apply IH.
Qed.

Lemma str_lower_empty (s : string) : str_lower s = "" -> s = "".
Proof.
  destruct s; [reflexivity | discriminate].
Qed.

(** The first and the last character of a word that is a keyword up to case
    are word characters. *)
Lemma keyword_ends (w : string) :
  is_keyword (str_lower w) ->
  is_word_opt (head w) = true /\ is_word_opt (last_or w None) = true.
Proof.
  intro K. apply keyword_word in K as [Hall Hne].
  rewrite str_all_lower_word in Hall.
  assert (Hw : w <> "") by (intros ->; apply Hne; reflexivity).
  destruct (str_all_head _ _ Hall Hw) as (c & -> & Hc).
  destruct (str_all_last _ _ Hall Hw) as (z & Hz & Hp).
  unfold last_or. rewrite Hz. simpl. auto.
Qed.

Lemma exec_word {R : Type} (w : string) (tail : regex) (f : string)
      (k : @cont R) :
  exec true (Seq Bnd (lits w tail)) None f k =
  if is_word_opt (head f) then
    match eat true w None f with
    | Some (p, rest) => exec true tail p rest k
    | None => None
    end
  else None.
Proof.
  cbn [exec]. rewrite exec_lits.
  destruct (is_word_opt (head f)); reflexivity.
Qed.

Lemma head_app (w rest : string) : w <> "" -> head (w ++ rest) = head w.
Proof.
  destruct w; [congruence | reflexivity].
Qed.

(** A keyword at the start of the name makes its alternative match. *)
Lemma exec_word_intro {R : Type} (kw : string) (tail : regex)
      (w rest : string) (k : @cont R) :
  str_lower w = str_lower kw -> is_word_opt (head w) = true -> w <> "" ->
  exec true (Seq Bnd (lits kw tail)) None (w ++ rest) k =
  exec true tail (last_or w None) rest k.
Proof.
  intros Hl Hh Hne. rewrite exec_word, head_app, Hh by assumption.
  now rewrite (eat_true_intro kw w None rest Hl).
Qed.

Lemma exec_alt {R : Type} (ic : bool) (r1 r2 : regex) (prev : option ascii)
      (s : string) (k : @cont R) :
  exec ic (Alt r1 r2) prev s k =
  match exec ic r1 prev s k with
  | Some v => Some v
  | None => exec ic r2 prev s k
  end.
Proof. reflexivity. Qed.

Lemma xorb_true_l_false (b : bool) : xorb true b = true -> b = false.
Proof. destruct b; [discriminate | reflexivity]. Qed.

Lemma alt_plain_sound (kw f : string) (v : option ascii * string) :
  is_keyword (str_lower kw) ->
  exec true (Seq Bnd (lits kw Bnd)) None f (fun p rest => Some (p, rest))
  = Some v ->
  starts_with_keyword f.
Proof.
  intros K. rewrite exec_word.
  destruct (is_word_opt (head f)); [|discriminate].
  destruct (eat true kw None f) as [[p rest]|] eqn:E; [|discriminate].
  cbn [exec].
  destruct (xorb (is_word_opt p) (is_word_opt (head rest))) eqn:X;
    [|discriminate].
  intros _. destruct (eat_true_inv _ _ _ _ _ E) as (w' & -> & Hl & ->).
  rewrite <- Hl in K. destruct (keyword_ends _ K) as [_ Hlast].
  rewrite Hlast in X. exists w', rest.
  repeat split; [assumption | now apply xorb_true_l_false].
Qed.

Lemma alt_license_sound (f : string) (v : option ascii * string) :
  exec true (Seq Bnd (lits "license" (Seq (StarCls (chr_eq true "s")) Bnd)))
       None f (fun p rest => Some (p, rest)) = Some v ->
  starts_with_keyword f.
Proof.
  rewrite exec_word.
  destruct (is_word_opt (head f)); [|discriminate].
  destruct (eat true "license" None f) as [[p rest]|] eqn:E; [|discriminate].
  cbn [exec]. intro H.
  apply star_cls_inv in H as (a & b & -> & Ha & Hk).
  destruct (xorb (is_word_opt (last_or a p)) (is_word_opt (head b))) eqn:X;
    [|discriminate].
  destruct (eat_true_inv _ _ _ _ _ E) as (w' & -> & Hl & ->).
  assert (K : is_keyword (str_lower (w' ++ a))).
  { right; left. exists (String.length a).
    now rewrite str_lower_app, Hl, (str_all_s_lower a Ha). }
  destruct (keyword_ends _ K) as [_ Hlast].
  rewrite last_or_app, Hlast in X.
  exists (w' ++ a), b. rewrite str_app_assoc.
  repeat split; [assumption | now apply xorb_true_l_false].
Qed.

Lemma is_license_filename_sound (f : string) :
  is_license_filename f = true -> starts_with_keyword f.
Proof.
  unfold is_license_filename, re_match, match_at, re_search.
  rewrite !exec_alt.
  destruct (exec true (Seq Bnd (lits "copyright" Bnd)) None f _) eqn:E1.
  { intros _. apply (alt_plain_sound "copyright" _ _) in E1; [exact E1|].
    left; reflexivity. }
  destruct (exec true (Seq Bnd (lits "license" _)) None f _) eqn:E2.
  { intros _. apply (alt_license_sound _ _ E2). }
  destruct (exec true (Seq Bnd (lits "copying" Bnd)) None f _) eqn:E3.
  { intros _. apply (alt_plain_sound "copying" _ _) in E3; [exact E3|].
    right; right; left; reflexivity. }
  destruct (exec true (Seq Bnd (lits "copyleft" Bnd)) None f _) eqn:E4;
    [|discriminate].
  intros _. apply (alt_plain_sound "copyleft" _ _) in E4; [exact E4|].
  right; right; right; reflexivity.
Qed.

Lemma str_lower_split (x : string) :
  forall w y, str_lower w = x ++ y ->
              exists w1 a, w = w1 ++ a /\ str_lower w1 = x /\ str_lower a = y.
Proof.
  induction x as [|c x IH]; intros w y H.
  - exists "", w. auto.
  - destruct w as [|d w]; [discriminate|].
    cbn [str_lower append] in H. injection H as Hd Hw.
    destruct (IH _ _ Hw) as (w1 & a & -> & H1 & Ha).
    exists (String d w1), a. cbn [str_lower append]. rewrite Hd, H1. auto.
Qed.

Lemma alt_plain_complete (kw w rest : string) :
  str_lower w = str_lower kw -> is_keyword (str_lower w) ->
  is_word_opt (head rest) = false ->
  exists v,
    exec true (Seq Bnd (lits kw Bnd)) None (w ++ rest)
         (fun p r => Some (p, r)) = Some v.
Proof.
  intros Hl K Hr. destruct (keyword_ends _ K) as [Hh Hlast].
  assert (Hne : w <> "").
  { intros ->. apply keyword_word in K as [_ K]. now apply K. }
  rewrite exec_word_intro by assumption.
  cbn [exec]. rewrite Hlast, Hr. simpl. eauto.
Qed.

Lemma alt_license_complete (w rest : string) (n : nat) :
  str_lower w = "license" ++ repeat_char "s" n ->
  is_word_opt (head rest) = false ->
  exists v,
    exec true (Seq Bnd (lits "license" (Seq (StarCls (chr_eq true "s")) Bnd)))
         None (w ++ rest) (fun p r => Some (p, r)) = Some v.
Proof.
  intros Hl Hr.
  assert (K : is_keyword (str_lower w)) by (right; left; eauto).
  destruct (keyword_ends _ K) as [Hh Hlast].
  destruct (str_lower_split _ _ _ Hl) as (w1 & a & -> & H1 & Ha).
  assert (Hne : w1 <> "") by (intros ->; discriminate).
  assert (Hh1 : is_word_opt (head w1) = true).
  { rewrite head_app in Hh by assumption. exact Hh. }
  rewrite str_app_assoc, exec_word_intro by assumption.
  cbn [exec].
  apply star_cls_intro with (v := (last_or (w1 ++ a) None, rest)).
  - apply (repeat_s_lower n), Ha.
  - cbn [exec]. rewrite last_or_app, Hlast, Hr. reflexivity.
Qed.

Lemma is_license_filename_complete (f : string) :
  starts_with_keyword f -> is_license_filename f = true.
Proof.
  intros (w & rest & -> & K & Hr).
  unfold is_license_filename, re_match, match_at, re_search.
  rewrite !exec_alt.
  destruct K as [K | [[n K] | [K | K]]].
  - destruct (alt_plain_complete "copyright" w rest) as [v ->]; auto.
    left; exact K.
  - destruct (alt_license_complete w rest n K Hr) as [v ->].
    destruct (exec true (Seq Bnd (lits "copyright" Bnd)) None _ _);
      reflexivity.
  - destruct (alt_plain_complete "copying" w rest) as [v ->]; auto.
    { right; right; left; exact K. }
    destruct (exec true (Seq Bnd (lits "copyright" Bnd)) None _ _);
      [reflexivity|].
    destruct (exec true (Seq Bnd (lits "license" _)) None _ _); reflexivity.
  - destruct (alt_plain_complete "copyleft" w rest) as [v ->]; auto.
    { right; right; right; exact K. }
    destruct (exec true (Seq Bnd (lits "copyright" Bnd)) None _ _);
      [reflexivity|].
    destruct (exec true (Seq Bnd (lits "license" _)) None _ _);
      [reflexivity|].
    destruct (exec true (Seq Bnd (lits "copying" Bnd)) None _ _); reflexivity.
Qed.

(** C4.  The file name test of [search_license_folder] is a whole-word match
    of a keyword at the start of the name, whatever the case of the letters:
    the eight names of the specification are classified as it says, and a
    name passes exactly when it starts with [copyright], [license] followed
    by any number of [s], [copying] or [copyleft], and the keyword is
    followed by the end of the name or by a character that is not a word
    character. *)
Theorem filename_test_whole_word_at_start :
  (is_license_filename "LICENSE" = true
   /\ is_license_filename "License.md" = true
   /\ is_license_filename "COPYING" = true
   /\ is_license_filename "copyright.txt" = true
   /\ is_license_filename "LICENSE.txt" = true
   /\ is_license_filename "LICENSE-MIT" = true
   /\ is_license_filename "publicity.txt" = false
   /\ is_license_filename "licensed-premises.txt" = false)
  /\ (forall f, is_license_filename f = true <-> starts_with_keyword f).
Proof.
  split.
  - repeat split; vm_compute; reflexivity.
  - intro f. split.
    + apply is_license_filename_sound.
    + apply is_license_filename_complete.
Qed.

(** ** The two URLs *)

Lemma at_end_cases (s : string) :
  at_end s = true -> s = "" \/ s = line_feed.
Proof.
  destruct s as [|c [|d s]]; simpl; intro H; try discriminate; auto.
  apply Ascii.eqb_eq in H. subst. now right.
Qed.

Lemma sub_trailing_slash (s : string) :
  forall fuel prev,
    String.length s < fuel ->
    sub_loop fuel false re_trailing_slash ".git" None prev s
    = trailing_slash_to_git s.
Proof.
  induction s as [|c s IH]; intros fuel prev Hf.
  - destruct fuel; [inversion Hf | reflexivity].
  - destruct fuel as [|fuel]; [inversion Hf|].
    cbn [String.length] in Hf. apply Nat.succ_lt_mono in Hf.
    cbn [sub_loop option_map]. unfold match_at, re_trailing_slash.
    cbn [exec trailing_slash_to_git]. unfold chr_eq.
    rewrite (Ascii.eqb_sym "/" c).
    destruct (Ascii.eqb c "/") eqn:Ec; cbn [andb].
    + destruct (at_end s) eqn:Ee.
      * assert (Hlt : (String.length s <? String.length (String c s))%nat = true)
          by (apply Nat.ltb_lt; simpl; lia).
        rewrite Hlt. f_equal.
        destruct (at_end_cases _ Ee) as [-> | ->].
        -- destruct fuel; [inversion Hf | reflexivity].
        -- destruct fuel as [|[|fuel]]; simpl in Hf; try lia. reflexivity.
      * f_equal. apply IH, Hf.
    + f_equal. apply IH, Hf.
Qed.

Lemma clone_url_unfold (url : string) :
  clone_url url =
  let u := trailing_slash_to_git url in
  if endswith u ".git" then u else u ++ ".git".
Proof.
  unfold clone_url, re_sub. rewrite sub_trailing_slash by lia. reflexivity.
Qed.

Lemma endswith_app (a b : string) : endswith (a ++ b) b = true.
Proof.
  induction a as [|c a IH].
  - destruct b; simpl; rewrite ?Ascii.eqb_refl, ?String.eqb_refl; reflexivity.
  - cbn [append endswith]. rewrite IH. apply orb_true_r.
Qed.

Lemma endswith_cons_false (c : ascii) (s suffix : string) :
  endswith (String c s) suffix = false -> endswith s suffix = false.
Proof.
  cbn [endswith]. intro H. apply orb_false_elim in H as [_ H]. exact H.
Qed.

Lemma eqb_length_false (a b : string) :
  String.length a <> String.length b -> String.eqb a b = false.
Proof.
  intro H. apply String.eqb_neq. intros ->. now apply H.
Qed.

(** Characters put before a string that does not end with [suffix], and is
    at least as long, do not make it end with [suffix]. *)
Lemma endswith_longer (a suffix tail : string) :
  endswith (suffix ++ tail) suffix = false ->
  endswith (a ++ suffix ++ tail) suffix = false.
Proof.
  intros Hbase. induction a as [|c a IH]; [exact Hbase|].
  cbn [append endswith]. rewrite IH, orb_false_r.
  apply eqb_length_false. cbn [String.length].
  rewrite !str_length_app. lia.
Qed.

Lemma at_end_app_slash (b : string) : at_end (b ++ "/") = false.
Proof.
  destruct b as [|x [|y b]]; try reflexivity.
Qed.

Lemma at_end_app_long (b tail : string) :
  2 <= String.length tail -> at_end (b ++ tail) = false.
Proof.
  intro H. destruct b as [|x [|y b]].
  - destruct tail as [|c [|d tail]]; simpl in H; try lia. reflexivity.
  - destruct tail as [|c tail]; simpl in H; try lia. reflexivity.
  - reflexivity.
Qed.

Lemma trailing_slash_replaced (body : string) :
  trailing_slash_to_git (body ++ "/") = body ++ ".git".
Proof.
  induction body as [|c b IH].
  - reflexivity.
  - cbn [append trailing_slash_to_git].
    rewrite at_end_app_slash, andb_false_r, IH. reflexivity.
Qed.

Lemma trailing_slash_line_feed (body : string) :
  trailing_slash_to_git (body ++ "/" ++ line_feed)
  = body ++ ".git" ++ line_feed.
Proof.
  induction body as [|c b IH].
  - reflexivity.
  - cbn [append trailing_slash_to_git].
    change (String "/" line_feed) with ("/" ++ line_feed).
    rewrite (at_end_app_long b ("/" ++ line_feed)) by (simpl; lia).
    rewrite andb_false_r. f_equal. exact IH.
Qed.

Lemma trailing_slash_absent (url : string) :
  endswith url "/" = false -> endswith url ("/" ++ line_feed) = false ->
  trailing_slash_to_git url = url.
Proof.
  induction url as [|c s IH]; intros H1 H2; [reflexivity|].
  cbn [trailing_slash_to_git].
  destruct (Ascii.eqb c "/" && at_end s) eqn:E.
  - apply andb_prop in E as [Ec Ee]. apply Ascii.eqb_eq in Ec. subst c.
    destruct (at_end_cases _ Ee) as [-> | ->]; discriminate.
  - f_equal. apply IH; eapply endswith_cons_false; eassumption.
Qed.

Lemma dot_git_kept (body : string) :
  trailing_slash_to_git (body ++ ".git") = body ++ ".git".
Proof.
  induction body as [|c b IH].
  - reflexivity.
  - cbn [append trailing_slash_to_git].
    rewrite (at_end_app_long b ".git") by (simpl; lia).
    rewrite andb_false_r, IH. reflexivity.
Qed.

(** The one case beside the rule: a slash before a final line feed is
    replaced as well, and [.git] is appended after the line feed. *)
Lemma clone_url_slash_line_feed (body : string) :
  clone_url (body ++ "/" ++ line_feed)
  = body ++ ".git" ++ line_feed ++ ".git".
Proof.
  rewrite clone_url_unfold, trailing_slash_line_feed. cbv zeta.
  rewrite (endswith_longer body ".git" line_feed).
  - now rewrite !str_app_assoc.
  - reflexivity.
Qed.

Lemma api_url_ref (github_url : string) (version : option string) :
  _get_api_github_url github_url version =
  match _get_api_github_url github_url None with
  | Return u =>
      Return (match version with
              | Some v => if truthy version then u ++ "?ref=" ++ v else u
              | None => u
              end)
  | Raise e => Raise e
  end.
Proof.
  unfold _get_api_github_url.
  destruct (last_char _); [|reflexivity].
  destruct version as [[|c v]|]; reflexivity.
Qed.

(** C8.  The request sent for [https://github.com/org/repo] goes to
    [https://api.github.com/repos/org/repo/license], and [?ref=] with the
    revision is appended exactly when a revision is given (a revision that
    is [None] or empty counts as not given); the clone URL of
    [https://github.com/org/repo/] is [https://github.com/org/repo.git]: a
    trailing slash is replaced by [.git], a URL that ends with [.git] is
    kept, and any other URL, unless a slash stands before a final line feed,
    gets [.git] appended. *)
Theorem url_normalization :
  _get_api_github_url "https://github.com/org/repo" None
  = Return "https://api.github.com/repos/org/repo/license"
  /\ (forall github_url version,
         _get_api_github_url github_url version =
         match _get_api_github_url github_url None with
         | Return u =>
             Return (match version with
                     | Some v =>
                         if truthy version then u ++ "?ref=" ++ v else u
                     | None => u
                     end)
         | Raise e => Raise e
         end)
  /\ clone_url "https://github.com/org/repo/"
     = "https://github.com/org/repo.git"
  /\ (forall body, clone_url (body ++ "/") = body ++ ".git")
  /\ (forall body, clone_url (body ++ ".git") = body ++ ".git")
  /\ (forall git_url,
         if endswith git_url "/" || endswith git_url ".git"
            || endswith git_url ("/" ++ line_feed)
         then True
         else clone_url git_url = git_url ++ ".git").
Proof.
  split; [reflexivity|].
  split; [apply api_url_ref|].
  split; [reflexivity|].
  split; [|split].
  - intro body. rewrite clone_url_unfold, trailing_slash_replaced. cbv zeta.
    now rewrite endswith_app.
  - intro body. rewrite clone_url_unfold, dot_git_kept. cbv zeta.
    now rewrite endswith_app.
  - intro git_url.
    destruct (endswith git_url "/") eqn:E1; [exact I|].
    destruct (endswith git_url ".git") eqn:E2; [exact I|].
    destruct (endswith git_url ("/" ++ line_feed)) eqn:E3; [exact I|].
    cbn [orb].
    rewrite clone_url_unfold, trailing_slash_absent by assumption.
    cbv zeta. now rewrite E2.
Qed.

(** ** The name of a license *)

(** C3.  [match_license] strips the name and removes the word [License],
    with the white space around it, in this very spelling only and at most
    twice: [MIT License] becomes [MIT], while [MIT license] and
    [MIT LICENSE] stay as they are, and a third occurrence stays too. *)
Theorem clean_license_name_case_sensitive :
  clean_license_name "MIT License" = "MIT"
  /\ clean_license_name "MIT license" = "MIT license"
  /\ clean_license_name "MIT LICENSE" = "MIT LICENSE"
  /\ clean_license_name " Apache License 2.0 " = "Apache2.0"
  /\ clean_license_name "License License License" = "License".
Proof.
  repeat split; vm_compute; reflexivity.
Qed.

(** ** The best match *)

Section BestMatch.
Variable scorer : string -> string -> nat.
Variable query : string.

(** [best_of] returns the first of the choices with the highest score. *)
Lemma best_of_first_max (choices : list string) :
  forall pre1 b pre2,
    Forall (fun c => scorer query c < scorer query b) pre1 ->
    Forall (fun c => scorer query c <= scorer query b) pre2 ->
    exists l1 t l2,
      best_of scorer query (b, scorer query b) choices = (t, scorer query t)
      /\ (pre1 ++ b :: pre2 ++ choices = l1 ++ t :: l2)%list
      /\ Forall (fun c => scorer query c < scorer query t) l1
      /\ Forall (fun c => scorer query c <= scorer query t) l2.
Proof.
  induction choices as [|c rest IH]; intros pre1 b pre2 H1 H2.
  - exists pre1, b, pre2. rewrite app_nil_r. auto.
  - cbn [best_of snd].
    destruct (scorer query b <? scorer query c)%nat eqn:E.
    + apply Nat.ltb_lt in E.
      destruct (IH (pre1 ++ b :: pre2)%list c []) as (l1 & t & l2 & Hb & Hl & F1 & F2).
      * apply Forall_app. split; [|constructor].
        -- eapply Forall_impl; [|exact H1]. cbv beta. intros; lia.
        -- exact E.
        -- eapply Forall_impl; [|exact H2]. cbv beta. intros; lia.
      * constructor.
      * exists l1, t, l2. repeat split; try assumption.
        rewrite <- Hl, <- app_assoc. reflexivity.
    + apply Nat.ltb_ge in E.
      destruct (IH pre1 b (pre2 ++ [c])%list) as (l1 & t & l2 & Hb & Hl & F1 & F2).
      * exact H1.
      * apply Forall_app. split; [exact H2|]. constructor; [exact E|constructor].
      * exists l1, t, l2. repeat split; try assumption.
        rewrite <- Hl, <- app_assoc. reflexivity.
Qed.

Lemma extractOne_first_max (c : string) (rest : list string) :
  exists l1 t l2,
    extractOne scorer query (c :: rest) = Some (t, scorer query t)
    /\ c :: rest = (l1 ++ t :: l2)%list
    /\ Forall (fun c => scorer query c < scorer query t) l1
    /\ Forall (fun c => scorer query c <= scorer query t) l2.
Proof.
  destruct (best_of_first_max rest [] c []) as (l1 & t & l2 & Hb & Hl & F1 & F2);
    try constructor.
  exists l1, t, l2. cbn [extractOne]. rewrite Hb. auto.
Qed.

Lemma index_first (t : string) (l1 l2 : list string) :
  Forall (fun c => scorer query c < scorer query t) l1 ->
  index t (l1 ++ t :: l2) = Return (List.length l1).
Proof.
  induction 1 as [|c l1 Hc _ IH]; cbn [index app List.length].
  - now rewrite String.eqb_refl.
  - destruct (String.eqb c t) eqn:E.
    + apply String.eqb_eq in E. subst. lia.
    + now rewrite IH.
Qed.
End BestMatch.

Lemma nth_error_middle {A : Type} (l1 l2 : list A) (x : A) :
  nth_error (l1 ++ x :: l2) (List.length l1) = Some x.
Proof.
  rewrite nth_error_app2, Nat.sub_diag by lia. reflexivity.
Qed.

(** C1.  [get_license_type] reads the text and selects the entry of the
    corpus whose text has the highest score, the first of them in the order
    of the corpus: with a default that is given (not [None] and not empty)
    and a winning score below 76 it returns the default, and in every other
    case, so whenever no default is given, the identifier of that entry,
    whatever the score.  On an empty corpus there is nothing to select and
    the call raises [TypeError]. *)
Theorem get_license_type_best_match
        (cwd : string) (scorer : string -> string -> nat)
        (all_licenses : list (string * string))
        (path_license : string) (default : option string)
        (w : World) (text : string) :
  read_text cwd path_license w = (Return text, w) ->
  match all_licenses with
  | [] =>
      get_license_type cwd scorer all_licenses path_license default w
      = (Raise TypeError, w)
  | _ :: _ =>
      exists before id best after,
        all_licenses = (before ++ (id, best) :: after)%list
        /\ Forall (fun e => scorer text (snd e) < scorer text best) before
        /\ Forall (fun e => scorer text (snd e) <= scorer text best) after
        /\ get_license_type cwd scorer all_licenses path_license default w
           = (Return (if truthy default && (scorer text best <? 76)%nat
                      then default else Some id), w)
  end.
Proof.
  intro Hread. unfold get_license_type, bind. rewrite Hread.
  destruct all_licenses as [|[id0 t0] rest].
  - cbn [map extractOne]. unfold lift, raise.
    destruct (truthy default); reflexivity.
  - cbn [map snd].
    destruct (extractOne_first_max scorer text t0 (map snd rest))
      as (l1 & t & l2 & Hext & Hl & F1 & F2).
    rewrite Hext.
    change (t0 :: map snd rest) with (map snd ((id0, t0) :: rest)) in Hl.
    destruct (map_eq_app _ _ _ _ Hl) as (before & tl & Hc & Hb & Htl).
    destruct (map_eq_cons _ _ Htl) as ([id best] & after & -> & Hbest & Ha).
    cbn [snd] in Hbest. subst best l1 l2.
    exists before, id, t, after.
    split; [exact Hc|].
    split; [now apply Forall_map in F1|].
    split; [now apply Forall_map in F2|].
    unfold lift, ret, raise.
    assert (Hidx : index t (t0 :: map snd rest)
                   = Return (List.length before)).
    { change (t0 :: map snd rest) with (map snd ((id0, t0) :: rest)).
      rewrite Hc, map_app. cbn [map snd].
      rewrite (index_first scorer text) by exact F1.
      now rewrite length_map. }
    assert (Hnth : nth_error ((id0, t0) :: rest) (List.length before)
                   = Some (id, t)).
    { rewrite Hc. apply nth_error_middle. }
    destruct (truthy default) eqn:Ht; cbn [andb].
    + destruct (scorer text t <? 76)%nat; [reflexivity|].
      rewrite Hidx, Hnth. reflexivity.
    + rewrite Hidx, Hnth. reflexivity.
Qed.

(** On the demonstration world, for the license of [project]. *)
Lemma get_license_type_best_match_witness :
  exists before id best after,
    Demo.corpus = (before ++ (id, best) :: after)%list
    /\ Forall (fun e => Demo.scorer Demo.mit_text (snd e)
                        < Demo.scorer Demo.mit_text best) before
    /\ Forall (fun e => Demo.scorer Demo.mit_text (snd e)
                        <= Demo.scorer Demo.mit_text best) after
    /\ get_license_type Demo.cwd Demo.scorer Demo.corpus
                        "project/LICENSE.txt" (Some "Other") Demo.world
       = (Return (if truthy (Some "Other")
                     && (Demo.scorer Demo.mit_text best <? 76)%nat
                  then Some "Other" else Some id), Demo.world).
Proof.
  apply (get_license_type_best_match
           Demo.cwd Demo.scorer Demo.corpus "project/LICENSE.txt"
           (Some "Other") Demo.world Demo.mit_text).
  reflexivity.
Defined.

(** ** Paths *)

Lemma split_not_nil (s : string) : split slash s <> [].
Proof.
  destruct s as [|c s]; cbn [split]; [discriminate|].
  destruct (Ascii.eqb c slash); [discriminate|].
  destruct (split slash s); discriminate.
Qed.

Lemma split_no_slash (n : string) :
  no_slash n = true -> split slash n = [n].
Proof.
  unfold no_slash. induction n as [|c n IH]; cbn [str_all split]; intro H.
  - reflexivity.
  - apply andb_prop in H as [Hc Hn].
    apply negb_true_iff in Hc. rewrite Hc, (IH Hn). reflexivity.
Qed.

Lemma split_app_sep (a b : string) :
  split slash (a ++ "/" ++ b) = (split slash a ++ split slash b)%list.
Proof.
  change ("/" ++ b) with (String "/" b).
  induction a as [|c a IH]; cbn [append split].
  - reflexivity.
  - destruct (Ascii.eqb c slash).
    + now rewrite IH.
    + rewrite IH. destruct (split slash a) as [|w ws] eqn:E.
      * now apply split_not_nil in E.
      * reflexivity.
Qed.

Lemma split_elems (s : string) :
  Forall (fun x => no_slash x = true) (split slash s).
Proof.
  induction s as [|c s IH]; cbn [split].
  - repeat constructor.
  - destruct (Ascii.eqb c slash) eqn:E.
    + constructor; [reflexivity | exact IH].
    + destruct (split slash s) as [|w ws].
      * repeat constructor. unfold no_slash. cbn [str_all]. now rewrite E.
      * inversion IH as [|? ? Hw Hws]; subst.
        constructor; [|exact Hws].
        unfold no_slash in *. cbn [str_all]. now rewrite E, Hw.
Qed.

Lemma endswith_slash_inv (a : string) :
  endswith a "/" = true -> exists a', a = a' ++ "/".
Proof.
  induction a as [|c a IH]; cbn [endswith]; intro H.
  - discriminate.
  - apply orb_prop in H as [H | H].
    + apply String.eqb_eq in H. exists "". exact H.
    + destruct (IH H) as [a' ->]. exists (String c a'). reflexivity.
Qed.

Lemma plain_no_slash (n : string) : plain_name n = true -> no_slash n = true.
Proof.
  unfold plain_name. intro H. now apply andb_prop in H as [_ H].
Qed.

Lemma plain_not_abs (n : string) :
  plain_name n = true -> startswith n "/" = false.
Proof.
  intro H. apply plain_no_slash in H. unfold no_slash in H.
  destruct n as [|c n]; [reflexivity|].
  cbn [str_all] in H. apply andb_prop in H as [H _].
  apply negb_true_iff in H. cbn [startswith].
  unfold slash in H. now rewrite H.
Qed.

Lemma norm_comps_app (init : bool) (l1 l2 acc : list string) :
  norm_comps init acc (l1 ++ l2)
  = norm_comps init (norm_comps init acc l1) l2.
Proof.
  revert acc. induction l1 as [|c l1 IH]; intro acc; cbn [app norm_comps].
  - reflexivity.
  - destruct (String.eqb c "" || String.eqb c "."); [apply IH|].
    match goal with |- context [if ?b then _ else _] => destruct b end;
      apply IH.
Qed.

Lemma norm_comps_plain (init : bool) (acc : list string) (n : string) :
  plain_name n = true -> norm_comps init acc [n] = (acc ++ [n])%list.
Proof.
  unfold plain_name. intro H.
  apply andb_prop in H as [H _]. apply andb_prop in H as [H H3].
  apply andb_prop in H as [H1 H2].
  apply negb_true_iff in H1, H2, H3.
  cbn [norm_comps]. now rewrite H1, H2, H3.
Qed.

Lemma norm_comps_empty (init : bool) (acc : list string) :
  norm_comps init acc [""] = acc.
Proof. reflexivity. Qed.

(** Joining a plain name to a path adds one component to its normal form. *)
Lemma ncomps_join (p n : string) :
  plain_name n = true -> ncomps (os_path_join p n) = (ncomps p ++ [n])%list.
Proof.
  intro Hn. unfold ncomps, os_path_join.
  rewrite (plain_not_abs n Hn).
  pose proof (split_no_slash n (plain_no_slash n Hn)) as Hs.
  destruct (String.eqb p "") eqn:Ep.
  - apply String.eqb_eq in Ep. subst p. cbn [orb append].
    rewrite Hs. now rewrite norm_comps_plain.
  - cbn [orb]. destruct (endswith p "/") eqn:Ee.
    + destruct (endswith_slash_inv p Ee) as [p' ->].
      rewrite str_app_assoc.
      rewrite split_app_sep, Hs.
      change (p' ++ "/") with (p' ++ "/" ++ "").
      rewrite split_app_sep. cbn [split].
      rewrite !norm_comps_app, norm_comps_empty.
      now rewrite norm_comps_plain.
    + rewrite split_app_sep, Hs, norm_comps_app.
      now rewrite norm_comps_plain.
Qed.

Lemma startswith_slash_inv (s : string) :
  startswith s "/" = true -> exists s', s = String "/" s'.
Proof.
  destruct s as [|c s]; cbn [startswith]; [discriminate|].
  intro H. apply andb_prop in H as [H _].
  apply Ascii.eqb_eq in H. subst. eauto.
Qed.

Lemma Forall_removelast {A : Type} (P : A -> Prop) (l : list A) :
  Forall P l -> Forall P (removelast l).
Proof.
  induction 1 as [|x l Hx Hl IH]; cbn [removelast]; [constructor|].
  destruct l; [constructor | constructor; assumption].
Qed.

Lemma norm_comps_good (init : bool) (comps : list string) :
  forall acc,
    Forall (fun x => no_slash x = true) comps ->
    Forall (fun x => is_comp x = true) acc ->
    Forall (fun x => is_comp x = true) (norm_comps init acc comps).
Proof.
  induction comps as [|c comps IH]; intros acc Hc Ha; cbn [norm_comps].
  - exact Ha.
  - inversion Hc as [|? ? Hc1 Hc2]; subst.
    destruct (String.eqb c "") eqn:E1; cbn [orb]; [now apply IH|].
    destruct (String.eqb c "."); [now apply IH|].
    match goal with |- context [if ?b then _ else _] => destruct b end.
    + apply IH; [assumption|]. apply Forall_app. split; [assumption|].
      constructor; [|constructor]. unfold is_comp. now rewrite E1, Hc1.
    + apply IH; [assumption|]. now apply Forall_removelast.
Qed.

Lemma split_join (l : list string) :
  Forall (fun x => is_comp x = true) l -> l <> [] ->
  split slash (join "/" l) = l.
Proof.
  induction 1 as [|x l Hx Hl IH]; intro Hne; [congruence|].
  unfold is_comp in Hx. apply andb_prop in Hx as [_ Hx].
  destruct l as [|y l].
  - cbn [join concat]. now apply split_no_slash.
  - change (join "/" (x :: y :: l)) with (x ++ "/" ++ join "/" (y :: l)).
    rewrite split_app_sep, (split_no_slash x Hx), IH by discriminate.
    reflexivity.
Qed.

Lemma filter_comps (l : list string) :
  Forall (fun x => is_comp x = true) l -> filter nonempty l = l.
Proof.
  induction 1 as [|x l Hx Hl IH]; cbn [filter]; [reflexivity|].
  unfold is_comp in Hx. apply andb_prop in Hx as [Hx _].
  unfold nonempty at 1. now rewrite Hx, IH.
Qed.

Lemma filter_split_join (l : list string) :
  Forall (fun x => is_comp x = true) l ->
  filter nonempty (split slash (join "/" l)) = l.
Proof.
  intro H. destruct l as [|x l]; [reflexivity|].
  rewrite split_join by (assumption || discriminate).
  now apply filter_comps.
Qed.

(** The components [relpath] compares are those of the normal form. *)
Lemma path_list_norm (cwd p : string) :
  startswith (full_path cwd p) "/" = true ->
  path_list cwd p = ncomps (full_path cwd p).
Proof.
  unfold path_list, abspath. fold (full_path cwd p).
  intro Habs. set (P := full_path cwd p) in *.
  destruct (startswith_slash_inv P Habs) as [s' HP].
  assert (Hgood : Forall (fun x => is_comp x = true) (ncomps P)).
  { apply norm_comps_good; [apply split_elems | constructor]. }
  unfold normpath. rewrite Habs.
  assert (E0 : String.eqb P "" = false) by (rewrite HP; reflexivity).
  rewrite E0.
  destruct (startswith P "//" && negb (startswith P "///")).
  - cbn [Nat.eqb negb]. fold (ncomps P).
    change ("//" ++ join "/" (ncomps P))
      with (String "/" (String "/" (join "/" (ncomps P)))).
    cbn [String.eqb split Ascii.eqb slash Bool.eqb filter nonempty negb].
    now apply filter_split_join.
  - cbn [Nat.eqb negb]. fold (ncomps P).
    change ("/" ++ join "/" (ncomps P))
      with (String "/" (join "/" (ncomps P))).
    cbn [String.eqb split Ascii.eqb slash Bool.eqb filter nonempty negb].
    now apply filter_split_join.
Qed.

Lemma startswith_app (a b : string) :
  startswith a "/" = true -> startswith (a ++ b) "/" = true.
Proof.
  intro H. destruct (startswith_slash_inv a H) as [a' ->]. reflexivity.
Qed.

Lemma not_startswith_app (a b : string) :
  a <> "" -> startswith a "/" = false -> startswith (a ++ b) "/" = false.
Proof.
  destruct a as [|c a]; [congruence|]. intros _ H. exact H.
Qed.

Lemma app_nonempty_l (a b : string) : a <> "" -> a ++ b <> "".
Proof.
  destruct a; [congruence | discriminate].
Qed.

Lemma app_nonempty_r (a b : string) : b <> "" -> a ++ b <> "".
Proof.
  destruct a; [now cbn | discriminate].
Qed.

Lemma endswith_app_nonempty (a d : string) :
  d <> "" -> endswith (a ++ d) "/" = endswith d "/".
Proof.
  intro Hd. induction a as [|c a IH]; [reflexivity|].
  cbn [append endswith]. rewrite IH.
  assert (E : String.eqb (String c (a ++ d)) "/" = false).
  { apply String.eqb_neq. intro H. injection H as _ H.
    exact (app_nonempty_r a d Hd H). }
  now rewrite E.
Qed.

Lemma eqb_empty_false (s : string) : s <> "" -> String.eqb s "" = false.
Proof.
  intro H. now apply String.eqb_neq.
Qed.

(** [os.path.join] of a non-empty first part and a relative second part. *)
Lemma os_path_join_rel (a b : string) :
  a <> "" -> startswith b "/" = false ->
  os_path_join a b = if endswith a "/" then a ++ b else a ++ "/" ++ b.
Proof.
  intros Ha Hb. unfold os_path_join. now rewrite Hb, eqb_empty_false.
Qed.

Lemma full_path_join (cwd d n : string) :
  startswith cwd "/" = true -> plain_name n = true ->
  full_path cwd (os_path_join d n) = os_path_join (full_path cwd d) n.
Proof.
  intros Hcwd Hn. pose proof (plain_not_abs n Hn) as Hrel.
  assert (Hc : cwd <> "") by (intros ->; discriminate).
  unfold full_path. destruct (startswith d "/") eqn:Hd.
  - assert (Hd0 : d <> "") by (intros ->; discriminate).
    rewrite (os_path_join_rel d n Hd0 Hrel).
    destruct (endswith d "/"); now rewrite startswith_app.
  - destruct (String.eqb d "") eqn:E.
    + apply String.eqb_eq in E. subst d.
      assert (E1 : os_path_join "" n = n).
      { unfold os_path_join. now rewrite Hrel. }
      rewrite E1, Hrel.
      rewrite (os_path_join_rel cwd n Hc Hrel).
      rewrite (os_path_join_rel cwd "" Hc eq_refl).
      destruct (endswith cwd "/") eqn:Ee.
      * rewrite str_app_nil_r. rewrite (os_path_join_rel cwd n Hc Hrel).
        now rewrite Ee.
      * rewrite (os_path_join_rel _ n (app_nonempty_l _ _ Hc) Hrel).
        change (cwd ++ "/" ++ "") with (cwd ++ "/").
        rewrite (endswith_app cwd "/"). rewrite str_app_assoc. reflexivity.
    + apply String.eqb_neq in E.
      rewrite (os_path_join_rel d n E Hrel).
      assert (Hdn : startswith (if endswith d "/" then d ++ n
                                else d ++ "/" ++ n) "/" = false).
      { destruct (endswith d "/"); now apply not_startswith_app. }
      rewrite Hdn.
      rewrite (os_path_join_rel cwd _ Hc Hdn).
      rewrite (os_path_join_rel cwd d Hc Hd).
      destruct (endswith cwd "/").
      * rewrite (os_path_join_rel _ n (app_nonempty_l _ _ Hc) Hrel).
        rewrite (endswith_app_nonempty cwd d E).
        destruct (endswith d "/"); now rewrite !str_app_assoc.
      * rewrite (os_path_join_rel _ n (app_nonempty_l _ _ Hc) Hrel).
        change (cwd ++ "/" ++ d) with (cwd ++ ("/" ++ d)).
        rewrite <- (str_app_assoc cwd "/" d).
        rewrite (endswith_app_nonempty (cwd ++ "/") d E).
        destruct (endswith d "/"); now rewrite !str_app_assoc.
Qed.

Lemma full_path_abs (cwd p : string) :
  startswith cwd "/" = true -> startswith (full_path cwd p) "/" = true.
Proof.
  intro Hcwd. unfold full_path.
  destruct (startswith p "/") eqn:Hp; [exact Hp|].
  assert (Hc : cwd <> "") by (intros ->; discriminate).
  rewrite (os_path_join_rel cwd p Hc Hp).
  destruct (endswith cwd "/"); now apply startswith_app.
Qed.

(** The components of a path below a directory: those of the directory and
    the name. *)
Lemma path_list_join (cwd d n : string) :
  startswith cwd "/" = true -> plain_name n = true ->
  path_list cwd (os_path_join d n) = (path_list cwd d ++ [n])%list.
Proof.
  intros Hcwd Hn.
  rewrite !path_list_norm by now apply full_path_abs.
  now rewrite full_path_join, ncomps_join.
Qed.

(** ** The file system *)

Lemma assoc_set_same {A : Type} (k : string) (v : A) (l : list (string * A)) :
  assoc k (assoc_set k v l) = Some v.
Proof.
  induction l as [|[k' v'] l IH]; cbn [assoc_set assoc].
  - now rewrite String.eqb_refl.
  - destruct (String.eqb k k') eqn:E; cbn [assoc].
    + now rewrite String.eqb_refl.
    + now rewrite E.
Qed.

Lemma assoc_not_in {A : Type} (k : string) (l : list (string * A)) :
  ~ In k (map fst l) -> assoc k l = None.
Proof.
  induction l as [|[k' v'] l IH]; cbn [assoc map fst In]; intro H.
  - reflexivity.
  - destruct (String.eqb k k') eqn:E.
    + apply String.eqb_eq in E. subst. exfalso. apply H. now left.
    + apply IH. intro Hin. apply H. now right.
Qed.

(** After [set_node] the new node is found where it was put, when the parent
    is a directory. *)
Lemma lookup_set_node (l : list string) :
  forall r es n new,
    lookup_path l r = Some (Dir es) ->
    lookup_path (l ++ [n]) (set_node (l ++ [n]) new r) = Some new
    /\ lookup_path l (set_node (l ++ [n]) new r)
       = Some (Dir (assoc_set n new es)).
Proof.
  induction l as [|c l IH]; intros r es n new H.
  - cbn [lookup_path] in H. injection H as ->.
    cbn [app set_node]. destruct (assoc n es); cbn [lookup_path];
      rewrite assoc_set_same; auto.
  - cbn [lookup_path] in H. destruct r as [|es0]; [discriminate|].
    destruct (assoc c es0) as [child|] eqn:E; [|discriminate].
    destruct (IH child es n new H) as [H1 H2].
    cbn [app set_node]. rewrite E. cbn [lookup_path].
    rewrite assoc_set_same. auto.
Qed.

Lemma lookup_fresh (l : list string) :
  forall r es n,
    lookup_path l r = Some (Dir es) -> assoc n es = None ->
    lookup_path (l ++ [n]) r = None.
Proof.
  induction l as [|c l IH]; intros r es n H Hn.
  - cbn [lookup_path] in H. injection H as ->.
    cbn [app lookup_path]. now rewrite Hn.
  - cbn [lookup_path] in H. destruct r as [|es0]; [discriminate|].
    destruct (assoc c es0) as [child|] eqn:E; [|discriminate].
    cbn [app lookup_path]. rewrite E. eapply IH; eassumption.
Qed.

Lemma repeat_char_length (c : ascii) (n : nat) :
  String.length (repeat_char c n) = n.
Proof.
  induction n as [|n IH]; cbn [repeat_char String.length]; auto.
Qed.

(** The name [mkdtemp] picks is not in use. *)
Lemma fresh_name_fresh (prefix : string) (used : list string) :
  ~ In (fresh_name prefix used) used.
Proof.
  intro Hin.
  assert (H : Forall (fun k => k <= list_max (map String.length used))
                     (map String.length used)) by now apply list_max_le.
  rewrite Forall_forall in H.
  specialize (H _ (in_map String.length _ _ Hin)).
  unfold fresh_name in H. rewrite str_length_app, repeat_char_length in H.
  lia.
Qed.

Lemma no_slash_app (a b : string) :
  no_slash (a ++ b) = no_slash a && no_slash b.
Proof. apply str_all_app. Qed.

Lemma no_slash_repeat_x (n : nat) : no_slash (repeat_char "x" n) = true.
Proof.
  induction n as [|n IH]; [reflexivity|].
  unfold no_slash in *. cbn [repeat_char str_all]. now rewrite IH.
Qed.

(** The two prefixes of the module give plain names. *)
Lemma fresh_name_plain (prefix : string) (used : list string) :
  no_slash prefix = true ->
  3 <= String.length prefix ->
  plain_name (fresh_name prefix used) = true.
Proof.
  intros Hs Hl. unfold plain_name, fresh_name.
  rewrite no_slash_app, Hs, no_slash_repeat_x.
  rewrite !eqb_length_false;
    [reflexivity | | |]; rewrite str_length_app; cbn [String.length]; lia.
Qed.

Lemma os_path_join_nonempty (a n : string) :
  n <> "" -> os_path_join a n <> "".
Proof.
  intro Hn. unfold os_path_join.
  destruct (startswith n "/"); [exact Hn|].
  destruct (String.eqb a "" || endswith a "/");
    now repeat apply app_nonempty_r.
Qed.

Lemma plain_nonempty (n : string) : plain_name n = true -> n <> "".
Proof.
  intros H ->. discriminate.
Qed.

Section Effects.
Variable cwd : string.
Variable tempdir : string.
Hypothesis cwd_absolute : startswith cwd "/" = true.

(** A plain name below an existing directory resolves where [set_node] put
    a node. *)
Lemma resolve_set_node (w : World) (d n : string) (es : list (string * node))
      (new : node) :
  plain_name n = true ->
  lookup_path (path_list cwd d) (root w) = Some (Dir es) ->
  let p := os_path_join d n in
  let w' := set_root w (set_node (path_list cwd p) new (root w)) in
  resolve cwd w' p = Some new
  /\ lookup_path (path_list cwd d) (root w')
     = Some (Dir (assoc_set n new es)).
Proof.
  intros Hn Hd p w'. unfold resolve, w', p.
  rewrite eqb_empty_false
    by (apply os_path_join_nonempty, plain_nonempty, Hn).
  rewrite path_list_join by assumption.
  cbn [root set_root]. now apply lookup_set_node.
Qed.

(** [mkdtemp] makes an empty directory that was not there. *)
Lemma mkdtemp_spec (prefix : string) (w : World)
      (entries : list (string * node)) :
  no_slash prefix = true -> 3 <= String.length prefix ->
  resolve cwd w tempdir = Some (Dir entries) ->
  let name := fresh_name prefix (map fst entries) in
  let tmp := os_path_join tempdir name in
  exists w',
    mkdtemp cwd tempdir prefix w = (Return tmp, w')
    /\ requests w' = requests w /\ cache w' = cache w
    /\ resolve cwd w tmp = None
    /\ resolve cwd w' tmp = Some (Dir [])
    /\ lookup_path (path_list cwd tempdir) (root w')
       = Some (Dir (assoc_set name (Dir []) entries)).
Proof.
  intros Hs Hl Ht name tmp.
  assert (Hplain : plain_name name = true) by now apply fresh_name_plain.
  assert (Hlk : lookup_path (path_list cwd tempdir) (root w)
                = Some (Dir entries)).
  { unfold resolve in Ht. destruct (String.eqb tempdir ""); [discriminate|].
    exact Ht. }
  eexists. split; [unfold mkdtemp; rewrite Ht; reflexivity|].
  split; [reflexivity|]. split; [reflexivity|].
  split.
  - unfold resolve, tmp.
    rewrite eqb_empty_false
      by (apply os_path_join_nonempty, plain_nonempty, Hplain).
    rewrite path_list_join by assumption.
    apply (lookup_fresh _ _ entries); [exact Hlk|].
    apply assoc_not_in, fresh_name_fresh.
  - now apply resolve_set_node.
Qed.
End Effects.

(** ** The clone *)

Section Clone.
Variable cwd : string.
Variable tempdir : string.
Variable scorer : string -> string -> nat.
Variable all_licenses : list (string * string).
Variable git : list string -> result (list (string * node)).
Hypothesis cwd_absolute : startswith cwd "/" = true.

Lemma get_license_type_world (p : string) (default : option string)
      (w : World) :
  snd (get_license_type cwd scorer all_licenses p default w) = w.
Proof.
  unfold get_license_type, bind, read_text, lift, ret, raise.
  destruct (resolve cwd w p) as [[content|es]|]; try reflexivity.
  destruct (truthy default).
  - destruct (extractOne scorer content (map snd all_licenses))
      as [[text score]|]; [|reflexivity].
    destruct (score <? 76)%nat; [reflexivity|].
    destruct (index text (map snd all_licenses)); [|reflexivity].
    destruct (nth_error all_licenses a); reflexivity.
  - destruct (extractOne scorer content (map snd all_licenses))
      as [[text score]|]; [|reflexivity].
    destruct (index text (map snd all_licenses)); [|reflexivity].
    destruct (nth_error all_licenses a); reflexivity.
Qed.

(** The scanner reads; it changes nothing. *)
Lemma search_license_folder_world (p : string) (default : option string)
      (w : World) :
  snd (search_license_folder cwd scorer all_licenses p default w) = w.
Proof.
  unfold search_license_folder.
  destruct (first_license_file (os_walk cwd w p)) as [[folder one_file]|];
    [|reflexivity].
  unfold bind.
  pose proof (get_license_type_world (os_path_join folder one_file) default w)
    as H.
  destruct (get_license_type cwd scorer all_licenses
                             (os_path_join folder one_file) default w)
    as [[r|e] w']; cbn [snd] in H; subst; reflexivity.
Qed.

Lemma last_get_git_cmd (git_url : string) (version : option string)
      (dest : string) :
  List.last (_get_git_cmd git_url version dest) "" = dest.
Proof.
  unfold _get_git_cmd. destruct version as [[|c v]|]; reflexivity.
Qed.

(** The steps of [search_license_repo] where the directory of temporary
    files exists: the directory is made first, then [git] runs, and only its
    success leads to the scanner. *)
Lemma search_license_repo_steps (git_url : string)
      (version default : option string) (w : World)
      (entries : list (string * node)) :
  resolve cwd w tempdir = Some (Dir entries) ->
  let name := fresh_name "gs-clone-repo-" (map fst entries) in
  let tmp_dir := os_path_join tempdir name in
  let cmd := _get_git_cmd (clone_url git_url) version tmp_dir in
  exists w1,
    resolve cwd w tmp_dir = None
    /\ resolve cwd w1 tmp_dir = Some (Dir [])
    /\ requests w1 = requests w /\ cache w1 = cache w
    /\ match git cmd with
       | Raise err =>
           search_license_repo cwd tempdir scorer all_licenses git
                               git_url version default w
           = (if is_Exception err then Return None else Raise err, w1)
       | Return tree =>
           exists w2,
             resolve cwd w2 tmp_dir = Some (Dir tree)
             /\ requests w2 = requests w /\ cache w2 = cache w
             /\ search_license_repo cwd tempdir scorer all_licenses git
                                    git_url version default w
                = search_license_folder cwd scorer all_licenses
                                        tmp_dir default w2
       end.
Proof.
  intros Ht name tmp_dir cmd.
  destruct (mkdtemp_spec cwd tempdir cwd_absolute "gs-clone-repo-" w entries)
    as (w1 & Hmk & Hreq & Hcache & Hfresh & Hdir & Hparent);
    [reflexivity | simpl; lia | exact Ht |].
  fold name in Hmk, Hfresh, Hdir, Hparent.
  fold tmp_dir in Hmk, Hfresh, Hdir.
  exists w1. repeat (split; [assumption|]).
  unfold search_license_repo, bind. rewrite Hmk.
  fold tmp_dir. fold cmd. unfold check_output.
  destruct (git cmd) as [tree|err] eqn:Eg.
  - exists (set_root w1 (set_node (path_list cwd (List.last cmd ""))
                                  (Dir tree) (root w1))).
    split; [|split; [|split; [|reflexivity]]].
    + unfold cmd. rewrite last_get_git_cmd.
      assert (Hplain : plain_name name = true)
        by (apply fresh_name_plain; [reflexivity | simpl; lia]).
      destruct (resolve_set_node cwd cwd_absolute w1 tempdir name _ (Dir tree)
                                 Hplain Hparent) as [H1 _].
      exact H1.
    + exact Hreq.
    + exact Hcache.
  - destruct (is_Exception err); reflexivity.
Qed.

(** C10.  Where the directory of temporary files exists, every call of
    [search_license_repo] first makes a directory there that did not exist,
    with a name that starts with [gs-clone-repo-], and hands it to
    [git clone]; nothing removes it: after a failed clone, for which a caught
    error gives the result [None], it is still there, empty, and after a
    clone that succeeded it holds what [git] wrote. *)
Theorem clone_leaves_temporary_directory
        (git_url : string) (version default : option string) (w : World)
        (entries : list (string * node)) :
  resolve cwd w tempdir = Some (Dir entries) ->
  let tmp_dir :=
    os_path_join tempdir (fresh_name "gs-clone-repo-" (map fst entries)) in
  let out := search_license_repo cwd tempdir scorer all_licenses git
                                 git_url version default w in
  resolve cwd w tmp_dir = None
  /\ match git (_get_git_cmd (clone_url git_url) version tmp_dir) with
     | Raise err =>
         resolve cwd (snd out) tmp_dir = Some (Dir [])
         /\ fst out = (if is_Exception err then Return None else Raise err)
     | Return tree => resolve cwd (snd out) tmp_dir = Some (Dir tree)
     end.
Proof.
  intros Ht tmp_dir out.
  destruct (search_license_repo_steps git_url version default w entries Ht)
    as (w1 & Hfresh & Hdir & _ & _ & Hrun).
  split; [exact Hfresh|].
  fold tmp_dir in Hrun, Hdir.
  destruct (git (_get_git_cmd (clone_url git_url) version tmp_dir))
    as [tree|err].
  - destruct Hrun as (w2 & Hd2 & _ & _ & Hrun).
    unfold out. rewrite Hrun, search_license_folder_world. exact Hd2.
  - unfold out. rewrite Hrun. cbn [fst snd]. auto.
Qed.

End Clone.

(** C6.  Where the directory of temporary files exists, a clone that fails
    with any error that derives from [Exception] (a non-zero exit status, a
    missing [git] binary, ...) makes [search_license_repo] return [None]: the
    error is not propagated. *)
Theorem clone_failure_returns_none
        (cwd tempdir : string) (scorer : string -> string -> nat)
        (all_licenses : list (string * string))
        (git : list string -> result (list (string * node)))
        (git_url : string) (version default : option string) (w : World)
        (entries : list (string * node)) (err : exn) :
  resolve cwd w tempdir = Some (Dir entries) ->
  git (_get_git_cmd (clone_url git_url) version
         (os_path_join tempdir
            (fresh_name "gs-clone-repo-" (map fst entries))))
  = Raise err ->
  is_Exception err = true ->
  fst (search_license_repo cwd tempdir scorer all_licenses git
                           git_url version default w)
  = Return None.
Proof.
  intros Ht Hgit Herr.
  unfold search_license_repo, bind, mkdtemp, check_output.
  rewrite Ht, Hgit, Herr. reflexivity.
Qed.

(** On the demonstration world, where [git] fails. *)
Lemma clone_leaves_temporary_directory_witness :
  let tmp_dir := "/tmp/gs-clone-repo-x" in
  let out := search_license_repo Demo.cwd Demo.tempdir Demo.scorer Demo.corpus
                                 Demo.git_fails "https://github.com/org/repo/"
                                 (Some "v1.0") None Demo.world in
  resolve Demo.cwd Demo.world tmp_dir = None
  /\ resolve Demo.cwd (snd out) tmp_dir = Some (Dir [])
  /\ fst out = Return None.
Proof.
  exact (clone_leaves_temporary_directory
           Demo.cwd Demo.tempdir Demo.scorer Demo.corpus Demo.git_fails
           eq_refl "https://github.com/org/repo/" (Some "v1.0") None
           Demo.world [] eq_refl).
Defined.

Lemma clone_failure_returns_none_witness :
  fst (search_license_repo Demo.cwd Demo.tempdir Demo.scorer Demo.corpus
                           Demo.git_fails "https://example.invalid/nothing"
                           None (Some "MIT") Demo.world)
  = Return None.
Proof.
  exact (clone_failure_returns_none
           Demo.cwd Demo.tempdir Demo.scorer Demo.corpus Demo.git_fails
           "https://example.invalid/nothing" None (Some "MIT")
           Demo.world [] (CalledProcessError 128) eq_refl eq_refl eq_refl).
Defined.

(** ** The API of the host *)

Lemma lru_cache_miss (f : Key -> M (option ShortLicense)) (k : Key)
      (w : World) :
  cache_get k (cache w) = None ->
  lru_cache f k w =
  match f k w with
  | (Return v, w') => (Return v, set_cache w' (cache_store k v (cache w')))
  | (Raise e, w') => (Raise e, w')
  end.
Proof.
  intro H. unfold lru_cache. now rewrite H.
Qed.

Lemma lru_cache_hit (f : Key -> M (option ShortLicense)) (k : Key)
      (w : World) (v : option ShortLicense) :
  cache_get k (cache w) = Some v ->
  lru_cache f k w = (Return v, set_cache w (cache_touch k v (cache w))).
Proof.
  intro H. unfold lru_cache. now rewrite H.
Qed.

Section Api.
Variable cwd : string.
Variable tempdir : string.
Variable network : nat -> string -> result Response.
Variable b64decode_utf8 : string -> result string.

Lemma wrapped_not_ok (github_url : string) (version default : option string)
      (w : World) (url : string) (response : Response) :
  _get_api_github_url github_url version = Return url ->
  network (List.length (requests w)) url = Return response ->
  status_code response <> 200%Z ->
  search_license_api_github_wrapped
    cwd tempdir network b64decode_utf8 (github_url, version, default) w
  = (Return None, mkWorld (root w) (requests w ++ [url])%list (cache w)).
Proof.
  intros Hurl Hnet Hst.
  unfold search_license_api_github_wrapped, bind, lift, requests_get, ret.
  rewrite Hurl, Hnet.
  apply Z.eqb_neq in Hst. now rewrite Hst.
Qed.

(** C7.  When the host answers the request of a call that is not served by
    the cache with a status other than 200, [search_license_api_github]
    returns [None]: the call has sent this one request and no other, and the
    result does not depend on which status it was.  The file system is
    untouched and [None] is what the cache stores. *)
Theorem api_status_not_ok_returns_none
        (github_url : string) (version default : option string)
        (w : World) (url : string) (response : Response) :
  cache_get (github_url, version, default) (cache w) = None ->
  _get_api_github_url github_url version = Return url ->
  network (List.length (requests w)) url = Return response ->
  status_code response <> 200%Z ->
  search_license_api_github
    cwd tempdir network b64decode_utf8 github_url version default w
  = (Return None,
     mkWorld (root w) (requests w ++ [url])%list
             (cache_store (github_url, version, default) None (cache w))).
Proof.
  intros Hmiss Hurl Hnet Hst. unfold search_license_api_github.
  rewrite lru_cache_miss by exact Hmiss.
  rewrite (wrapped_not_ok _ _ _ _ _ _ Hurl Hnet Hst). reflexivity.
Qed.
End Api.

Lemma api_status_not_ok_returns_none_witness :
  search_license_api_github
    Demo.cwd Demo.tempdir Demo.not_found Demo.b64decode_utf8
    "https://github.com/org/repo" (Some "v1.0") (Some "MIT") Demo.world
  = (Return None,
     mkWorld Demo.tree
             ["https://api.github.com/repos/org/repo/license?ref=v1.0"]
             [(("https://github.com/org/repo", Some "v1.0", Some "MIT"),
               None)]).
Proof.
  refine (api_status_not_ok_returns_none
            Demo.cwd Demo.tempdir Demo.not_found Demo.b64decode_utf8
            "https://github.com/org/repo" (Some "v1.0") (Some "MIT")
            Demo.world _ (mkResponse 404 (Raise JSONDecodeError))
            eq_refl eq_refl eq_refl _).
  discriminate.
Defined.

Section ApiOk.
Variable cwd : string.
Variable tempdir : string.
Variable network : nat -> string -> result Response.
Variable b64decode_utf8 : string -> result string.
Hypothesis cwd_absolute : startswith cwd "/" = true.

(** Writing a file into an empty directory succeeds. *)
Lemma write_text_new (w : World) (d n content : string) :
  plain_name n = true ->
  resolve cwd w d = Some (Dir []) ->
  exists w',
    write_text cwd (os_path_join d n) content w = (Return tt, w')
    /\ requests w' = requests w /\ cache w' = cache w.
Proof.
  intros Hn Hd. unfold write_text.
  rewrite eqb_empty_false
    by (apply os_path_join_nonempty, plain_nonempty, Hn).
  rewrite path_list_join by assumption.
  rewrite removelast_last.
  assert (Hlk : lookup_path (path_list cwd d) (root w) = Some (Dir [])).
  { unfold resolve in Hd. destruct (String.eqb d ""); [discriminate|].
    exact Hd. }
  rewrite Hlk.
  pose proof (lookup_fresh _ _ [] n Hlk eq_refl) as Hnone.
  destruct (path_list cwd d ++ [n])%list eqn:E.
  - now apply app_eq_nil in E as [_ E].
  - rewrite Hnone. eexists. split; [reflexivity|]. split; reflexivity.
Qed.

Lemma wrapped_ok (github_url : string) (version default : option string)
      (w : World) (entries : list (string * node)) (url : string)
      (fields : list (string * json)) (content : json) (text : string) :
  resolve cwd w tempdir = Some (Dir entries) ->
  _get_api_github_url github_url version = Return url ->
  network (List.length (requests w)) url
  = Return (mkResponse 200 (Return (JObj fields))) ->
  assoc "content" fields = Some content ->
  decode_content b64decode_utf8 content = Return text ->
  let file_path :=
    os_path_join
      (os_path_join tempdir (fresh_name "github-license-" (map fst entries)))
      "LICENSE" in
  fst (search_license_api_github_wrapped
         cwd tempdir network b64decode_utf8 (github_url, version, default) w)
  = match reported_name fields default with
    | Return spdx_id => Return (Some (mkShortLicense spdx_id file_path false))
    | Raise e => Raise e
    end.
Proof.
  intros Ht Hurl Hnet Hc Hdec file_path.
  unfold search_license_api_github_wrapped, bind, lift, requests_get, ret.
  rewrite Hurl, Hnet. cbn [status_code json_body Z.eqb Pos.eqb negb getitem].
  rewrite Hc, Hdec.
  set (w0 := mkWorld (root w) (requests w ++ [url])%list (cache w)).
  assert (Ht0 : resolve cwd w0 tempdir = Some (Dir entries)) by exact Ht.
  destruct (mkdtemp_spec cwd tempdir cwd_absolute "github-license-" w0 entries)
    as (w1 & Hmk & _ & _ & _ & Hdir & _);
    [reflexivity | simpl; lia | exact Ht0 |].
  rewrite Hmk.
  destruct (write_text_new w1 _ "LICENSE" text eq_refl Hdir)
    as (w2 & Hw & _ & _).
  rewrite Hw. unfold reported_name. cbn [dict_get].
  destruct (assoc "license" fields) as [license|]; cbn [dict_get assoc].
  - destruct license as [| | | | |license]; try reflexivity.
    cbn [dict_get]. destruct (assoc "spdx_id" license); reflexivity.
  - reflexivity.
Qed.

(** C9.  For an answer with status 200 whose document has a decodable
    [content], to a call that the cache does not serve and where the
    directory of temporary files exists: the default is the reported name
    when the key [license] is absent and when its object has no [spdx_id];
    an object with [spdx_id] gives that value; and a [license] that is
    [null] (or any value that is not an object) makes the call raise
    [AttributeError], the default is not returned. *)
Theorem api_default_name_and_null_license
        (github_url : string) (version default : option string)
        (w : World) (entries : list (string * node)) (url : string)
        (fields : list (string * json)) (content : json) (text : string) :
  cache_get (github_url, version, default) (cache w) = None ->
  resolve cwd w tempdir = Some (Dir entries) ->
  _get_api_github_url github_url version = Return url ->
  network (List.length (requests w)) url
  = Return (mkResponse 200 (Return (JObj fields))) ->
  assoc "content" fields = Some content ->
  decode_content b64decode_utf8 content = Return text ->
  let file_path :=
    os_path_join
      (os_path_join tempdir (fresh_name "github-license-" (map fst entries)))
      "LICENSE" in
  let found (spdx_id : json) : result (option ShortLicense) :=
    Return (Some (mkShortLicense spdx_id file_path false)) in
  fst (search_license_api_github
         cwd tempdir network b64decode_utf8 github_url version default w)
  = match assoc "license" fields with
    | None => found (of_opt_str default)
    | Some (JObj license) =>
        match assoc "spdx_id" license with
        | Some spdx_id => found spdx_id
        | None => found (of_opt_str default)
        end
    | Some _ => Raise AttributeError
    end.
Proof.
  intros Hmiss Ht Hurl Hnet Hc Hdec file_path found.
  unfold search_license_api_github. rewrite lru_cache_miss by exact Hmiss.
  pose proof (wrapped_ok github_url version default w entries url fields
                         content text Ht Hurl Hnet Hc Hdec) as H.
  cbv zeta in H. fold file_path in H.
  destruct (search_license_api_github_wrapped
              cwd tempdir network b64decode_utf8
              (github_url, version, default) w) as [[v|e] w'];
    cbn [fst] in *; rewrite H; unfold reported_name, found;
    destruct (assoc "license" fields) as [[| | | | |license]|];
    try reflexivity;
    destruct (assoc "spdx_id" license); reflexivity.
Qed.
End ApiOk.

(** On the demonstration world: the host reports an object without
    [spdx_id], and the default is the name. *)
Lemma api_default_name_and_null_license_witness :
  fst (search_license_api_github
         Demo.cwd Demo.tempdir Demo.found Demo.b64decode_utf8
         "https://github.com/org/repo" None (Some "MIT") Demo.world)
  = Return (Some (mkShortLicense (JStr "MIT")
                                 "/tmp/github-license-x/LICENSE" false)).
Proof.
  exact (api_default_name_and_null_license
           Demo.cwd Demo.tempdir Demo.found Demo.b64decode_utf8 eq_refl
           "https://github.com/org/repo" None (Some "MIT") Demo.world []
           "https://api.github.com/repos/org/repo/license"
           [("content", JStr "TUlU"); ("license", JObj [("key", JStr "mit")])]
           (JStr "TUlU") "MIT" eq_refl eq_refl eq_refl eq_refl eq_refl eq_refl).
Defined.

(** ** The cache *)

Lemma opt_eqb_eq (a b : option string) : opt_eqb a b = true <-> a = b.
Proof.
  destruct a as [x|], b as [y|]; cbn [opt_eqb]; split; intro H;
    try discriminate; try reflexivity.
  - apply String.eqb_eq in H. now subst.
  - injection H as ->. apply String.eqb_refl.
Qed.

Lemma key_eqb_eq (a b : Key) : key_eqb a b = true <-> a = b.
Proof.
  destruct a as [[u1 v1] d1], b as [[u2 v2] d2]. cbn [key_eqb]. split.
  - intro H. apply andb_prop in H as [H Hd]. apply andb_prop in H as [Hu Hv].
    apply String.eqb_eq in Hu. apply opt_eqb_eq in Hv, Hd. now subst.
  - intro H. injection H as -> -> ->.
    rewrite String.eqb_refl.
    now rewrite (proj2 (opt_eqb_eq v2 v2) eq_refl),
                (proj2 (opt_eqb_eq d2 d2) eq_refl).
Qed.

Lemma key_eqb_refl (k : Key) : key_eqb k k = true.
Proof. now apply key_eqb_eq. Qed.

Lemma key_eqb_neq (a b : Key) : key_eqb a b = false <-> a <> b.
Proof.
  split.
  - intros H ->. now rewrite key_eqb_refl in H.
  - intro H. destruct (key_eqb a b) eqn:E; [|reflexivity].
    now apply key_eqb_eq in E.
Qed.

Section CacheFacts.
Context {V : Type}.
Implicit Types (c : list (Key * V)) (k : Key) (v : V).

Lemma cache_get_none k c : cache_get k c = None -> ~ In k (map fst c).
Proof.
  induction c as [|[k' v'] c IH]; cbn [cache_get map fst In]; intro H.
  - tauto.
  - destruct (key_eqb k k') eqn:E; [discriminate|].
    apply key_eqb_neq in E. intros [Hk | Hin]; [now subst | now apply IH].
Qed.

Lemma before_incl k c : incl (before k c) (map fst c).
Proof.
  induction c as [|[k' v'] c IH]; cbn [before map fst].
  - apply incl_refl.
  - destruct (key_eqb k k'); [apply incl_nil_l|].
    apply incl_cons; [now left | now apply incl_tl].
Qed.

Lemma before_NoDup k c : NoDup (map fst c) -> NoDup (before k c).
Proof.
  induction c as [|[k' v'] c IH]; cbn [before map fst]; intro H.
  - constructor.
  - inversion H as [|? ? Hn Hc]; subst.
    destruct (key_eqb k k'); constructor; [|now apply IH].
    intro Hin. apply Hn. now apply (before_incl k c).
Qed.

Lemma cache_remove_incl k c : incl (map fst (cache_remove k c)) (map fst c).
Proof.
  induction c as [|[k' v'] c IH]; cbn [cache_remove map fst].
  - apply incl_refl.
  - destruct (key_eqb k k'); cbn [map fst].
    + apply incl_tl, incl_refl.
    + apply incl_cons; [now left | now apply incl_tl].
Qed.

Lemma cache_remove_NoDup k c :
  NoDup (map fst c) ->
  NoDup (map fst (cache_remove k c)) /\ ~ In k (map fst (cache_remove k c)).
Proof.
  induction c as [|[k' v'] c IH]; cbn [cache_remove map fst]; intro H.
  - split; [constructor | tauto].
  - inversion H as [|? ? Hn Hc]; subst.
    destruct (key_eqb k k') eqn:E; cbn [map fst].
    + apply key_eqb_eq in E. subst. auto.
    + destruct (IH Hc) as [H1 H2]. apply key_eqb_neq in E. split.
      * constructor; [|exact H1].
        intro Hin. apply Hn. now apply (cache_remove_incl k c).
      * intros [Hk | Hin]; [now subst | now apply H2].
Qed.

Lemma cache_remove_length k c v :
  cache_get k c = Some v ->
  S (List.length (cache_remove k c)) = List.length c.
Proof.
  induction c as [|[k' v'] c IH]; cbn [cache_get cache_remove List.length];
    intro H; [discriminate|].
  destruct (key_eqb k k'); [reflexivity|].
  cbn [List.length]. now rewrite IH.
Qed.

Lemma cache_get_remove_other k k' c :
  k <> k' -> cache_get k (cache_remove k' c) = cache_get k c.
Proof.
  intro Hne. induction c as [|[k0 v0] c IH]; cbn [cache_remove cache_get].
  - reflexivity.
  - destruct (key_eqb k' k0) eqn:E.
    + apply key_eqb_eq in E. subst k0.
      now rewrite (proj2 (key_eqb_neq k k') Hne).
    + cbn [cache_get]. now rewrite IH.
Qed.

Lemma before_remove_other k k' c :
  k <> k' -> incl (before k (cache_remove k' c)) (before k c).
Proof.
  intro Hne. induction c as [|[k0 v0] c IH]; cbn [cache_remove before].
  - apply incl_refl.
  - destruct (key_eqb k' k0) eqn:E.
    + apply key_eqb_eq in E. subst k0.
      rewrite (proj2 (key_eqb_neq k k') Hne). apply incl_tl, incl_refl.
    + cbn [before]. destruct (key_eqb k k0); [apply incl_refl|].
      apply incl_cons; [now left | now apply incl_tl].
Qed.

Lemma removelast_cons_cons {A : Type} (x y : A) (l : list A) :
  removelast (x :: y :: l) = x :: removelast (y :: l).
Proof. reflexivity. Qed.

Lemma removelast_cons {A : Type} (x : A) (l : list A) :
  l <> [] -> removelast (x :: l) = x :: removelast l.
Proof.
  destruct l; [congruence | reflexivity].
Qed.

(** The last entry can go when [k] is not the last. *)
Lemma removelast_keeps k v c :
  cache_get k c = Some v ->
  S (List.length (before k c)) < List.length c ->
  cache_get k (removelast c) = Some v
  /\ before k (removelast c) = before k c.
Proof.
  induction c as [|[k0 v0] c IH]; intros Hget Hlen; [discriminate|].
  cbn [cache_get before List.length] in Hget, Hlen.
  assert (Hc : c <> []).
  { intros ->. destruct (key_eqb k k0); cbn [before List.length] in Hlen; lia. }
  rewrite (removelast_cons _ c Hc). cbn [cache_get before].
  destruct (key_eqb k k0); [auto|].
  cbn [List.length] in Hlen.
  destruct IH as [H1 H2]; [exact Hget | lia |].
  now rewrite H1, H2.
Qed.

Lemma removelast_keys c :
  map fst (removelast c) = removelast (map fst c).
Proof.
  induction c as [|e c IH]; [reflexivity|].
  destruct c as [|e' c]; [reflexivity|].
  rewrite removelast_cons_cons. cbn [map] in *.
  rewrite IH. reflexivity.
Qed.

Lemma removelast_incl {A : Type} (l : list A) : incl (removelast l) l.
Proof.
  induction l as [|x l IH]; [apply incl_refl|].
  destruct l as [|y l]; [apply incl_nil_l|].
  rewrite removelast_cons_cons.
  apply incl_cons; [now left | now apply incl_tl].
Qed.

Lemma removelast_NoDup {A : Type} (l : list A) :
  NoDup l -> NoDup (removelast l).
Proof.
  induction l as [|x l IH]; intro H; [constructor|].
  destruct l as [|y l]; [constructor|].
  rewrite removelast_cons_cons. inversion H as [|? ? Hn Hl]; subst.
  constructor; [|now apply IH].
  intro Hin. apply Hn. now apply removelast_incl.
Qed.

Lemma removelast_length {A : Type} (l : list A) :
  l <> [] -> S (List.length (removelast l)) = List.length l.
Proof.
  induction l as [|x l IH]; intro H; [congruence|].
  destruct l as [|y l]; [reflexivity|].
  rewrite removelast_cons_cons. cbn [List.length] in *.
  rewrite IH by discriminate. reflexivity.
Qed.
End CacheFacts.

Section LruCache.
Variable f : Key -> M (option ShortLicense).
Hypothesis f_keeps_cache : forall k w, cache (snd (f k w)) = cache w.

(** One call with a key that is [k] or one of [others] leaves [k] cached,
    when [others] has fewer keys than the cache has places. *)
Lemma lru_cache_step (k : Key) (v : option ShortLicense)
      (others : list Key) (k' : Key) (w : World) :
  NoDup others -> List.length others < maxsize ->
  k' = k \/ In k' others ->
  cached_behind k v others (cache w) ->
  cached_behind k v others (cache (snd (lru_cache f k' w))).
Proof.
  intros Hnd Hlen Hk' (Hget & [Hkeys Hsize] & Hincl).
  unfold lru_cache.
  destruct (cache_get k' (cache w)) as [v'|] eqn:Hget'.
  - (* a hit: [k'] moves to the front *)
    cbn [snd set_cache cache]. unfold cache_touch.
    destruct (cache_remove_NoDup k' _ Hkeys) as [Hnd' Hnotin].
    pose proof (cache_remove_length k' _ v' Hget') as Hl.
    assert (Hwf : cache_wf ((k', v') :: cache_remove k' (cache w))).
    { split.
      - cbn [map fst]. now constructor.
      - cbn [List.length]. lia. }
    destruct (key_eqb k k') eqn:E.
    + apply key_eqb_eq in E. subst k'.
      rewrite Hget in Hget'. injection Hget' as <-.
      repeat split; try apply Hwf.
      * cbn [cache_get]. now rewrite key_eqb_refl.
      * cbn [before]. rewrite key_eqb_refl. apply incl_nil_l.
    + pose proof (proj1 (key_eqb_neq _ _) E) as Hne.
      repeat split; try apply Hwf.
      * cbn [cache_get]. rewrite E.
        now rewrite cache_get_remove_other.
      * cbn [before]. rewrite E. apply incl_cons.
        -- destruct Hk' as [-> | Hin]; [congruence | exact Hin].
        -- eapply incl_tran; [now apply before_remove_other | exact Hincl].
  - (* a miss: [f] runs *)
    pose proof (f_keeps_cache k' w) as Hkeep.
    destruct (f k' w) as [[v'|e] w'] eqn:Ef; cbn [snd] in Hkeep |- *.
    2:{ rewrite Hkeep. repeat split; assumption. }
    cbn [set_cache cache]. rewrite Hkeep. unfold cache_store.
    rewrite Hget'.
    assert (Hne : key_eqb k k' = false).
    { apply key_eqb_neq. intros ->. congruence. }
    pose proof (cache_get_none _ _ Hget') as Hnotin.
    assert (Hin' : In k' others).
    { destruct Hk' as [-> | Hin]; [|exact Hin].
      rewrite key_eqb_refl in Hne. discriminate. }
    destruct (maxsize <=? List.length (cache w))%nat eqn:Efull.
    + (* the cache is full: its last entry goes, and that is not [k] *)
      apply Nat.leb_le in Efull.
      assert (Hb : S (List.length (before k (cache w))) < List.length (cache w)).
      { assert (Hb : NoDup (k' :: before k (cache w))).
        { constructor; [|now apply before_NoDup].
          intro Hin. apply Hnotin. now apply (before_incl k). }
        apply NoDup_incl_length with (l' := others) in Hb.
        - cbn [List.length] in Hb. lia.
        - apply incl_cons; assumption. }
      destruct (removelast_keeps k v _ Hget Hb) as [Hg Hbefore].
      assert (Hc : cache w <> []) by (intro E; rewrite E in Hget; discriminate).
      repeat split.
      * cbn [cache_get]. now rewrite Hne.
      * cbn [map fst]. constructor.
        -- rewrite removelast_keys. intro Hin. apply Hnotin.
           now apply removelast_incl.
        -- rewrite removelast_keys. now apply removelast_NoDup.
      * cbn [List.length]. rewrite (removelast_length _ Hc). exact Hsize.
      * cbn [before]. rewrite Hne, Hbefore. now apply incl_cons.
    + apply Nat.leb_gt in Efull.
      repeat split.
      * cbn [cache_get]. now rewrite Hne.
      * cbn [map fst]. now constructor.
      * cbn [List.length]. lia.
      * cbn [before]. rewrite Hne. now apply incl_cons.
Qed.

Lemma lru_cache_steps (k : Key) (v : option ShortLicense)
      (others : list Key) (ks : list Key) :
  NoDup others -> List.length others < maxsize ->
  Forall (fun k' => k' = k \/ In k' others) ks ->
  forall w,
    cached_behind k v others (cache w) ->
    cached_behind k v others (cache (run_calls f ks w)).
Proof.
  intros Hnd Hlen Hks. unfold run_calls.
  induction Hks as [|k' ks Hk' _ IH]; intros w Hw; cbn [fold_left].
  - exact Hw.
  - apply IH. now apply lru_cache_step.
Qed.

(** A call that returns leaves its result at the front of the cache. *)
Lemma lru_cache_returns (k : Key) (v : option ShortLicense) (w w1 : World)
      (others : list Key) :
  cache_wf (cache w) ->
  lru_cache f k w = (Return v, w1) ->
  cached_behind k v others (cache w1).
Proof.
  intros Hwf Hcall.
  assert (Hstep : cached_behind k v [] (cache w1)
                  -> cached_behind k v others (cache w1)).
  { intros (H1 & H2 & H3). repeat split; try apply H2; try assumption.
    eapply incl_tran; [exact H3 | apply incl_nil_l]. }
  apply Hstep. clear Hstep.
  destruct Hwf as [Hkeys Hsize]. unfold lru_cache in Hcall.
  destruct (cache_get k (cache w)) as [v'|] eqn:Hget.
  - injection Hcall as <- <-. cbn [set_cache cache]. unfold cache_touch.
    destruct (cache_remove_NoDup k _ Hkeys) as [Hnd' Hnotin].
    pose proof (cache_remove_length k _ v' Hget) as Hl.
    repeat split.
    + cbn [cache_get]. now rewrite key_eqb_refl.
    + cbn [map fst]. now constructor.
    + cbn [List.length]. lia.
    + cbn [before]. rewrite key_eqb_refl. apply incl_refl.
  - pose proof (f_keeps_cache k w) as Hkeep.
    destruct (f k w) as [[v'|e] w'] eqn:Ef; [|discriminate].
    injection Hcall as <- <-. cbn [snd] in Hkeep.
    cbn [set_cache cache]. rewrite Hkeep. unfold cache_store. rewrite Hget.
    pose proof (cache_get_none _ _ Hget) as Hnotin.
    destruct (maxsize <=? List.length (cache w))%nat eqn:Efull.
    + assert (Hc : cache w <> []).
      { apply Nat.leb_le in Efull. intro E. rewrite E in Efull.
        cbn in Efull. unfold maxsize in Efull. lia. }
      repeat split.
      * cbn [cache_get]. now rewrite key_eqb_refl.
      * cbn [map fst]. rewrite removelast_keys. constructor.
        -- intro Hin. apply Hnotin. now apply removelast_incl.
        -- now apply removelast_NoDup.
      * cbn [List.length]. rewrite (removelast_length _ Hc). exact Hsize.
      * cbn [before]. rewrite key_eqb_refl. apply incl_refl.
    + apply Nat.leb_gt in Efull. repeat split.
      * cbn [cache_get]. now rewrite key_eqb_refl.
      * cbn [map fst]. now constructor.
      * cbn [List.length]. lia.
      * cbn [before]. rewrite key_eqb_refl. apply incl_refl.
Qed.

(** Between two calls with the key [k], calls with fewer than [maxsize]
    other keys do not evict the result: the second call is a hit. *)
Lemma lru_cache_memo (k : Key) (v : option ShortLicense) (w w1 : World)
      (others ks : list Key) :
  cache_wf (cache w) ->
  lru_cache f k w = (Return v, w1) ->
  NoDup others -> List.length others < maxsize ->
  Forall (fun k' => k' = k \/ In k' others) ks ->
  let w2 := run_calls f ks w1 in
  lru_cache f k w2 = (Return v, set_cache w2 (cache_touch k v (cache w2))).
Proof.
  intros Hwf Hcall Hnd Hlen Hks w2.
  apply lru_cache_hit.
  apply (lru_cache_steps k v others ks Hnd Hlen Hks w1).
  now apply (lru_cache_returns k v w).
Qed.
End LruCache.

(** The function under the decorator does not touch the cache. *)
Lemma wrapped_keeps_cache (cwd tempdir : string)
      (network : nat -> string -> result Response)
      (b64decode_utf8 : string -> result string) (k : Key) (w : World) :
  cache (snd (search_license_api_github_wrapped
                cwd tempdir network b64decode_utf8 k w))
  = cache w.
Proof.
  destruct k as [[github_url version] default].
  unfold search_license_api_github_wrapped, bind, lift, ret, requests_get.
  destruct (_get_api_github_url github_url version) as [url|]; [|reflexivity].
  destruct (network (List.length (requests w)) url) as [response|];
    [|reflexivity].
  destruct (negb (status_code response =? 200)%Z); [reflexivity|].
  destruct (json_body response) as [json_content|]; [|reflexivity].
  destruct (getitem json_content "content") as [content|]; [|reflexivity].
  destruct (decode_content b64decode_utf8 content) as [text|]; [|reflexivity].
  set (w0 := mkWorld (root w) (requests w ++ [url])%list (cache w)).
  assert (Hmk : forall p, cache (snd (mkdtemp cwd tempdir p w0)) = cache w).
  { intro p. unfold mkdtemp.
    destruct (resolve cwd w0 tempdir) as [[c|es]|]; reflexivity. }
  specialize (Hmk "github-license-").
  destruct (mkdtemp cwd tempdir "github-license-" w0) as [[tmp|e] w1];
    cbn [snd] in Hmk; [|exact Hmk].
  assert (Hwr : forall p c, cache (snd (write_text cwd p c w1)) = cache w).
  { intros p c. unfold write_text.
    destruct (String.eqb p ""); [exact Hmk|].
    destruct (lookup_path (removelast (path_list cwd p)) (root w1))
      as [[x|es]|]; try exact Hmk.
    destruct (path_list cwd p); [exact Hmk|].
    destruct (lookup_path (s :: l) (root w1)) as [[x|es']|]; exact Hmk. }
  specialize (Hwr (os_path_join tmp "LICENSE") text).
  destruct (write_text cwd (os_path_join tmp "LICENSE") text w1)
    as [[u|e] w2]; cbn [snd] in Hwr; [|exact Hwr].
  destruct (dict_get json_content "license" (JObj [])) as [license|];
    [|exact Hwr].
  destruct (dict_get license "spdx_id" (of_opt_str default)); exact Hwr.
Qed.

(** C2, as stated, fails twice.  The default is part of the key: two calls
    with one URL and one revision and two defaults send two requests.  And
    the cache has thirteen places: after calls for thirteen other
    repositories the first result is gone, and the same call sends its
    request again. *)
Lemma one_request_per_url_and_revision_counterexample :
  requests (snd (Demo.api Demo.repo None (Some "Apache-2.0")
                   (snd (Demo.api Demo.repo None (Some "MIT") Demo.world))))
  = [Demo.repo_api; Demo.repo_api]
  /\ (let w1 := snd (Demo.api Demo.repo None (Some "MIT") Demo.world) in
      let w2 := Demo.other_calls w1 in
      let w3 := snd (Demo.api Demo.repo None (Some "MIT") w2) in
      requests w1 = [Demo.repo_api]
      /\ List.length (requests w2) = 14
      /\ requests w3 = (requests w2 ++ [Demo.repo_api])%list).
Proof.
  split; [vm_compute; reflexivity|].
  cbv zeta.
  split; [vm_compute; reflexivity|].
  split; vm_compute; reflexivity.
Qed.

(** C2, amended.  [search_license_api_github] is memoized on its three
    arguments by a cache of thirteen entries that drops the least recently
    used one: after a call that returned, and any further calls that use
    at most twelve other triples, the same call returns the same result
    without a request to the host and without a change of the file
    system. *)
Theorem api_memoized_by_lru_cache
        (cwd tempdir : string)
        (network : nat -> string -> result Response)
        (b64decode_utf8 : string -> result string)
        (github_url : string) (version default : option string)
        (v : option ShortLicense) (w w1 : World) (others ks : list Key) :
  cache_wf (cache w) ->
  search_license_api_github cwd tempdir network b64decode_utf8
                            github_url version default w
  = (Return v, w1) ->
  NoDup others -> List.length others < maxsize ->
  Forall (fun k => k = (github_url, version, default) \/ In k others) ks ->
  let w2 :=
    run_calls (search_license_api_github_wrapped
                 cwd tempdir network b64decode_utf8) ks w1 in
  let out := search_license_api_github cwd tempdir network b64decode_utf8
                                       github_url version default w2 in
  fst out = Return v
  /\ requests (snd out) = requests w2
  /\ root (snd out) = root w2.
Proof.
  intros Hwf Hcall Hnd Hlen Hks w2 out. unfold out, w2.
  unfold search_license_api_github in *.
  rewrite (lru_cache_memo _ (wrapped_keeps_cache cwd tempdir network
                                                 b64decode_utf8)
                          _ v w w1 others ks Hwf Hcall Hnd Hlen Hks).
  repeat split.
Qed.

(** On the demonstration world: two other repositories are asked about
    between the two calls. *)
Lemma api_memoized_by_lru_cache_witness :
  let w1 := snd (Demo.api Demo.repo None (Some "MIT") Demo.world) in
  let ks := [("https://github.com/org/a", None, None);
             (Demo.repo, None, Some "MIT");
             ("https://github.com/org/b", Some "v2", None)] in
  let w2 :=
    run_calls (search_license_api_github_wrapped
                 Demo.cwd Demo.tempdir Demo.not_found Demo.b64decode_utf8)
              ks w1 in
  let out := Demo.api Demo.repo None (Some "MIT") w2 in
  fst out = Return None
  /\ requests (snd out) = requests w2
  /\ root (snd out) = root w2.
Proof.
  refine (api_memoized_by_lru_cache
            Demo.cwd Demo.tempdir Demo.not_found Demo.b64decode_utf8
            Demo.repo None (Some "MIT") None Demo.world
            (snd (Demo.api Demo.repo None (Some "MIT") Demo.world))
            [("https://github.com/org/a", None, None);
             ("https://github.com/org/b", Some "v2", None)]
            [("https://github.com/org/a", None, None);
             (Demo.repo, None, Some "MIT");
             ("https://github.com/org/b", Some "v2", None)]
            _ _ _ _ _).
  - split; [constructor | unfold maxsize; simpl; lia].
  - vm_compute. reflexivity.
  - constructor; [|constructor; [|constructor]].
    + intros [H | []]. discriminate H.
    + intros [].
  - unfold maxsize. simpl. lia.
  - constructor; [right; left; reflexivity|].
    constructor; [left; reflexivity|].
    constructor; [right; right; left; reflexivity|].
    constructor.
Defined.

(** ** The path of a packaged license *)

Lemma split_nonempty (sep : ascii) (s : string) : split sep s <> [].
Proof.
  destruct s as [|c s]; cbn [split]; [discriminate|].
  destruct (Ascii.eqb c sep); [discriminate|].
  destruct (split sep s); discriminate.
Qed.

Lemma split_cons_other (sep c : ascii) (s : string) :
  Ascii.eqb c sep = false ->
  exists w ws, split sep s = w :: ws
               /\ split sep (String c s) = String c w :: ws.
Proof.
  intro H. cbn [split]. rewrite H.
  destruct (split sep s) as [|w ws] eqn:E.
  - now apply split_nonempty in E.
  - eauto.
Qed.

(** Replacing the backslashes by slashes and splitting at the slashes is
    splitting at both. *)
Lemma split_replace (s : string) :
  split slash (replace_char backslash "/" s)
  = flat_map (split backslash) (split slash s).
Proof.
  induction s as [|c s IH]; [reflexivity|].
  cbn [replace_char].
  destruct (Ascii.eqb c backslash) eqn:Eb.
  - apply Ascii.eqb_eq in Eb. subst c.
    destruct (split_cons_other slash backslash s eq_refl) as (w & ws & E1 & E2).
    rewrite E2. change ("/" ++ replace_char backslash "/" s)
      with (String "/" (replace_char backslash "/" s)).
    cbn [split flat_map]. change (Ascii.eqb "/" slash) with true.
    cbn iota. rewrite IH, E1. cbn [flat_map].
    change (Ascii.eqb backslash backslash) with true. cbn iota.
    reflexivity.
  - destruct (Ascii.eqb c slash) eqn:Es.
    + cbn [split]. rewrite Es, IH. reflexivity.
    + destruct (split_cons_other slash c s Es) as (w & ws & E1 & E2).
      rewrite E2. cbn [flat_map].
      destruct (split_cons_other backslash c w Eb) as (x & xs & E3 & E4).
      rewrite E4. cbn [split]. rewrite Es, IH, E1. cbn [flat_map].
      rewrite E3. reflexivity.
Qed.

Lemma join_split (s : string) : join "/" (split slash s) = s.
Proof.
  induction s as [|c s IH]; [reflexivity|].
  cbn [split]. destruct (Ascii.eqb c slash) eqn:Es.
  - apply Ascii.eqb_eq in Es. subst c.
    destruct (split slash s) as [|w ws] eqn:E.
    + now apply split_nonempty in E.
    + change (join "/" ("" :: w :: ws)) with ("" ++ "/" ++ join "/" (w :: ws)).
      rewrite IH. reflexivity.
  - destruct (split slash s) as [|w ws] eqn:E.
    + now apply split_nonempty in E.
    + destruct ws as [|w' ws].
      * cbn [join concat] in *. now rewrite IH.
      * change (join "/" (String c w :: w' :: ws))
          with (String c (w ++ "/" ++ join "/" (w' :: ws))).
        change (join "/" (w :: w' :: ws))
          with (w ++ "/" ++ join "/" (w' :: ws)) in IH.
        now rewrite IH.
Qed.

Lemma common_len_app (l x : list string) :
  common_len l (l ++ x) = List.length l.
Proof.
  induction l as [|a l IH]; cbn [common_len app List.length].
  - destruct x; reflexivity.
  - now rewrite String.eqb_refl, IH.
Qed.

Lemma skipn_app_length {A : Type} (l x : list A) :
  skipn (List.length l) (l ++ x) = x.
Proof.
  induction l as [|a l IH]; [reflexivity | exact IH].
Qed.

Lemma no_slash_not_endswith (n : string) :
  no_slash n = true -> endswith n "/" = false.
Proof.
  unfold no_slash. induction n as [|c n IH]; cbn [str_all endswith]; intro H.
  - reflexivity.
  - apply andb_prop in H as [Hc Hn]. rewrite (IH Hn), orb_false_r.
    apply String.eqb_neq. intro E. injection E as -> _. discriminate.
Qed.

Lemma plain_is_comp (n : string) : plain_name n = true -> is_comp n = true.
Proof.
  intro H. unfold is_comp.
  rewrite (plain_no_slash n H), (eqb_empty_false n (plain_nonempty n H)).
  reflexivity.
Qed.

(** [os.path.join] of plain names puts a slash between them. *)
Lemma os_path_join_names (names : list string) :
  forall a,
    a <> "" -> endswith a "/" = false -> Forall (fun n => plain_name n = true) names ->
    fold_left os_path_join names a = join "/" (a :: names).
Proof.
  induction names as [|b names IH]; intros a Ha He Hn; [reflexivity|].
  inversion Hn as [|? ? Hb Hns]; subst.
  cbn [fold_left].
  rewrite (os_path_join_rel a b Ha (plain_not_abs b Hb)), He.
  rewrite IH.
  - destruct names as [|c names].
    + reflexivity.
    + change (join "/" ((a ++ "/" ++ b) :: c :: names))
        with ((a ++ "/" ++ b) ++ "/" ++ join "/" (c :: names)).
      change (join "/" (a :: b :: c :: names))
        with (a ++ "/" ++ b ++ "/" ++ join "/" (c :: names)).
      now rewrite !str_app_assoc.
  - now apply app_nonempty_l.
  - change (a ++ "/" ++ b) with (a ++ ("/" ++ b)).
    rewrite <- (str_app_assoc a "/" b).
    rewrite (endswith_app_nonempty (a ++ "/") b (plain_nonempty b Hb)).
    apply no_slash_not_endswith, plain_no_slash, Hb.
  - exact Hns.
Qed.

Section Packaged.
Variable cwd : string.
Hypothesis cwd_absolute : startswith cwd "/" = true.

Lemma path_list_names (names : list string) :
  forall top,
    Forall (fun n => plain_name n = true) names ->
    path_list cwd (fold_left os_path_join names top)
    = (path_list cwd top ++ names)%list.
Proof.
  induction names as [|n names IH]; intros top Hn; cbn [fold_left].
  - now rewrite app_nil_r.
  - inversion Hn as [|? ? Hn1 Hns]; subst.
    rewrite IH by exact Hns.
    rewrite path_list_join by assumption.
    now rewrite <- app_assoc.
Qed.

Lemma fold_join_nonempty (names : list string) :
  forall top,
    Forall (fun n => plain_name n = true) names -> names <> [] ->
    fold_left os_path_join names top <> "".
Proof.
  induction names as [|n names IH]; intros top Hn Hne; [congruence|].
  inversion Hn as [|? ? Hn1 Hns]; subst. cbn [fold_left].
  destruct names as [|m names].
  - apply os_path_join_nonempty, plain_nonempty, Hn1.
  - apply IH; [exact Hns | discriminate].
Qed.

(** The path of a file below the folder, relative to the folder. *)
Lemma relpath_names (names : list string) (top : string) :
  Forall (fun n => plain_name n = true) names -> names <> [] ->
  relpath cwd (fold_left os_path_join names top) top
  = Return (join "/" names).
Proof.
  intros Hn Hne. unfold relpath.
  rewrite eqb_empty_false by now apply fold_join_nonempty.
  rewrite path_list_names by exact Hn.
  rewrite common_len_app, Nat.sub_diag, skipn_app_length.
  cbn [repeat app].
  destruct names as [|a names]; [congruence|].
  inversion Hn as [|? ? Ha Hns]; subst.
  unfold os_path_join_all.
  rewrite os_path_join_names; try assumption.
  - reflexivity.
  - apply plain_nonempty, Ha.
  - apply no_slash_not_endswith, plain_no_slash, Ha.
Qed.

Lemma join_drop_root_split (p : string) :
  (if (1 <? List.length (split slash p))%nat
   then join "/" (tl (split slash p)) else p)
  = join "/" (drop_root (split slash p)).
Proof.
  unfold drop_root.
  destruct (1 <? List.length (split slash p))%nat; [reflexivity|].
  now rewrite join_split.
Qed.

(** What [search_license_file] makes of the path of a file found below the
    folder. *)
Lemma packaged_path_names (names : list string) (top : string) :
  Forall (fun n => plain_name n = true) names -> names <> [] ->
  packaged_path cwd (fold_left os_path_join names top) top
  = Return (packaged_location names).
Proof.
  intros Hn Hne. unfold packaged_path, packaged_location.
  rewrite relpath_names by assumption.
  rewrite join_drop_root_split, split_replace, split_join.
  - reflexivity.
  - eapply Forall_impl; [|exact Hn]. apply plain_is_comp.
  - exact Hne.
Qed.
End Packaged.

(** ** The walk *)

Lemma wf_entries (entries : list (string * node)) :
  wf_node (Dir entries) = true ->
  Forall (fun e => plain_name (fst e) = true /\ wf_node (snd e) = true)
         entries.
Proof.
  cbn [wf_node]. intro H. apply Forall_forall. intros e He.
  rewrite forallb_forall in H. specialize (H e He).
  now apply andb_prop in H.
Qed.

Lemma filenames_plain (entries : list (string * node)) :
  wf_node (Dir entries) = true ->
  Forall (fun n => plain_name n = true) (filenames entries).
Proof.
  intro H. apply wf_entries in H. unfold filenames.
  apply Forall_map. apply Forall_forall. intros e He.
  apply filter_In in He as [He _].
  rewrite Forall_forall in H. now apply H.
Qed.

(** Every directory [os.walk] reports lies below the top, at plain names,
    and holds files of plain names. *)
Lemma walk_paths (n : node) :
  wf_node n = true ->
  forall top dir dn fn,
    In (dir, dn, fn) (walk top n) ->
    exists ds,
      dir = fold_left os_path_join ds top
      /\ Forall (fun d => plain_name d = true) ds
      /\ Forall (fun f => plain_name f = true) fn.
Proof.
  induction n as [content | entries IH] using node_tree_ind;
    intros Hwf top dir dn fn Hin.
  - destruct Hin.
  - cbn [walk] in Hin. destruct Hin as [Hhead | Htail].
    + injection Hhead as <- <- <-. exists []. repeat split.
      * constructor.
      * now apply filenames_plain.
    + apply in_flat_map in Htail as (e & He & Hin).
      rewrite Forall_forall in IH.
      pose proof (wf_entries _ Hwf) as Hes. rewrite Forall_forall in Hes.
      destruct (Hes e He) as [Hplain Hchild].
      destruct (IH e He Hchild _ _ _ _ Hin) as (ds & -> & Hds & Hfn).
      exists (fst e :: ds). repeat split; [now constructor | exact Hfn].
Qed.

Lemma first_license_file_in
      (walked : list (string * list string * list string))
      (dir f : string) :
  first_license_file walked = Some (dir, f) ->
  exists dn fn,
    In (dir, dn, fn) walked /\ In f fn /\ is_license_filename f = true.
Proof.
  induction walked as [|[[d dn] fn] walked IH]; cbn [first_license_file];
    intro H; [discriminate|].
  destruct (find is_license_filename fn) as [one_file|] eqn:E.
  - injection H as <- <-. apply find_some in E as [Hin Hm].
    exists dn, fn. repeat split; [now left | exact Hin | exact Hm].
  - destruct (IH H) as (dn' & fn' & Hin & Hf & Hm).
    exists dn', fn'. repeat split; [now right | exact Hf | exact Hm].
Qed.

(** ** The best match, given *)

Section BestMatchAt.
Variable scorer : string -> string -> nat.
Variable query : string.

Lemma best_of_keeps (t : string) (l2 : list string) :
  Forall (fun c => scorer query c <= scorer query t) l2 ->
  best_of scorer query (t, scorer query t) l2 = (t, scorer query t).
Proof.
  induction 1 as [|c l2 Hc _ IH]; cbn [best_of snd]; [reflexivity|].
  apply Nat.ltb_ge in Hc. now rewrite Hc.
Qed.

Lemma best_of_reaches (t : string) (l1 l2 : list string) :
  Forall (fun c => scorer query c < scorer query t) l1 ->
  Forall (fun c => scorer query c <= scorer query t) l2 ->
  forall b,
    snd b < scorer query t ->
    best_of scorer query b (l1 ++ t :: l2) = (t, scorer query t).
Proof.
  intros H1 H2. induction H1 as [|c l1 Hc _ IH]; intros b Hb; cbn [app best_of].
  - apply Nat.ltb_lt in Hb. rewrite Hb. now apply best_of_keeps.
  - destruct (snd b <? scorer query c)%nat; now apply IH.
Qed.

Lemma extractOne_at (t : string) (l1 l2 : list string) :
  Forall (fun c => scorer query c < scorer query t) l1 ->
  Forall (fun c => scorer query c <= scorer query t) l2 ->
  extractOne scorer query (l1 ++ t :: l2) = Some (t, scorer query t).
Proof.
  intros H1 H2. destruct l1 as [|c l1]; cbn [app extractOne].
  - now rewrite best_of_keeps.
  - inversion H1 as [|? ? Hc Hl1]; subst.
    now rewrite best_of_reaches.
Qed.
End BestMatchAt.

Lemma get_license_type_at
      (cwd : string) (scorer : string -> string -> nat)
      (all_licenses before after : list (string * string))
      (id best : string) (p : string) (default : option string)
      (w : World) (text : string) :
  read_text cwd p w = (Return text, w) ->
  all_licenses = (before ++ (id, best) :: after)%list ->
  Forall (fun e => scorer text (snd e) < scorer text best) before ->
  Forall (fun e => scorer text (snd e) <= scorer text best) after ->
  get_license_type cwd scorer all_licenses p default w
  = (Return (if truthy default && (scorer text best <? 76)%nat
             then default else Some id), w).
Proof.
  intros Hread -> F1 F2. unfold get_license_type, bind. rewrite Hread.
  rewrite map_app. cbn [map snd].
  rewrite extractOne_at by now apply Forall_map.
  unfold lift, ret.
  rewrite (index_first scorer text) by now apply Forall_map.
  rewrite length_map, nth_error_middle. cbn [fst].
  destruct (truthy default); cbn [andb]; [|reflexivity].
  destruct (scorer text best <? 76)%nat; reflexivity.
Qed.

(** ** The entry point *)

Lemma lookup_child (l : list string) :
  forall r es n x,
    lookup_path l r = Some (Dir es) -> assoc n es = Some x ->
    lookup_path (l ++ [n]) r = Some x.
Proof.
  induction l as [|c l IH]; intros r es n x H Hn.
  - cbn [lookup_path] in H. injection H as ->.
    cbn [app lookup_path]. now rewrite Hn.
  - cbn [lookup_path] in H. destruct r as [|es0]; [discriminate|].
    destruct (assoc c es0) as [child|] eqn:E; [|discriminate].
    cbn [app lookup_path]. rewrite E. eapply IH; eassumption.
Qed.

Section EntryPoint.
Variable cwd : string.
Variable tempdir : string.
Variable scorer : string -> string -> nat.
Variable all_licenses : list (string * string).
Variable os_api_get : string -> option License.
Variable os_api_all : list License.
Variable network : nat -> string -> result Response.
Variable b64decode_utf8 : string -> result string.
Variable git : list string -> result (list (string * node)).
Hypothesis cwd_absolute : startswith cwd "/" = true.

Lemma search_license_file_found
      (folder_path : string) (git_url version license_name_metadata : option string)
      (default : option string) (w : World)
      (ds : list string) (f : string) (license_type : option string) :
  declared_default scorer os_api_get os_api_all license_name_metadata
      = Return default ->
  first_license_file (os_walk cwd w folder_path)
  = Some (fold_left os_path_join ds folder_path, f) ->
  Forall (fun n => plain_name n = true) (ds ++ [f]) ->
  fst (get_license_type cwd scorer all_licenses
         (os_path_join (fold_left os_path_join ds folder_path) f) default w)
  = Return license_type ->
  search_license_file cwd tempdir scorer all_licenses os_api_get os_api_all
                      network b64decode_utf8 git
                      folder_path git_url version license_name_metadata w
  = (Return (Some (mkShortLicense (of_opt_str license_type)
                                  (packaged_location (ds ++ [f])) true)),
     w).
Proof.
  intros Hmeta Hfirst Hplain Htype.
  unfold search_license_file, bind, lift.
  unfold declared_default in Hmeta. rewrite Hmeta.
  unfold search_license_folder. rewrite Hfirst. unfold bind, ret.
  pose proof (get_license_type_world cwd scorer all_licenses
                (os_path_join (fold_left os_path_join ds folder_path) f)
                default w) as Hw.
  destruct (get_license_type cwd scorer all_licenses
              (os_path_join (fold_left os_path_join ds folder_path) f)
              default w) as [r w'].
  cbn [fst snd] in Htype, Hw. subst r w'.
  cbn [path name].
  change (os_path_join (fold_left os_path_join ds folder_path) f)
    with (fold_left os_path_join [f] (fold_left os_path_join ds folder_path)).
  rewrite <- fold_left_app.
  rewrite (packaged_path_names cwd cwd_absolute) by
      (assumption || (destruct ds; discriminate)).
  reflexivity.
Qed.

(** The path of a license at the top of the folder stays; below a
    directory it loses the name of the first directory; and a backslash in
    a name separates like a slash. *)
Lemma packaged_location_examples :
  packaged_location ["LICENSE.txt"] = "LICENSE.txt"
  /\ packaged_location ["pkg-1.0"; "LICENSE"] = "LICENSE"
  /\ packaged_location ["pkg-1.0"; "docs"; "COPYING"] = "docs/COPYING"
  /\ packaged_location [String "a" (String backslash "b")] = "b".
Proof.
  repeat split.
Qed.

(** C5.  When the scanner finds a license file in the folder, whose
    directories bear plain names, [search_license_file] returns it with
    [is_packaged] set and with the path that leads to it from the folder,
    written with slashes and without its first segment unless it has only
    one.  In particular a folder that contains only [LICENSE.txt], with a
    text whose best match in the corpus is MIT, gives the name [MIT], the
    flag set and the path [LICENSE.txt]. *)
Theorem search_license_file_packaged :
  (forall (folder_path : string)
          (git_url version license_name_metadata default : option string)
          (w : World) (entries : list (string * node))
          (dir f : string) (license_type : option string),
      declared_default scorer os_api_get os_api_all license_name_metadata
      = Return default ->
      resolve cwd w folder_path = Some (Dir entries) ->
      wf_node (Dir entries) = true ->
      first_license_file (os_walk cwd w folder_path) = Some (dir, f) ->
      fst (get_license_type cwd scorer all_licenses
                            (os_path_join dir f) default w)
      = Return license_type ->
      exists ds,
        dir = fold_left os_path_join ds folder_path
        /\ Forall (fun n => plain_name n = true) (ds ++ [f])
        /\ search_license_file
             cwd tempdir scorer all_licenses os_api_get os_api_all
             network b64decode_utf8 git
             folder_path git_url version license_name_metadata w
           = (Return (Some (mkShortLicense
                              (of_opt_str license_type)
                              (packaged_location (ds ++ [f])) true)),
              w))
  /\ (forall (folder_path : string) (git_url version : option string)
             (w : World) (mit_text : string)
             (before after : list (string * string)),
         resolve cwd w folder_path
         = Some (Dir [("LICENSE.txt", File mit_text)]) ->
         all_licenses = (before ++ ("MIT", mit_text) :: after)%list ->
         Forall (fun e => scorer mit_text (snd e)
                          < scorer mit_text mit_text) before ->
         Forall (fun e => scorer mit_text (snd e)
                          <= scorer mit_text mit_text) after ->
         search_license_file
           cwd tempdir scorer all_licenses os_api_get os_api_all
           network b64decode_utf8 git folder_path git_url version None w
         = (Return (Some (mkShortLicense (JStr "MIT") "LICENSE.txt" true)),
            w)).
Proof.
  split.
  - intros folder_path git_url version license_name_metadata default w
           entries dir f license_type Hmeta Hres Hwf Hfirst Htype.
    destruct (first_license_file_in _ _ _ Hfirst) as (dn & fn & Hin & Hf & _).
    unfold os_walk in Hin. rewrite Hres in Hin.
    destruct (walk_paths _ Hwf _ _ _ _ Hin) as (ds & -> & Hds & Hfn).
    assert (Hnames : Forall (fun n => plain_name n = true) (ds ++ [f])).
    { apply Forall_app. split; [exact Hds|].
      constructor; [|constructor].
      rewrite Forall_forall in Hfn. now apply Hfn. }
    exists ds. split; [reflexivity|]. split; [exact Hnames|].
    now apply (search_license_file_found _ _ _ _ default).
  - intros folder_path git_url version w mit_text before after
           Hres Hcorpus F1 F2.
    assert (Hfirst : first_license_file (os_walk cwd w folder_path)
                     = Some (fold_left os_path_join [] folder_path,
                             "LICENSE.txt")).
    { unfold os_walk. rewrite Hres. reflexivity. }
    assert (Hread : read_text cwd (os_path_join folder_path "LICENSE.txt") w
                    = (Return mit_text, w)).
    { unfold read_text, resolve.
      rewrite eqb_empty_false by (apply os_path_join_nonempty; discriminate).
      rewrite path_list_join by (assumption || reflexivity).
      unfold resolve in Hres.
      destruct (String.eqb folder_path ""); [discriminate|].
      now rewrite (lookup_child _ _ _ "LICENSE.txt" (File mit_text) Hres). }
    apply (search_license_file_found folder_path git_url version None None w
                                     [] "LICENSE.txt" (Some "MIT")).
    + reflexivity.
    + exact Hfirst.
    + repeat constructor.
    + cbn [fold_left].
      now rewrite (get_license_type_at cwd scorer all_licenses before after
                     "MIT" mit_text _ None w mit_text Hread Hcorpus F1 F2).
Qed.
End EntryPoint.

(** On the demonstration world: the source distribution [sdist], whose
    license lies one directory down, and the folder [project]. *)
Lemma search_license_file_packaged_witness :
  (exists ds,
      "sdist/pkg-1.0" = fold_left os_path_join ds "sdist"
      /\ Forall (fun n => plain_name n = true) (ds ++ ["COPYING"])
      /\ search_license_file
           Demo.cwd Demo.tempdir Demo.scorer Demo.corpus
           Demo.os_api_get Demo.os_api_all Demo.not_found
           Demo.b64decode_utf8 Demo.git_fails "sdist" None None (Some "MIT")
           Demo.world
         = (Return (Some (mkShortLicense
                            (JStr "Apache-2.0")
                            (packaged_location (ds ++ ["COPYING"])) true)),
            Demo.world))
  /\ search_license_file
       Demo.cwd Demo.tempdir Demo.scorer Demo.corpus
       Demo.os_api_get Demo.os_api_all Demo.not_found
       Demo.b64decode_utf8 Demo.git_fails "project" None None None
       Demo.world
     = (Return (Some (mkShortLicense (JStr "MIT") "LICENSE.txt" true)),
        Demo.world).
Proof.
  pose proof (search_license_file_packaged
                Demo.cwd Demo.tempdir Demo.scorer Demo.corpus
                Demo.os_api_get Demo.os_api_all Demo.not_found
                Demo.b64decode_utf8 Demo.git_fails eq_refl) as [HA HB].
  split.
  - refine (HA "sdist" None None (Some "MIT") (Some "MIT") Demo.world
               [("pkg-1.0",
                 Dir [("docs", Dir [("index.rst", File "")]);
                      ("COPYING", File Demo.apache_text)])]
               "sdist/pkg-1.0" "COPYING" (Some "Apache-2.0") _ _ _ _ _);
      vm_compute; reflexivity.
  - refine (HB "project" None None Demo.world Demo.mit_text
               [("Apache-2.0", Demo.apache_text)] [] _ _ _ _).
    + vm_compute; reflexivity.
    + reflexivity.
    + constructor; [vm_compute; lia | constructor].
    + constructor.
Defined.

(** * Further properties *)

(** ** The resolution of a name *)

Lemma extractOne_in (scorer : string -> string -> nat) (query : string)
      (choices : list string) (t : string) (score : nat) :
  extractOne scorer query choices = Some (t, score) -> In t choices.
Proof.
  destruct choices as [|c rest]; [discriminate|].
  destruct (extractOne_first_max scorer query c rest)
    as (l1 & t' & l2 & Hext & Hl & _ & _).
  rewrite Hext. intro H. injection H as <- _.
  rewrite Hl. apply in_elt.
Qed.

Lemma find_first {A : Type} (f : A -> bool) (l : list A) (x : A) :
  find f l = Some x ->
  exists l1 l2,
    l = (l1 ++ x :: l2)%list /\ f x = true
    /\ Forall (fun y => f y = false) l1.
Proof.
  induction l as [|a l IH]; cbn [find]; intro H; [discriminate|].
  destruct (f a) eqn:E.
  - injection H as <-. exists [], l. repeat split; [exact E | constructor].
  - destruct (IH H) as (l1 & l2 & -> & Hx & Hl1).
    exists (a :: l1), l2. repeat split; [exact Hx | now constructor].
Qed.

Lemma find_exists {A : Type} (f : A -> bool) (l : list A) (x : A) :
  In x l -> f x = true -> exists y, find f l = Some y.
Proof.
  induction l as [|a l IH]; intros Hin Hx; [destruct Hin|].
  cbn [find]. destruct (f a) eqn:E; [eauto|].
  destruct Hin as [-> | Hin]; [congruence | now apply IH].
Qed.

Lemma existsb_eqb_In (name : string) (l : list string) :
  existsb (String.eqb name) l = true <-> In name l.
Proof.
  rewrite existsb_exists. split.
  - intros (x & Hin & E). apply String.eqb_eq in E. now subst.
  - intro Hin. exists name. split; [exact Hin | apply String.eqb_refl].
Qed.

Section Names.
Variable scorer : string -> string -> nat.
Variable os_api_get : string -> option License.
Variable os_api_all : list License.

(** A name that some license of the list bears is resolved. *)
Lemma _get_license_of_choice (name : string) :
  In name (_get_all_license_choice os_api_all) ->
  exists l, _get_license os_api_get os_api_all name = Some l.
Proof.
  intro Hin. unfold _get_license.
  destruct (os_api_get name) as [l|]; [eauto|].
  unfold _get_all_license_choice in Hin.
  apply in_flat_map in Hin as (l & Hl & Hname).
  apply (find_exists _ _ l Hl). now apply existsb_eqb_In.
Qed.

(** X1.  The approximate match never ends without a license: as soon as one
    license of the list has a name, an identifier or another name,
    [match_license] returns a license for every input and
    [get_short_license_id] returns for every input.  Where no license has
    any name, the exact lookup decides: the license it knows, and
    [TypeError] from both functions for a name it does not know. *)
Theorem match_license_always_finds (name : string) :
  match _get_all_license_choice os_api_all with
  | _ :: _ =>
      (exists l, match_license scorer os_api_get os_api_all name
                 = Return (Some l))
      /\ (exists id, get_short_license_id scorer os_api_get os_api_all name
                     = Return id)
  | [] =>
      match os_api_get (clean_license_name name) with
      | Some l =>
          match_license scorer os_api_get os_api_all name = Return (Some l)
      | None =>
          match_license scorer os_api_get os_api_all name = Raise TypeError
          /\ get_short_license_id scorer os_api_get os_api_all name
             = Raise TypeError
      end
  end.
Proof.
  destruct (_get_all_license_choice os_api_all) as [|c rest] eqn:Ec.
  - unfold get_short_license_id, match_license.
    destruct (os_api_get (clean_license_name name)); [reflexivity|].
    rewrite Ec. split; reflexivity.
  - assert (Hm : exists l, match_license scorer os_api_get os_api_all name
                           = Return (Some l)).
    { unfold match_license.
      destruct (os_api_get (clean_license_name name)) as [l|]; [eauto|].
      rewrite Ec.
      destruct (extractOne scorer (clean_license_name name) (c :: rest))
        as [[choice score]|] eqn:Ee; [|discriminate].
      apply extractOne_in in Ee. rewrite <- Ec in Ee.
      destruct (_get_license_of_choice choice Ee) as [l ->]. eauto. }
    split; [exact Hm|].
    destruct Hm as [l Hm]. unfold get_short_license_id. rewrite Hm.
    destruct (find _ (identifiers l)); eauto.
Qed.

(** X2.  When the exact lookup does not know a name that several licenses
    bear, [_get_license] returns the first of them in the order of the
    list: no license before it bears the name. *)
Theorem _get_license_first_in_order (name : string) (l : License) :
  os_api_get name = None ->
  _get_license os_api_get os_api_all name = Some l ->
  exists before after,
    os_api_all = (before ++ l :: after)%list
    /\ In name (_get_all_names_from_api l)
    /\ Forall (fun l' => ~ In name (_get_all_names_from_api l')) before.
Proof.
  intros Hget H. unfold _get_license in H. rewrite Hget in H.
  apply find_first in H as (before & after & Hall & Hl & Hbefore).
  exists before, after. split; [exact Hall|]. split.
  - now apply existsb_eqb_In.
  - eapply Forall_impl; [|exact Hbefore]. cbv beta. intros l' E Hin.
    apply existsb_eqb_In in Hin. congruence.
Qed.
End Names.

Lemma _get_license_first_in_order_witness :
  exists before after,
    Registry.os_api_all = (before ++ Registry.bsd2 :: after)%list
    /\ In "BSD" (_get_all_names_from_api Registry.bsd2)
    /\ Forall (fun l' => ~ In "BSD" (_get_all_names_from_api l')) before.
Proof.
  exact (_get_license_first_in_order
           Registry.os_api_get Registry.os_api_all "BSD" Registry.bsd2
           eq_refl eq_refl).
Defined.

(** ** The word [License] *)

Lemma eat_false_inv (w : string) :
  forall prev s p rest,
    eat false w prev s = Some (p, rest) -> s = w ++ rest.
Proof.
  induction w as [|c w IH]; intros prev s p rest H; cbn [eat] in H.
  - now injection H as _ <-.
  - destruct s as [|x s]; [discriminate|].
    unfold chr_eq in H. destruct (Ascii.eqb c x) eqn:E; [|discriminate].
    apply Ascii.eqb_eq in E. subst x.
    cbn [append]. f_equal. eapply IH, H.
Qed.

Lemma startswith_app_same (w r : string) : startswith (w ++ r) w = true.
Proof.
  induction w as [|c w IH]; [destruct r; reflexivity|].
  cbn [append startswith]. now rewrite Ascii.eqb_refl, IH.
Qed.

Lemma occurs_middle (w a r : string) : occurs w (a ++ w ++ r) = true.
Proof.
  induction a as [|c a IH].
  - cbn [append]. destruct (w ++ r) eqn:E; cbn [occurs];
      rewrite <- E, startswith_app_same; reflexivity.
  - cbn [append occurs]. rewrite IH. apply orb_true_r.
Qed.

Lemma occurs_tail (w : string) (c : ascii) (s : string) :
  occurs w (String c s) = false -> occurs w s = false.
Proof.
  cbn [occurs]. intro H. now apply orb_false_elim in H as [_ H].
Qed.

(** The pattern of [match_license] matches only where [License] stands. *)
Lemma license_word_match (prev : option ascii) (s : string)
      (m : option ascii * string) :
  match_at false re_license_word prev s = Some m ->
  occurs "License" s = true.
Proof.
  unfold match_at, re_license_word. cbn [exec]. intro H.
  apply star_cls_inv in H as (a & b & -> & _ & H).
  rewrite exec_lits in H.
  destruct (eat false "License" (last_or a prev) b) as [[p rest]|] eqn:E;
    [|discriminate].
  apply eat_false_inv in E. subst b. apply occurs_middle.
Qed.

Lemma sub_license_word_absent (s : string) :
  occurs "License" s = false ->
  forall fuel left prev,
    sub_loop fuel false re_license_word "" left prev s = s.
Proof.
  induction s as [|c s IH]; intros Hocc fuel left prev.
  - destruct fuel as [|fuel]; [reflexivity|]. cbn [sub_loop].
    destruct left as [[|n]|]; try reflexivity;
      destruct (match_at false re_license_word prev "") eqn:E;
      try reflexivity; apply license_word_match in E; discriminate.
  - destruct fuel as [|fuel]; [reflexivity|]. cbn [sub_loop].
    assert (Hnone : match_at false re_license_word prev (String c s) = None).
    { destruct (match_at false re_license_word prev (String c s)) eqn:E;
        [|reflexivity].
      apply license_word_match in E. congruence. }
    rewrite Hnone.
    destruct left as [[|n]|]; try reflexivity;
      f_equal; apply IH; eapply occurs_tail; eassumption.
Qed.

Lemma startswith_app_l (a b w : string) :
  startswith a w = true -> startswith (a ++ b) w = true.
Proof.
  revert a. induction w as [|c w IH]; intros a H; [reflexivity|].
  destruct a as [|x a]; [discriminate|].
  cbn [append startswith] in *. apply andb_prop in H as [Hx Ha].
  now rewrite Hx, IH.
Qed.

Lemma occurs_app_l (w a b : string) :
  occurs w a = true -> occurs w (a ++ b) = true.
Proof.
  induction a as [|c a IH]; intro H.
  - cbn [occurs] in H. rewrite orb_false_r in H.
    destruct w; [|discriminate]. destruct b; reflexivity.
  - cbn [occurs append] in *. apply orb_prop in H as [H | H].
    + change (String c (a ++ b)) with (String c a ++ b).
      now rewrite startswith_app_l.
    + rewrite IH by exact H. apply orb_true_r.
Qed.

Lemma occurs_app_r (w a b : string) :
  occurs w b = true -> occurs w (a ++ b) = true.
Proof.
  intro H. induction a as [|c a IH]; [exact H|].
  cbn [append occurs]. rewrite IH. apply orb_true_r.
Qed.

Lemma lstrip_suffix (s : string) : exists a, s = a ++ lstrip s.
Proof.
  induction s as [|c s [a IH]]; [now exists ""|].
  cbn [lstrip]. destruct (is_space c).
  - exists (String c a). cbn [append]. now f_equal.
  - now exists "".
Qed.

Lemma rstrip_prefix (s : string) : exists b, s = rstrip s ++ b.
Proof.
  induction s as [|c s [b IH]]; [now exists ""|].
  cbn [rstrip]. destruct (rstrip s) as [|x t] eqn:E.
  - destruct (is_space c).
    + exists (String c s). reflexivity.
    + exists s. reflexivity.
  - exists b. cbn [append] in *. now f_equal.
Qed.

Lemma occurs_strip (w s : string) :
  occurs w s = false -> occurs w (strip s) = false.
Proof.
  intro H. unfold strip.
  destruct (occurs w (rstrip (lstrip s))) eqn:E; [|reflexivity].
  destruct (rstrip_prefix (lstrip s)) as [b Hb].
  destruct (lstrip_suffix s) as [a Ha].
  apply (occurs_app_l w _ b) in E. rewrite <- Hb in E.
  apply (occurs_app_r w a) in E. rewrite <- Ha in E. congruence.
Qed.

(** X3.  A name in which [License] does not occur in this very spelling is
    only stripped by [match_license] before the lookup: [license],
    [LICENSE] and every other spelling stay in the name. *)
Theorem clean_license_name_only_strips (name : string) :
  occurs "License" name = false ->
  clean_license_name name = strip name.
Proof.
  intro H. unfold clean_license_name, re_sub.
  apply sub_license_word_absent, occurs_strip, H.
Qed.

Lemma clean_license_name_only_strips_witness :
  clean_license_name " GNU General Public license v3 (GPLv3) "
  = strip " GNU General Public license v3 (GPLv3) ".
Proof.
  exact (clean_license_name_only_strips
           " GNU General Public license v3 (GPLv3) " eq_refl).
Defined.

(** ** The URLs, further *)

Lemma sub_loop_nonempty (fuel : nat) (ic : bool) (r : regex) (repl : string)
      (left : option nat) (prev : option ascii) (c : ascii) (s : string) :
  repl <> "" ->
  sub_loop (S fuel) ic r repl left prev (String c s) <> "".
Proof.
  intro Hrepl. cbn [sub_loop].
  destruct left as [[|n]|]; try discriminate;
    destruct (match_at ic r prev (String c s)) as [[p rest]|];
    try discriminate;
    destruct (String.length rest <? String.length (String c s))%nat;
    now apply app_nonempty_l.
Qed.

Lemma last_char_inv (s : string) (c : ascii) :
  last_char s = Some c -> exists s', s = s' ++ String c "".
Proof.
  induction s as [|x s IH]; intro H; [discriminate|].
  destruct s as [|y s].
  - injection H as <-. now exists "".
  - destruct (IH H) as [s' Hs']. exists (String x s').
    cbn [append]. now rewrite <- Hs'.
Qed.

Lemma last_char_none (s : string) : last_char s = None -> s = "".
Proof.
  destruct s as [|x s]; [reflexivity|].
  destruct (last_char_cons s x) as [c E]. congruence.
Qed.

(** X4.  [_get_api_github_url] raises, with [IndexError], for the empty URL
    and for no other: every other URL gives a request URL, which ends with
    [/license] when no revision is given and with [/license?ref=] and the
    revision otherwise. *)
Theorem api_url_raises_only_on_empty
        (github_url : string) (version : option string) :
  match github_url with
  | EmptyString => _get_api_github_url github_url version = Raise IndexError
  | String _ _ =>
      exists base,
        _get_api_github_url github_url None = Return (base ++ "/license")
        /\ _get_api_github_url github_url version
           = Return (match version with
                     | Some (String _ _ as v) =>
                         (base ++ "/license") ++ "?ref=" ++ v
                     | _ => base ++ "/license"
                     end)
  end.
Proof.
  destruct github_url as [|c url]; [reflexivity|].
  unfold _get_api_github_url, re_sub.
  pose proof (sub_loop_nonempty (String.length (String c url)) false
                re_github_com "api.github.com/repos" None None c url) as Hne.
  cbn [String.length] in Hne |- *.
  set (u := sub_loop _ false re_github_com _ None None (String c url)) in *.
  destruct (last_char u) as [x|] eqn:El.
  2:{ apply last_char_none in El. exfalso. apply Hne; [discriminate|exact El]. }
  destruct (Ascii.eqb x "/") eqn:Ex; cbn [negb].
  - apply Ascii.eqb_eq in Ex. subst x.
    destruct (last_char_inv _ _ El) as [base Hbase].
    exists base. rewrite Hbase, !str_app_assoc. cbn [append].
    split; [reflexivity|]. destruct version as [[|a v]|]; reflexivity.
  - exists u. rewrite !str_app_assoc. cbn [append].
    split; [reflexivity|]. destruct version as [[|a v]|]; reflexivity.
Qed.

Lemma endswith_inv (s suffix : string) :
  endswith s suffix = true -> exists body, s = body ++ suffix.
Proof.
  induction s as [|c s IH]; cbn [endswith]; intro H.
  - rewrite orb_false_r in H. apply String.eqb_eq in H. now exists "".
  - apply orb_prop in H as [H | H].
    + apply String.eqb_eq in H. now exists "".
    + destruct (IH H) as [body ->]. now exists (String c body).
Qed.

(** X5.  The URL that [search_license_repo] hands to [git clone] always
    ends with [.git], and the normalisation changes nothing in a URL that
    it produced. *)
Theorem clone_url_idempotent (git_url : string) :
  endswith (clone_url git_url) ".git" = true
  /\ clone_url (clone_url git_url) = clone_url git_url.
Proof.
  assert (H : endswith (clone_url git_url) ".git" = true).
  { rewrite clone_url_unfold. cbv zeta.
    destruct (endswith (trailing_slash_to_git git_url) ".git") eqn:E;
      [exact E | apply endswith_app]. }
  split; [exact H|].
  destruct (endswith_inv _ _ H) as [body Hb]. rewrite Hb.
  rewrite clone_url_unfold, dot_git_kept. cbv zeta.
  now rewrite endswith_app.
Qed.

(** ** The scanner and the classification, further *)


Section Scanner.
Variable cwd : string.
Variable scorer : string -> string -> nat.
Variable all_licenses : list (string * string).


(** X7.  [search_license_folder] only reads: the file system, the log of
    requests and the cache are as before.  A license it returns is not
    marked as packaged and lies at a path whose last part passed the test
    of the file names; [None] means that no file name of the walk passed
    it, which is the case of a path that is not a directory. *)
Theorem search_license_folder_outcomes
        (p : string) (default : option string) (w : World) :
  let out := search_license_folder cwd scorer all_licenses p default w in
  snd out = w
  /\ match fst out with
     | Return (Some lic) =>
         is_packaged lic = false
         /\ exists dir f,
             path lic = os_path_join dir f /\ is_license_filename f = true
     | Return None => first_license_file (os_walk cwd w p) = None
     | Raise _ => True
     end
  /\ (if is_dir_node (resolve cwd w p) then True
      else fst out = Return None).
Proof.
  intro out. split; [apply search_license_folder_world|].
  unfold out, search_license_folder. split.
  - destruct (first_license_file (os_walk cwd w p)) as [[dir f]|] eqn:E;
      [|reflexivity].
    destruct (first_license_file_in _ _ _ E) as (dn & fn & _ & _ & Hm).
    unfold bind, ret.
    destruct (get_license_type cwd scorer all_licenses
                               (os_path_join dir f) default w)
      as [[r|e] w']; cbn [fst]; [|exact I].
    cbn [is_packaged path]. eauto.
  - unfold os_walk.
    destruct (resolve cwd w p) as [[c|es]|]; cbn [is_dir_node];
      try exact I; reflexivity.
Qed.

Lemma search_license_repo_keeps
      (tempdir : string)
      (git : list string -> result (list (string * node)))
      (git_url : string) (version default : option string) (w : World) :
  requests (snd (search_license_repo cwd tempdir scorer all_licenses git
                                     git_url version default w))
  = requests w
  /\ cache (snd (search_license_repo cwd tempdir scorer all_licenses git
                                     git_url version default w))
     = cache w.
Proof.
  unfold search_license_repo, bind, mkdtemp.
  destruct (resolve cwd w tempdir) as [[c|es]|]; try (split; reflexivity).
  unfold check_output.
  destruct (git _) as [tree|err].
  - rewrite search_license_folder_world. split; reflexivity.
  - destruct (is_Exception err); split; reflexivity.
Qed.

End Scanner.

(** ** The API of the host, further *)

Section ApiFurther.
Variable cwd : string.
Variable tempdir : string.
Variable network : nat -> string -> result Response.
Variable b64decode_utf8 : string -> result string.

(** X9.  An answer with status 200 that holds no usable text (no JSON, no
    object, no key [content], or a content that does not decode) makes
    [search_license_api_github] raise the error of that step: the one
    request is sent, no file or directory is made, and nothing is stored in
    the cache, so that the same call would ask the host again. *)
Theorem api_unusable_document_raises
        (github_url : string) (version default : option string)
        (w : World) (url : string) (response : Response) (e : exn) :
  cache_get (github_url, version, default) (cache w) = None ->
  _get_api_github_url github_url version = Return url ->
  network (List.length (requests w)) url = Return response ->
  status_code response = 200%Z ->
  license_text b64decode_utf8 response = Raise e ->
  search_license_api_github
    cwd tempdir network b64decode_utf8 github_url version default w
  = (Raise e, mkWorld (root w) (requests w ++ [url])%list (cache w)).
Proof.
  intros Hmiss Hurl Hnet Hst Htext.
  unfold search_license_api_github. rewrite lru_cache_miss by exact Hmiss.
  unfold search_license_api_github_wrapped, bind, lift, requests_get, ret.
  rewrite Hurl, Hnet, Hst. cbn [Z.eqb Pos.eqb negb].
  unfold license_text in Htext.
  destruct (json_body response) as [json_content|e1].
  - destruct (getitem json_content "content") as [content|e2].
    + now rewrite Htext.
    + now injection Htext as ->.
  - now injection Htext as ->.
Qed.

Hypothesis cwd_absolute : startswith cwd "/" = true.

Lemma write_text_content (w : World) (d n content : string) :
  plain_name n = true ->
  resolve cwd w d = Some (Dir []) ->
  exists w',
    write_text cwd (os_path_join d n) content w = (Return tt, w')
    /\ resolve cwd w' (os_path_join d n) = Some (File content)
    /\ requests w' = requests w /\ cache w' = cache w.
Proof.
  intros Hn Hd.
  assert (Hlk : lookup_path (path_list cwd d) (root w) = Some (Dir [])).
  { unfold resolve in Hd. destruct (String.eqb d ""); [discriminate|].
    exact Hd. }
  destruct (resolve_set_node cwd cwd_absolute w d n [] (File content) Hn Hlk)
    as [Hnew _].
  eexists. split; [|split; [exact Hnew|split; reflexivity]].
  unfold write_text.
  rewrite eqb_empty_false
    by (apply os_path_join_nonempty, plain_nonempty, Hn).
  rewrite path_list_join by assumption.
  rewrite removelast_last, Hlk.
  pose proof (lookup_fresh _ _ [] n Hlk eq_refl) as Hnone.
  destruct (path_list cwd d ++ [n])%list eqn:E.
  - now apply app_eq_nil in E as [_ E].
  - rewrite Hnone. reflexivity.
Qed.

(** X10.  For an answer with status 200 and a usable text, where the
    directory of temporary files exists: when the call of
    [search_license_api_github] ends, also by the [AttributeError] of a
    [license] that is no object, the file [LICENSE] in a directory that
    did not exist before holds the decoded text, and one request was
    sent. *)
Theorem api_license_file_written
        (github_url : string) (version default : option string)
        (w : World) (entries : list (string * node)) (url : string)
        (response : Response) (text : string) :
  cache_get (github_url, version, default) (cache w) = None ->
  resolve cwd w tempdir = Some (Dir entries) ->
  _get_api_github_url github_url version = Return url ->
  network (List.length (requests w)) url = Return response ->
  status_code response = 200%Z ->
  license_text b64decode_utf8 response = Return text ->
  let tmp :=
    os_path_join tempdir (fresh_name "github-license-" (map fst entries)) in
  let out := search_license_api_github
               cwd tempdir network b64decode_utf8
               github_url version default w in
  resolve cwd w tmp = None
  /\ resolve cwd (snd out) (os_path_join tmp "LICENSE") = Some (File text)
  /\ requests (snd out) = (requests w ++ [url])%list.
Proof.
  intros Hmiss Ht Hurl Hnet Hst Htext tmp out.
  set (w0 := mkWorld (root w) (requests w ++ [url])%list (cache w)).
  assert (Ht0 : resolve cwd w0 tempdir = Some (Dir entries)) by exact Ht.
  destruct (mkdtemp_spec cwd tempdir cwd_absolute "github-license-" w0 entries)
    as (w1 & Hmk & Hreq1 & _ & Hfresh & Hdir & _);
    [reflexivity | simpl; lia | exact Ht0 |].
  fold tmp in Hmk, Hfresh, Hdir.
  split; [exact Hfresh|].
  destruct (write_text_content w1 tmp "LICENSE" text eq_refl Hdir)
    as (w2 & Hw & Hfile & Hreq2 & _).
  unfold out, search_license_api_github.
  rewrite lru_cache_miss by exact Hmiss.
  unfold search_license_api_github_wrapped, bind, lift, requests_get, ret.
  rewrite Hurl, Hnet, Hst. cbn [Z.eqb Pos.eqb negb].
  unfold license_text in Htext.
  destruct (json_body response) as [json_content|]; [|discriminate].
  destruct (getitem json_content "content") as [content|]; [|discriminate].
  rewrite Htext. fold w0. rewrite Hmk, Hw.
  assert (Hreq : requests w2 = (requests w ++ [url])%list)
    by (rewrite Hreq2, Hreq1; reflexivity).
  destruct (dict_get json_content "license" (JObj [])) as [license|];
    [|cbn [snd]; auto].
  destruct (dict_get license "spdx_id" (of_opt_str default));
    cbn [snd]; auto.
Qed.
End ApiFurther.

Lemma api_unusable_document_raises_witness :
  search_license_api_github
    Demo.cwd Demo.tempdir
    (fun _ _ => Return (mkResponse 200 (Return (JObj [("message", JNull)]))))
    Demo.b64decode_utf8 Demo.repo None None Demo.world
  = (Raise KeyError, mkWorld Demo.tree [Demo.repo_api] []).
Proof.
  refine (api_unusable_document_raises
            Demo.cwd Demo.tempdir _ Demo.b64decode_utf8 Demo.repo None None
            Demo.world Demo.repo_api
            (mkResponse 200 (Return (JObj [("message", JNull)]))) KeyError
            eq_refl eq_refl eq_refl eq_refl eq_refl).
Defined.

Lemma api_license_file_written_witness :
  let out := search_license_api_github
               Demo.cwd Demo.tempdir Demo.found Demo.b64decode_utf8
               Demo.repo None None Demo.world in
  resolve Demo.cwd Demo.world "/tmp/github-license-x" = None
  /\ resolve Demo.cwd (snd out) "/tmp/github-license-x/LICENSE"
     = Some (File "MIT")
  /\ requests (snd out) = [Demo.repo_api].
Proof.
  exact (api_license_file_written
           Demo.cwd Demo.tempdir Demo.found Demo.b64decode_utf8 eq_refl
           Demo.repo None None Demo.world [] Demo.repo_api
           (mkResponse 200
              (Return (JObj [("content", JStr "TUlU");
                             ("license", JObj [("key", JStr "mit")])])))
           "MIT" eq_refl eq_refl eq_refl eq_refl eq_refl eq_refl).
Defined.

(** ** The cache, further *)

Section LruCacheFurther.
Variable f : Key -> M (option ShortLicense).
Hypothesis f_keeps_cache : forall k w, cache (snd (f k w)) = cache w.

(** A call keeps the cache well formed. *)
Lemma lru_cache_keeps_wf (k : Key) (w : World) :
  cache_wf (cache w) -> cache_wf (cache (snd (lru_cache f k w))).
Proof.
  intros [Hkeys Hsize]. unfold lru_cache.
  destruct (cache_get k (cache w)) as [v|] eqn:Hget.
  - cbn [snd set_cache cache]. unfold cache_touch.
    destruct (cache_remove_NoDup k _ Hkeys) as [Hnd Hnotin].
    pose proof (cache_remove_length k _ v Hget) as Hl.
    split; [cbn [map fst]; now constructor | cbn [List.length]; lia].
  - pose proof (f_keeps_cache k w) as Hkeep.
    pose proof (cache_get_none _ _ Hget) as Hnotin.
    destruct (f k w) as [[v|e] w']; cbn [snd] in Hkeep |- *.
    2:{ rewrite Hkeep. now split. }
    cbn [set_cache cache]. rewrite Hkeep. unfold cache_store. rewrite Hget.
    destruct (maxsize <=? List.length (cache w))%nat eqn:Efull.
    + assert (Hc : cache w <> []).
      { apply Nat.leb_le in Efull. intro E. rewrite E in Efull.
        cbn in Efull. unfold maxsize in Efull. lia. }
      split.
      * cbn [map fst]. rewrite removelast_keys. constructor.
        -- intro Hin. apply Hnotin. now apply removelast_incl.
        -- now apply removelast_NoDup.
      * cbn [List.length]. rewrite (removelast_length _ Hc). exact Hsize.
    + apply Nat.leb_gt in Efull.
      split; [cbn [map fst]; now constructor | cbn [List.length]; lia].
Qed.

Lemma run_calls_keeps_wf (ks : list Key) :
  forall w, cache_wf (cache w) -> cache_wf (cache (run_calls f ks w)).
Proof.
  unfold run_calls. induction ks as [|k ks IH]; intros w Hw; cbn [fold_left].
  - exact Hw.
  - apply IH. now apply lru_cache_keeps_wf.
Qed.

(** A call that raises stores nothing. *)
Lemma lru_cache_raise (k : Key) (w : World) (e : exn) :
  fst (lru_cache f k w) = Raise e ->
  cache (snd (lru_cache f k w)) = cache w.
Proof.
  unfold lru_cache.
  destruct (cache_get k (cache w)) as [v|]; [discriminate|].
  pose proof (f_keeps_cache k w) as Hkeep.
  destruct (f k w) as [[v|e'] w']; [discriminate|].
  intros _. exact Hkeep.
Qed.
End LruCacheFurther.

(** X11.  From an empty cache, whatever calls of [search_license_api_github]
    a process makes, the cache never holds more than thirteen results and
    never two for the same three arguments. *)
Theorem api_cache_bounded
        (cwd tempdir : string)
        (network : nat -> string -> result Response)
        (b64decode_utf8 : string -> result string)
        (ks : list Key) (w : World) :
  cache w = [] ->
  let c :=
    cache (run_calls (search_license_api_github_wrapped
                        cwd tempdir network b64decode_utf8) ks w) in
  NoDup (map fst c) /\ List.length c <= 13.
Proof.
  intros Hempty c.
  apply (run_calls_keeps_wf
           _ (wrapped_keeps_cache cwd tempdir network b64decode_utf8) ks w).
  rewrite Hempty. split; [constructor | cbn; unfold maxsize; lia].
Qed.

Lemma api_cache_bounded_witness :
  let c :=
    cache (run_calls (search_license_api_github_wrapped
                        Demo.cwd Demo.tempdir Demo.not_found
                        Demo.b64decode_utf8)
                     ((Demo.repo, None, None) :: Demo.other_keys)
                     Demo.world) in
  NoDup (map fst c) /\ List.length c <= 13.
Proof.
  exact (api_cache_bounded
           Demo.cwd Demo.tempdir Demo.not_found Demo.b64decode_utf8
           ((Demo.repo, None, None) :: Demo.other_keys) Demo.world eq_refl).
Defined.

(** X12.  A call of [search_license_api_github] that raises leaves the
    cache as it was: errors are not memoized. *)
Theorem api_error_not_cached
        (cwd tempdir : string)
        (network : nat -> string -> result Response)
        (b64decode_utf8 : string -> result string)
        (github_url : string) (version default : option string)
        (w : World) (e : exn) :
  fst (search_license_api_github cwd tempdir network b64decode_utf8
                                 github_url version default w)
  = Raise e ->
  cache (snd (search_license_api_github cwd tempdir network b64decode_utf8
                                        github_url version default w))
  = cache w.
Proof.
  apply lru_cache_raise.
  apply wrapped_keeps_cache.
Qed.

Lemma api_error_not_cached_witness :
  cache (snd (search_license_api_github
                Demo.cwd Demo.tempdir Demo.not_found Demo.b64decode_utf8
                "" None None Demo.world))
  = cache Demo.world.
Proof.
  exact (api_error_not_cached
           Demo.cwd Demo.tempdir Demo.not_found Demo.b64decode_utf8
           "" None None Demo.world IndexError eq_refl).
Defined.

(** ** The entry point, further *)

Section EntryPointFurther.
Variable cwd : string.
Variable tempdir : string.
Variable scorer : string -> string -> nat.
Variable all_licenses : list (string * string).
Variable os_api_get : string -> option License.
Variable os_api_all : list License.
Variable network : nat -> string -> result Response.
Variable b64decode_utf8 : string -> result string.
Variable git : list string -> result (list (string * node)).

Lemma mkdtemp_requests (prefix : string) (w : World) :
  requests (snd (mkdtemp cwd tempdir prefix w)) = requests w.
Proof.
  unfold mkdtemp. destruct (resolve cwd w tempdir) as [[c|es]|]; reflexivity.
Qed.

Lemma write_text_requests (p content : string) (w : World) :
  requests (snd (write_text cwd p content w)) = requests w.
Proof.
  unfold write_text.
  destruct (String.eqb p ""); [reflexivity|].
  destruct (lookup_path (removelast (path_list cwd p)) (root w))
    as [[x|es]|]; try reflexivity.
  destruct (path_list cwd p); [reflexivity|].
  destruct (lookup_path (s :: l) (root w)) as [[x|es']|]; reflexivity.
Qed.

(** The function under the decorator sends at most one request, to the URL
    of the API. *)
Lemma wrapped_requests (github_url : string) (version default : option string)
      (w : World) :
  let w' := snd (search_license_api_github_wrapped
                   cwd tempdir network b64decode_utf8
                   (github_url, version, default) w) in
  requests w' = requests w
  \/ exists url,
      _get_api_github_url github_url version = Return url
      /\ requests w' = (requests w ++ [url])%list.
Proof.
  cbv zeta.
  unfold search_license_api_github_wrapped, bind, lift, ret, requests_get.
  destruct (_get_api_github_url github_url version) as [url|];
    [|now left].
  right. exists url. split; [reflexivity|].
  destruct (network (List.length (requests w)) url) as [response|];
    [|reflexivity].
  destruct (negb (status_code response =? 200)%Z); [reflexivity|].
  destruct (json_body response) as [json_content|]; [|reflexivity].
  destruct (getitem json_content "content") as [content|]; [|reflexivity].
  destruct (decode_content b64decode_utf8 content) as [text|]; [|reflexivity].
  set (w0 := mkWorld (root w) (requests w ++ [url])%list (cache w)).
  pose proof (mkdtemp_requests "github-license-" w0) as Hmk.
  destruct (mkdtemp cwd tempdir "github-license-" w0) as [[tmp|e] w1];
    cbn [snd] in Hmk; [|exact Hmk].
  pose proof (write_text_requests (os_path_join tmp "LICENSE") text w1) as Hwr.
  destruct (write_text cwd (os_path_join tmp "LICENSE") text w1)
    as [[u|e] w2]; cbn [snd] in Hwr; rewrite Hmk in Hwr; [|exact Hwr].
  destruct (dict_get json_content "license" (JObj [])) as [license|];
    [|exact Hwr].
  destruct (dict_get license "spdx_id" (of_opt_str default)); exact Hwr.
Qed.



End EntryPointFurther.


(** ** The flag [is_packaged] *)

Lemma cache_remove_Forall {V : Type} (P : Key * V -> Prop) (k : Key)
      (c : list (Key * V)) :
  Forall P c -> Forall P (cache_remove k c).
Proof.
  induction 1 as [|[k' v'] c Hx Hc IH]; cbn [cache_remove]; [constructor|].
  destruct (key_eqb k k'); [exact Hc | now constructor].
Qed.

Lemma cache_get_Forall {V : Type} (P : Key * V -> Prop) (k : Key) (v : V)
      (c : list (Key * V)) :
  Forall P c -> cache_get k c = Some v -> exists k', P (k', v).
Proof.
  induction 1 as [|[k' v'] c Hx Hc IH]; cbn [cache_get]; intro H;
    [discriminate|].
  destruct (key_eqb k k'); [|now apply IH].
  injection H as <-. eauto.
Qed.

Section PackagedFlag.
Variable cwd : string.
Variable tempdir : string.
Variable scorer : string -> string -> nat.
Variable all_licenses : list (string * string).
Variable os_api_get : string -> option License.
Variable os_api_all : list License.
Variable network : nat -> string -> result Response.
Variable b64decode_utf8 : string -> result string.
Variable git : list string -> result (list (string * node)).

Lemma wrapped_unpackaged (k : Key) (w : World) (l : ShortLicense) :
  fst (search_license_api_github_wrapped
         cwd tempdir network b64decode_utf8 k w) = Return (Some l) ->
  is_packaged l = false.
Proof.
  destruct k as [[github_url version] default].
  unfold search_license_api_github_wrapped, bind, lift, ret, requests_get.
  destruct (_get_api_github_url github_url version) as [url|];
    [|discriminate].
  destruct (network (List.length (requests w)) url) as [response|];
    [|discriminate].
  destruct (negb (status_code response =? 200)%Z); [discriminate|].
  destruct (json_body response) as [json_content|]; [|discriminate].
  destruct (getitem json_content "content") as [content|]; [|discriminate].
  destruct (decode_content b64decode_utf8 content) as [text|]; [|discriminate].
  destruct (mkdtemp cwd tempdir "github-license-" _) as [[tmp|e] w1];
    [|discriminate].
  destruct (write_text cwd (os_path_join tmp "LICENSE") text w1)
    as [[u|e] w2]; [|discriminate].
  destruct (dict_get json_content "license" (JObj [])) as [license|];
    [|discriminate].
  destruct (dict_get license "spdx_id" (of_opt_str default));
    [|discriminate].
  cbn [fst]. intro H. injection H as <-. reflexivity.
Qed.

(** The API gives no packaged license and stores none. *)
Lemma api_unpackaged (github_url : string) (version default : option string)
      (w : World) :
  cache_unpackaged (cache w) ->
  let out := search_license_api_github
               cwd tempdir network b64decode_utf8
               github_url version default w in
  cache_unpackaged (cache (snd out))
  /\ forall l, fst out = Return (Some l) -> is_packaged l = false.
Proof.
  intros Hc. cbv zeta. unfold search_license_api_github, lru_cache.
  set (k := (github_url, version, default)).
  destruct (cache_get k (cache w)) as [v|] eqn:Hget.
  - destruct (cache_get_Forall _ k v _ Hc Hget) as [k' Hv]. cbn [snd] in Hv.
    cbn [fst snd set_cache cache]. unfold cache_touch. split.
    + constructor; [exact Hv | now apply cache_remove_Forall].
    + intros l H. injection H as ->. exact Hv.
  - pose proof (wrapped_keeps_cache cwd tempdir network b64decode_utf8 k w)
      as Hkeep.
    pose proof (wrapped_unpackaged k w) as Hun.
    destruct (search_license_api_github_wrapped
                cwd tempdir network b64decode_utf8 k w) as [[v|e] w'];
      cbn [fst snd] in *.
    2:{ rewrite Hkeep. split; [exact Hc | discriminate]. }
    cbn [set_cache cache]. rewrite Hkeep.
    assert (Hv : match v with
                 | Some l => is_packaged l = false
                 | None => True
                 end).
    { destruct v as [l|]; [now apply Hun | exact I]. }
    split.
    + unfold cache_store. rewrite Hget.
      destruct (maxsize <=? List.length (cache w))%nat;
        constructor; try exact Hv; [now apply Forall_removelast | exact Hc].
    + intros l H. injection H as ->. exact Hv.
Qed.

Lemma search_license_folder_unpackaged
      (p : string) (default : option string) (w : World) (l : ShortLicense) :
  fst (search_license_folder cwd scorer all_licenses p default w)
  = Return (Some l) ->
  is_packaged l = false.
Proof.
  unfold search_license_folder.
  destruct (first_license_file (os_walk cwd w p)) as [[dir f]|];
    [|discriminate].
  unfold bind, ret.
  destruct (get_license_type cwd scorer all_licenses
                             (os_path_join dir f) default w)
    as [[r|e] w']; [|discriminate].
  cbn [fst]. intro H. injection H as <-. reflexivity.
Qed.

Lemma search_license_repo_unpackaged
      (git_url : string) (version default : option string) (w : World)
      (l : ShortLicense) :
  fst (search_license_repo cwd tempdir scorer all_licenses git
                           git_url version default w)
  = Return (Some l) ->
  is_packaged l = false.
Proof.
  unfold search_license_repo, bind.
  destruct (mkdtemp cwd tempdir "gs-clone-repo-" w) as [[tmp|e] w1];
    [|discriminate].
  destruct (check_output cwd git _ w1) as [[u|err] w2].
  - apply search_license_folder_unpackaged.
  - destruct (is_Exception err); discriminate.
Qed.

(** X15.  In a process whose cache holds no packaged license, as it is from
    the start, a license that [search_license_file] returns is marked as
    packaged exactly when it was found in the folder: a license from the
    API of the host or from a clone is never marked, and the cache keeps
    holding none that is. *)
Theorem search_license_file_packaged_flag
        (folder_path : string)
        (git_url version license_name_metadata : option string) (w : World) :
  cache_unpackaged (cache w) ->
  let out := search_license_file
               cwd tempdir scorer all_licenses os_api_get os_api_all
               network b64decode_utf8 git
               folder_path git_url version license_name_metadata w in
  cache_unpackaged (cache (snd out))
  /\ match fst out with
     | Return (Some lic) =>
         is_packaged lic
         = match first_license_file (os_walk cwd w folder_path) with
           | Some _ => true
           | None => false
           end
     | _ => True
     end.
Proof.
  intros Hc. cbv zeta. unfold search_license_file, bind, lift, ret.
  fold (declared_default scorer os_api_get os_api_all license_name_metadata).
  destruct (declared_default scorer os_api_get os_api_all
                             license_name_metadata) as [default|];
    [|now split].
  unfold search_license_folder.
  destruct (first_license_file (os_walk cwd w folder_path)) as [[dir f]|].
  - unfold bind, ret.
    pose proof (get_license_type_world cwd scorer all_licenses
                                       (os_path_join dir f) default w) as Hw.
    destruct (get_license_type cwd scorer all_licenses
                               (os_path_join dir f) default w)
      as [[r|e] w0]; cbn [snd] in Hw; subst w0; [|now split].
    cbn [path].
    destruct (packaged_path cwd (os_path_join dir f) folder_path);
      now split.
  - destruct git_url as [[|c repo]|]; try now split.
    destruct (api_unpackaged (String c repo) version default w Hc)
      as [Hc1 Hl1].
    destruct (search_license_api_github
                cwd tempdir network b64decode_utf8
                (String c repo) version default w) as [[[l|]|e] w1];
      cbn [fst snd] in *.
    + split; [exact Hc1 | now apply Hl1].
    + pose proof (search_license_repo_keeps
                    cwd scorer all_licenses tempdir git
                    (String c repo) version default w1) as [_ Hcache].
      pose proof (search_license_repo_unpackaged
                    (String c repo) version default w1) as Hl2.
      destruct (search_license_repo cwd tempdir scorer all_licenses git
                                    (String c repo) version default w1)
        as [[[l|]|e] w2]; cbn [fst snd] in *; rewrite Hcache;
        (split; [exact Hc1|]); try exact I.
      now apply Hl2.
    + now split.
Qed.
End PackagedFlag.

Lemma search_license_file_packaged_flag_witness :
  let out := search_license_file
               Demo.cwd Demo.tempdir Demo.scorer Demo.corpus
               Demo.os_api_get Demo.os_api_all Demo.found
               Demo.b64decode_utf8 Demo.git_fails
               "sdist/pkg-1.0/docs" (Some Demo.repo) None None Demo.world in
  cache_unpackaged (cache (snd out))
  /\ match fst out with
     | Return (Some lic) => is_packaged lic = false
     | _ => True
     end.
Proof.
  exact (search_license_file_packaged_flag
           Demo.cwd Demo.tempdir Demo.scorer Demo.corpus
           Demo.os_api_get Demo.os_api_all Demo.found
           Demo.b64decode_utf8 Demo.git_fails
           "sdist/pkg-1.0/docs" (Some Demo.repo) None None Demo.world
           (Forall_nil _)).
Defined.

(** ** The order of the sources *)

Section Sources.
Variable cwd : string.
Variable tempdir : string.
Variable scorer : string -> string -> nat.
Variable all_licenses : list (string * string).
Variable os_api_get : string -> option License.
Variable os_api_all : list License.
Variable network : nat -> string -> result Response.
Variable b64decode_utf8 : string -> result string.

(** X16.  Where the folder gives nothing and the API of the host gives a
    license, [search_license_file] returns that license and stops: the
    outcome is the one of the call of the API whatever [git] would do, so
    no clone is made. *)
Theorem search_license_file_api_before_clone
        (git : list string -> result (list (string * node)))
        (folder_path repo : string)
        (version license_name_metadata default : option string)
        (w : World) (l : ShortLicense) :
  declared_default scorer os_api_get os_api_all license_name_metadata
  = Return default ->
  first_license_file (os_walk cwd w folder_path) = None ->
  repo <> "" ->
  fst (search_license_api_github cwd tempdir network b64decode_utf8
                                 repo version default w)
  = Return (Some l) ->
  search_license_file cwd tempdir scorer all_licenses os_api_get os_api_all
                      network b64decode_utf8 git
                      folder_path (Some repo) version license_name_metadata w
  = (Return (Some l),
     snd (search_license_api_github cwd tempdir network b64decode_utf8
                                    repo version default w)).
Proof.
  intros Hmeta Hnone Hrepo Hapi.
  unfold search_license_file, bind, lift, ret.
  unfold declared_default in Hmeta. rewrite Hmeta.
  unfold search_license_folder. rewrite Hnone.
  destruct repo as [|c repo]; [congruence|].
  destruct (search_license_api_github cwd tempdir network b64decode_utf8
                                      (String c repo) version default w)
    as [r w1].
  cbn [fst snd] in *. now subst r.
Qed.

(** X17.  An error of the network is not absorbed.  Where the folder gives
    nothing and [requests.get] raises, [search_license_file] raises the
    same error: it does not go on to the clone, no directory is made and
    nothing enters the cache. *)
Theorem search_license_file_network_error
        (git : list string -> result (list (string * node)))
        (folder_path repo : string)
        (version license_name_metadata default : option string)
        (w : World) (url : string) (e : exn) :
  declared_default scorer os_api_get os_api_all license_name_metadata
  = Return default ->
  first_license_file (os_walk cwd w folder_path) = None ->
  cache_get (repo, version, default) (cache w) = None ->
  _get_api_github_url repo version = Return url ->
  network (List.length (requests w)) url = Raise e ->
  search_license_file cwd tempdir scorer all_licenses os_api_get os_api_all
                      network b64decode_utf8 git
                      folder_path (Some repo) version license_name_metadata w
  = (Raise e, mkWorld (root w) (requests w ++ [url])%list (cache w)).
Proof.
  intros Hmeta Hnone Hmiss Hurl Hnet.
  unfold search_license_file, bind, lift, ret.
  unfold declared_default in Hmeta. rewrite Hmeta.
  unfold search_license_folder. rewrite Hnone.
  destruct repo as [|c repo]; [discriminate|].
  unfold search_license_api_github. rewrite lru_cache_miss by exact Hmiss.
  unfold search_license_api_github_wrapped, bind, lift, requests_get.
  now rewrite Hurl, Hnet.
Qed.

(** X18.  A license that [search_license_folder] returns lies at a path
    that names a file of the file system, the one whose text was
    classified. *)
Theorem search_license_folder_path_readable
        (p : string) (default : option string) (w : World)
        (lic : ShortLicense) :
  fst (search_license_folder cwd scorer all_licenses p default w)
  = Return (Some lic) ->
  exists text, resolve cwd w (path lic) = Some (File text).
Proof.
  unfold search_license_folder.
  destruct (first_license_file (os_walk cwd w p)) as [[dir f]|];
    [|discriminate].
  unfold bind, ret, get_license_type, bind, read_text.
  destruct (resolve cwd w (os_path_join dir f)) as [[text|es]|] eqn:Hres;
    try discriminate.
  intro H. exists text.
  destruct (lift _ w) as [[low|e] w0]; [|discriminate].
  destruct low.
  - injection H as <-. exact Hres.
  - destruct (extractOne scorer text (map snd all_licenses))
      as [[best score]|]; [|discriminate].
    unfold lift in H.
    destruct (index best (map snd all_licenses)); [|discriminate].
    destruct (nth_error all_licenses a); [|discriminate].
    injection H as <-. exact Hres.
Qed.
End Sources.

Lemma search_license_file_api_before_clone_witness :
  search_license_file
    Demo.cwd Demo.tempdir Demo.scorer Demo.corpus
    Demo.os_api_get Demo.os_api_all Demo.found Demo.b64decode_utf8
    Demo.git_fails "sdist/pkg-1.0/docs" (Some Demo.repo) None (Some "MIT")
    Demo.world
  = (Return (Some (mkShortLicense (JStr "MIT")
                                  "/tmp/github-license-x/LICENSE" false)),
     snd (search_license_api_github
            Demo.cwd Demo.tempdir Demo.found Demo.b64decode_utf8
            Demo.repo None (Some "MIT") Demo.world)).
Proof.
  refine (search_license_file_api_before_clone
            Demo.cwd Demo.tempdir Demo.scorer Demo.corpus
            Demo.os_api_get Demo.os_api_all Demo.found Demo.b64decode_utf8
            Demo.git_fails "sdist/pkg-1.0/docs" Demo.repo None (Some "MIT")
            (Some "MIT") Demo.world _ _ _ _ _).
  - vm_compute. reflexivity.
  - vm_compute. reflexivity.
  - discriminate.
  - vm_compute. reflexivity.
Defined.

Lemma search_license_file_network_error_witness :
  search_license_file
    Demo.cwd Demo.tempdir Demo.scorer Demo.corpus
    Demo.os_api_get Demo.os_api_all (fun _ _ => Raise ConnectionError)
    Demo.b64decode_utf8 Demo.git_fails
    "sdist/pkg-1.0/docs" (Some Demo.repo) None None Demo.world
  = (Raise ConnectionError, mkWorld Demo.tree [Demo.repo_api] []).
Proof.
  refine (search_license_file_network_error
            Demo.cwd Demo.tempdir Demo.scorer Demo.corpus
            Demo.os_api_get Demo.os_api_all (fun _ _ => Raise ConnectionError)
            Demo.b64decode_utf8 Demo.git_fails
            "sdist/pkg-1.0/docs" Demo.repo None None None Demo.world
            Demo.repo_api ConnectionError _ _ _ _ _).
  - reflexivity.
  - vm_compute. reflexivity.
  - reflexivity.
  - vm_compute. reflexivity.
  - reflexivity.
Defined.

Lemma search_license_folder_path_readable_witness :
  exists text,
    resolve Demo.cwd Demo.world "project/LICENSE.txt" = Some (File text).
Proof.
  refine (search_license_folder_path_readable
            Demo.cwd Demo.scorer Demo.corpus "project" None Demo.world
            (mkShortLicense (JStr "MIT") "project/LICENSE.txt" false) _).
  vm_compute. reflexivity.
Defined.

(** ** Eviction *)

Lemma cache_remove_prefix {V : Type} (k : Key) (pre : list Key) :
  forall (c : list (Key * V)) rest,
    map fst c = (pre ++ rest)%list -> ~ In k pre ->
    exists rest', map fst (cache_remove k c) = (pre ++ rest')%list.
Proof.
  induction pre as [|p pre IH]; intros c rest Hc Hk.
  - eexists. reflexivity.
  - destruct c as [|[k' v'] c]; [discriminate|].
    cbn [map fst app] in Hc. injection Hc as -> Hc.
    cbn [cache_remove].
    destruct (key_eqb k p) eqn:E.
    + apply key_eqb_eq in E. subst. exfalso. apply Hk. now left.
    + destruct (IH c rest Hc) as [rest' Hr]; [intro; apply Hk; now right|].
      exists rest'. cbn [map fst app]. now rewrite Hr.
Qed.

Lemma cache_get_not_in {V : Type} (k : Key) (c : list (Key * V)) :
  ~ In k (map fst c) -> cache_get k c = None.
Proof.
  induction c as [|[k' v'] c IH]; cbn [cache_get map fst In]; intro H.
  - reflexivity.
  - destruct (key_eqb k k') eqn:E.
    + apply key_eqb_eq in E. subst. exfalso. apply H. now left.
    + apply IH. intro Hin. apply H. now right.
Qed.

Section Eviction.
Variable f : Key -> M (option ShortLicense).
Hypothesis f_keeps_cache : forall k w, cache (snd (f k w)) = cache w.

(** The keys of calls that returned stand at the front of the cache, the
    latest first. *)
Lemma recent_keys_in_front (ks : list Key) :
  forall done w rest,
    cache_wf (cache w) ->
    map fst (cache w) = (rev done ++ rest)%list ->
    NoDup (done ++ ks) ->
    List.length (done ++ ks) <= maxsize ->
    all_return f ks w = true ->
    exists rest',
      map fst (cache (run_calls f ks w)) = (rev (done ++ ks) ++ rest')%list.
Proof.
  induction ks as [|k ks IH]; intros done w rest Hwf Hkeys Hnd Hlen Hret.
  - exists rest. now rewrite app_nil_r.
  - cbn [all_return] in Hret. unfold run_calls. cbn [fold_left].
    fold (run_calls f ks (snd (lru_cache f k w))).
    pose proof (lru_cache_keeps_wf f f_keeps_cache k w Hwf) as Hwf'.
    assert (Hk : ~ In k (rev done)).
    { rewrite <- in_rev. apply NoDup_remove_2 in Hnd.
      intro Hin. apply Hnd. apply in_or_app. now left. }
    assert (Hfront : exists rest',
               map fst (cache (snd (lru_cache f k w)))
               = (rev (done ++ [k]) ++ rest')%list).
    { rewrite rev_app_distr. cbn [rev app].
      unfold lru_cache in Hret |- *.
      destruct (cache_get k (cache w)) as [v|] eqn:Hget.
      - cbn [snd set_cache cache]. unfold cache_touch. cbn [map fst].
        destruct (cache_remove_prefix k (rev done) (cache w) rest Hkeys Hk)
          as [rest' ->].
        now exists rest'.
      - pose proof (f_keeps_cache k w) as Hkeep.
        destruct (f k w) as [[v|e] w']; [|discriminate].
        cbn [snd] in Hkeep |- *. cbn [set_cache cache]. rewrite Hkeep.
        unfold cache_store. rewrite Hget.
        destruct (maxsize <=? List.length (cache w))%nat eqn:Efull.
        + apply Nat.leb_le in Efull.
          assert (Hrest : rest <> []).
          { intros ->. rewrite app_nil_r in Hkeys.
            apply (f_equal (@List.length Key)) in Hkeys.
            rewrite length_map, length_rev in Hkeys.
            rewrite length_app in Hlen. cbn [List.length] in Hlen. lia. }
          cbn [map fst]. rewrite removelast_keys, Hkeys.
          rewrite removelast_app by exact Hrest.
          now exists (removelast rest).
        + cbn [map fst]. rewrite Hkeys. now exists rest. }
    destruct Hfront as [rest1 Hfront].
    assert (Hret' : all_return f ks (snd (lru_cache f k w)) = true).
    { destruct (lru_cache f k w) as [[v|e] w']; [exact Hret | discriminate]. }
    destruct (IH (done ++ [k])%list (snd (lru_cache f k w)) rest1 Hwf' Hfront)
      as [rest' Hr]; try (rewrite <- app_assoc; assumption); [exact Hret'|].
    exists rest'. rewrite <- app_assoc in Hr. exact Hr.
Qed.

(** As many other keys as the cache has places push a key out. *)
Lemma lru_cache_evicts (k : Key) (ks : list Key) (w : World) :
  cache_wf (cache w) ->
  NoDup ks -> List.length ks = maxsize -> ~ In k ks ->
  all_return f ks w = true ->
  cache_get k (cache (run_calls f ks w)) = None.
Proof.
  intros Hwf Hnd Hlen Hk Hret.
  destruct (recent_keys_in_front ks [] w (map fst (cache w)) Hwf eq_refl)
    as [rest Hkeys]; try assumption; [cbn [app]; lia|].
  cbn [app] in Hkeys.
  pose proof (run_calls_keeps_wf f f_keeps_cache ks w Hwf) as [_ Hsize].
  assert (Hrest : rest = []).
  { apply (f_equal (@List.length Key)) in Hkeys.
    rewrite length_map, length_app, length_rev in Hkeys.
    destruct rest; [reflexivity | cbn [List.length] in Hkeys; lia]. }
  subst rest. rewrite app_nil_r in Hkeys.
  apply cache_get_not_in. rewrite Hkeys, <- in_rev. exact Hk.
Qed.
End Eviction.

Section ApiEviction.
Variable cwd : string.
Variable tempdir : string.
Variable network : nat -> string -> result Response.
Variable b64decode_utf8 : string -> result string.

(** Whenever the URL of the API can be built, the function under the
    decorator sends its request. *)
Lemma wrapped_sends (github_url : string) (version default : option string)
      (w : World) (url : string) :
  _get_api_github_url github_url version = Return url ->
  requests (snd (search_license_api_github_wrapped
                   cwd tempdir network b64decode_utf8
                   (github_url, version, default) w))
  = (requests w ++ [url])%list.
Proof.
  intro Hurl.
  destruct (wrapped_requests cwd tempdir network b64decode_utf8
                             github_url version default w)
    as [H | (url' & Hu & H)].
  - exfalso. revert H.
    unfold search_license_api_github_wrapped, bind, lift, ret, requests_get.
    rewrite Hurl.
    destruct (network (List.length (requests w)) url) as [response|].
    2:{ cbn [snd requests]. intro H.
        apply (f_equal (@List.length string)) in H.
        rewrite length_app in H. cbn [List.length] in H. lia. }
    intro H. apply (f_equal (@List.length string)) in H. revert H.
    destruct (negb (status_code response =? 200)%Z).
    { cbn [snd requests]. rewrite length_app. cbn [List.length]. lia. }
    destruct (json_body response) as [json_content|].
    2:{ cbn [snd requests]. rewrite length_app. cbn [List.length]. lia. }
    destruct (getitem json_content "content") as [content|].
    2:{ cbn [snd requests]. rewrite length_app. cbn [List.length]. lia. }
    destruct (decode_content b64decode_utf8 content) as [text|].
    2:{ cbn [snd requests]. rewrite length_app. cbn [List.length]. lia. }
    set (w0 := mkWorld (root w) (requests w ++ [url])%list (cache w)).
    pose proof (mkdtemp_requests cwd tempdir "github-license-" w0) as Hmk.
    destruct (mkdtemp cwd tempdir "github-license-" w0) as [[tmp|e] w1];
      cbn [snd] in Hmk.
    2:{ cbn [snd]. rewrite Hmk. cbn [requests w0]. rewrite length_app.
        cbn [List.length]. lia. }
    pose proof (write_text_requests cwd (os_path_join tmp "LICENSE") text w1)
      as Hwr.
    destruct (write_text cwd (os_path_join tmp "LICENSE") text w1)
      as [[u|e] w2]; cbn [snd] in Hwr; rewrite Hmk in Hwr.
    2:{ cbn [snd]. rewrite Hwr. cbn [requests w0]. rewrite length_app.
        cbn [List.length]. lia. }
    destruct (dict_get json_content "license" (JObj [])) as [license|].
    2:{ cbn [snd]. rewrite Hwr. cbn [requests w0]. rewrite length_app.
        cbn [List.length]. lia. }
    destruct (dict_get license "spdx_id" (of_opt_str default));
      cbn [snd]; rewrite Hwr; cbn [requests w0]; rewrite length_app;
      cbn [List.length]; lia.
  - rewrite Hurl in Hu. injection Hu as <-. exact H.
Qed.

(** X19.  The cache does evict.  After thirteen calls of
    [search_license_api_github] that returned, with thirteen different
    triples of arguments, a call with any other triple is served by the
    host, not by the cache: it sends its request, also when the same call
    had been made before. *)
Theorem api_cache_evicts
        (github_url : string) (version default : option string)
        (ks : list Key) (w : World) (url : string) :
  cache_wf (cache w) ->
  NoDup ks -> List.length ks = 13 ->
  ~ In (github_url, version, default) ks ->
  all_return (search_license_api_github_wrapped
                cwd tempdir network b64decode_utf8) ks w = true ->
  _get_api_github_url github_url version = Return url ->
  let w2 := run_calls (search_license_api_github_wrapped
                         cwd tempdir network b64decode_utf8) ks w in
  cache_get (github_url, version, default) (cache w2) = None
  /\ requests (snd (search_license_api_github
                      cwd tempdir network b64decode_utf8
                      github_url version default w2))
     = (requests w2 ++ [url])%list.
Proof.
  intros Hwf Hnd Hlen Hk Hret Hurl w2.
  assert (Hmiss : cache_get (github_url, version, default) (cache w2) = None).
  { apply lru_cache_evicts; try assumption.
    apply wrapped_keeps_cache. }
  split; [exact Hmiss|].
  unfold search_license_api_github. rewrite lru_cache_miss by exact Hmiss.
  pose proof (wrapped_sends github_url version default w2 url Hurl) as Hs.
  destruct (search_license_api_github_wrapped
              cwd tempdir network b64decode_utf8
              (github_url, version, default) w2) as [[v|e] w3];
    exact Hs.
Qed.
End ApiEviction.

Lemma api_cache_evicts_witness :
  let w := snd (Demo.api Demo.repo None (Some "MIT") Demo.world) in
  let w2 := Demo.other_calls w in
  cache_get (Demo.repo, None, Some "MIT") (cache w2) = None
  /\ requests (snd (Demo.api Demo.repo None (Some "MIT") w2))
     = (requests w2 ++ [Demo.repo_api])%list.
Proof.
  refine (api_cache_evicts
            Demo.cwd Demo.tempdir Demo.not_found Demo.b64decode_utf8
            Demo.repo None (Some "MIT") Demo.other_keys
            (snd (Demo.api Demo.repo None (Some "MIT") Demo.world))
            Demo.repo_api _ _ _ _ _ _).
  - split.
    + vm_compute. constructor; [intros [] | constructor].
    + vm_compute. repeat constructor.
  - unfold Demo.other_keys. cbn [map].
    repeat (constructor;
            [intro H; cbn [In] in H;
             repeat (destruct H as [H | H]; [discriminate H|]); exact H|]).
    constructor.
  - reflexivity.
  - unfold Demo.other_keys. cbn [map In]. intro H.
    repeat (destruct H as [H | H]; [discriminate H|]). exact H.
  - vm_compute. reflexivity.
  - reflexivity.
Defined.

(** ** The separator of the reported path *)

Lemma replace_backslash_all (s : string) :
  str_all (fun c => negb (Ascii.eqb c backslash))
          (replace_char backslash "/" s) = true.
Proof.
  induction s as [|c s IH]; [reflexivity|].
  cbn [replace_char]. destruct (Ascii.eqb c backslash) eqn:E.
  - change ("/" ++ replace_char backslash "/" s)
      with (String "/" (replace_char backslash "/" s)).
    cbn [str_all]. now rewrite IH.
  - cbn [str_all]. now rewrite E, IH.
Qed.

Lemma split_all (q : ascii -> bool) (sep : ascii) (s : string) :
  str_all q s = true -> Forall (fun x => str_all q x = true) (split sep s).
Proof.
  induction s as [|c s IH]; cbn [str_all split]; intro H.
  - repeat constructor.
  - apply andb_prop in H as [Hc Hs]. specialize (IH Hs).
    destruct (Ascii.eqb c sep).
    + constructor; [reflexivity | exact IH].
    + destruct (split sep s) as [|x xs].
      * repeat constructor. cbn [str_all]. now rewrite Hc.
      * inversion IH as [|? ? Hx Hxs]; subst.
        constructor; [|exact Hxs]. cbn [str_all]. now rewrite Hc, Hx.
Qed.

Lemma join_all (q : ascii -> bool) (l : list string) :
  q "/"%char = true ->
  Forall (fun x => str_all q x = true) l ->
  str_all q (join "/" l) = true.
Proof.
  intros Hq. induction 1 as [|x l Hx Hl IH]; [reflexivity|].
  destruct l as [|y l]; [exact Hx|].
  change (join "/" (x :: y :: l)) with (x ++ "/" ++ join "/" (y :: l)).
  rewrite str_all_app, Hx. cbn [append str_all andb]. now rewrite Hq, IH.
Qed.

(** X20.  The path that [search_license_file] reports for a license of the
    folder never holds a backslash, whatever the names of the files are:
    the slash is the only separator. *)
Theorem packaged_path_no_backslash (cwd p folder_path location : string) :
  packaged_path cwd p folder_path = Return location ->
  str_all (fun c => negb (Ascii.eqb c backslash)) location = true.
Proof.
  unfold packaged_path.
  destruct (relpath cwd p folder_path) as [rel|]; [|discriminate].
  intro H. injection H as <-.
  pose proof (replace_backslash_all rel) as Hall.
  destruct (1 <? List.length (split slash (replace_char backslash "/" rel)))%nat;
    [|exact Hall].
  apply join_all; [reflexivity|].
  apply (split_all _ slash) in Hall.
  destruct (split slash (replace_char backslash "/" rel)) as [|x xs];
    [constructor|].
  now inversion Hall.
Qed.

Lemma packaged_path_no_backslash_witness :
  str_all (fun c => negb (Ascii.eqb c backslash)) "docs/index.rst" = true.
Proof.
  exact (packaged_path_no_backslash
           Demo.cwd "sdist/pkg-1.0/docs/index.rst" "sdist" "docs/index.rst"
           eq_refl).
Defined.

(** ** The clone, further *)

(** X21.  Where the directory of temporary files exists and [git clone]
    succeeds, [search_license_repo] returns what the scanner finds in the
    directory of the clone, which holds what [git] wrote; the result is
    that of [search_license_folder], with its error if it raises. *)
Theorem search_license_repo_scans_clone
        (cwd tempdir : string) (scorer : string -> string -> nat)
        (all_licenses : list (string * string))
        (git : list string -> result (list (string * node)))
        (git_url : string) (version default : option string) (w : World)
        (entries tree : list (string * node)) :
  startswith cwd "/" = true ->
  resolve cwd w tempdir = Some (Dir entries) ->
  let tmp_dir :=
    os_path_join tempdir (fresh_name "gs-clone-repo-" (map fst entries)) in
  git (_get_git_cmd (clone_url git_url) version tmp_dir) = Return tree ->
  exists w2,
    resolve cwd w2 tmp_dir = Some (Dir tree)
    /\ search_license_repo cwd tempdir scorer all_licenses git
                           git_url version default w
       = search_license_folder cwd scorer all_licenses tmp_dir default w2.
Proof.
  intros Hcwd Ht tmp_dir Hgit.
  destruct (search_license_repo_steps cwd tempdir scorer all_licenses git Hcwd
                                      git_url version default w entries Ht)
    as (w1 & _ & _ & _ & _ & Hrun).
  fold tmp_dir in Hrun. rewrite Hgit in Hrun.
  destruct Hrun as (w2 & Hd & _ & _ & Hrun).
  exists w2. auto.
Qed.

Lemma search_license_repo_scans_clone_witness :
  exists w2,
    resolve Demo.cwd w2 "/tmp/gs-clone-repo-x"
    = Some (Dir [("COPYING", File Demo.apache_text)])
    /\ search_license_repo
         Demo.cwd Demo.tempdir Demo.scorer Demo.corpus
         (fun _ => Return [("COPYING", File Demo.apache_text)])
         Demo.repo None None Demo.world
       = search_license_folder Demo.cwd Demo.scorer Demo.corpus
                               "/tmp/gs-clone-repo-x" None w2.
Proof.
  exact (search_license_repo_scans_clone
           Demo.cwd Demo.tempdir Demo.scorer Demo.corpus
           (fun _ => Return [("COPYING", File Demo.apache_text)])
           Demo.repo None None Demo.world []
           [("COPYING", File Demo.apache_text)] eq_refl eq_refl eq_refl).
Defined.
